(** * proglog: the store, the index and the segment of the commit log

    A shallow embedding of [internal/log/store.go] and of the segment
    file of the same package, with the theorems that settle the
    properties stated for them.

    Go's [uint64] is a [Z] with its wrap-around written out ([wrap64]);
    byte slices are [list byte]; the file system and Go's [bufio.Writer]
    are small executable models; every method that mutates its receiver
    returns the new receiver next to its results. *)

From Stdlib Require Import ZArith Lia List Bool.
From Stdlib Require Import Strings.Byte.
From stdpp Require Import gmap strings pretty.

Local Open Scope Z_scope.

(** ** Machine integers *)

Module Int.

Definition two64 : Z := 2 ^ 64.
Definition two63 : Z := 2 ^ 63.
Definition two32 : Z := 2 ^ 32.

(** Conversion to [uint64]: keep the low 64 bits. *)
Definition wrap64 (z : Z) : Z := z mod two64.

(** Conversion to [uint32]. *)
Definition wrap32 (z : Z) : Z := z mod two32.

(** Conversion of a [uint64] to [int64]: same bits, read as two's
    complement. *)
Definition to_int64 (z : Z) : Z :=
  let u := wrap64 z in if u <? two63 then u else u - two64.

Definition uint64 (z : Z) : Prop := 0 <= z < two64.
Definition uint32 (z : Z) : Prop := 0 <= z < two32.


End Int.
Export Int.

(** ** The rounding helper of the segment file *)

(** Go panics on an integer division by zero: the helper returns [None]
    there.  The guard and the two branches are named so that statements
    can speak of them. *)
Definition nearestMultiple_guard (j : Z) : bool := 0 <=? j.
Definition nearestMultiple_then (j k : Z) : Z := wrap64 ((j / k) * k).
Definition nearestMultiple_else (j k : Z) : Z :=
  wrap64 ((wrap64 (wrap64 (j - k) + 1) / k) * k).

Definition nearestMultiple (j k : Z) : option Z :=
  if k =? 0 then None
  else if nearestMultiple_guard j then Some (nearestMultiple_then j k)
  else Some (nearestMultiple_else j k).

(** ** Bytes and [encoding/binary]'s big-endian order *)

Module binary.

(** Go's conversion [byte(v)]: the low eight bits. *)
Definition byte_of_Z (v : Z) : byte :=
  match Byte.of_N (Z.to_N (Z.land v 255)) with
  | Some b => b
  | None => x00
  end.

(** Go's conversion [uint64(b)] of a byte. *)
Definition Z_of_byte (b : byte) : Z := Z.of_N (Byte.to_N b).

(** [bigEndian.PutUint64]. *)
Definition PutUint64 (v : Z) : list byte :=
  [ byte_of_Z (Z.shiftr v 56); byte_of_Z (Z.shiftr v 48);
    byte_of_Z (Z.shiftr v 40); byte_of_Z (Z.shiftr v 32);
    byte_of_Z (Z.shiftr v 24); byte_of_Z (Z.shiftr v 16);
    byte_of_Z (Z.shiftr v 8); byte_of_Z v ].

(** [bigEndian.Uint64], on the first eight bytes of [b]. *)
Definition Uint64 (b : list byte) : Z :=
  let at_ i := Z_of_byte (nth i b x00) in
  Z.lor (at_ 7%nat)
    (Z.lor (Z.shiftl (at_ 6%nat) 8)
      (Z.lor (Z.shiftl (at_ 5%nat) 16)
        (Z.lor (Z.shiftl (at_ 4%nat) 24)
          (Z.lor (Z.shiftl (at_ 3%nat) 32)
            (Z.lor (Z.shiftl (at_ 2%nat) 40)
              (Z.lor (Z.shiftl (at_ 1%nat) 48)
                (Z.shiftl (at_ 0%nat) 56))))))).

(** [bigEndian.PutUint32] and [bigEndian.Uint32]. *)
Definition PutUint32 (v : Z) : list byte :=
  [ byte_of_Z (Z.shiftr v 24); byte_of_Z (Z.shiftr v 16);
    byte_of_Z (Z.shiftr v 8); byte_of_Z v ].

Definition Uint32 (b : list byte) : Z :=
  let at_ i := Z_of_byte (nth i b x00) in
  Z.lor (at_ 3%nat)
    (Z.lor (Z.shiftl (at_ 2%nat) 8)
      (Z.lor (Z.shiftl (at_ 1%nat) 16)
        (Z.shiftl (at_ 0%nat) 24))).

End binary.

(** ** Errors and results *)

(** Go's [error] values that the modelled code can produce.  A run-time
    panic is not recovered anywhere in the package, so it reaches the
    caller like an error and is listed here too. *)
Inductive error : Type :=
| ErrClosed          (* os.ErrClosed: use of a closed file *)
| ENOENT             (* no such file *)
| ENOSPC             (* no space left on the device *)
| EOF                (* io.EOF: short read *)
| ErrShortWrite      (* io.ErrShortWrite *)
| ErrNegativeOffset  (* ReadAt with a negative offset *)
| EINVAL             (* pread: offset + count does not fit int64 *)
| ErrProto           (* an error of the protobuf library *)
| ErrNotFound        (* index: no such entry *)
| ErrCapacity        (* index: the backing region is full *)
| PanicMakeslice.    (* panic: makeslice: len out of range *)

(** A Go result [(x, err)] whose value is meaningful only when [err] is
    nil. *)
Inductive res (A : Type) : Type :=
| Ok (a : A)
| Err (e : error).
Arguments Ok {A} a.
Arguments Err {A} e.

Definition is_nil (e : option error) : bool :=
  match e with None => true | Some _ => false end.

(** [len] of a slice, as an integer. *)
Definition len {A} (l : list A) : Z := Z.of_nat (length l).

(** The Go slice expressions [p[:n]] and [p[n:]] for [0 <= n]. *)
Definition upto {A} (n : Z) (p : list A) : list A := firstn (Z.to_nat n) p.
Definition from {A} (n : Z) (p : list A) : list A := skipn (Z.to_nat n) p.

(** ** The file system *)

(** The files of the machine by path, and the size that a file may not
    exceed on the device (the kernel bounds it by [2^63 - 1]). *)
Record World : Type := mkWorld {
  files : gmap string (list byte);
  quota : Z
}.

Definition set_file (name : string) (d : list byte) (w : World) : World :=
  {| files := <[name := d]> (files w); quota := quota w |}.

Module os.

(** An open file: its path and whether [Close] was called on it. *)
Record File : Type := mkFile {
  Name : string;
  closed : bool
}.

Definition Stat (name : string) (w : World) : res Z :=
  match files w !! name with
  | Some d => Ok (len d)
  | None => Err ENOENT
  end.

(** [os.OpenFile(name, O_RDWR|..., 0644)]; [create] is the flag
    [O_CREATE]. *)
Definition OpenFile (name : string) (create : bool) (w : World)
  : res File * World :=
  match files w !! name with
  | Some _ => (Ok (mkFile name false), w)
  | None =>
      if create then (Ok (mkFile name false), set_file name [] w)
      else (Err ENOENT, w)
  end.

(** [f.Write(p)] on a file opened with [O_APPEND]: the bytes go to the
    end of the file; when the device is full the part that fits is
    written and the call fails. *)
Definition Write (f : File) (p : list byte) (w : World)
  : (Z * option error) * World :=
  if closed f then ((0, Some ErrClosed), w)
  else match files w !! Name f with
  | None => ((0, Some ENOENT), w)
  | Some d =>
      let room := quota w - len d in
      if len p <=? room then ((len p, None), set_file (Name f) (d ++ p) w)
      else
        let n := Z.max 0 room in
        ((n, Some ENOSPC), set_file (Name f) (d ++ upto n p) w)
  end.

(** [f.ReadAt(b, off)] with [n = len(b)]: the bytes read and the error.
    A negative offset is refused first; the loop [for len(b) > 0] is not
    entered for an empty [b], which returns [(0, nil)] without a look at
    the file; [pread] refuses a closed file, then a range that ends
    beyond the largest [int64]; a read that ends short returns the bytes
    that are there and [io.EOF]. *)
Definition ReadAt (f : File) (n off : Z) (w : World)
  : list byte * option error :=
  if off <? 0 then ([], Some ErrNegativeOffset)
  else if n =? 0 then ([], None)
  else if closed f then ([], Some ErrClosed)
  else if two63 <=? off + n then ([], Some EINVAL)
  else match files w !! Name f with
  | None => ([], Some ENOENT)
  | Some d =>
      if len d <=? off then ([], Some EOF)
      else
        let rest := from off d in
        if len rest <? n then (rest, Some EOF) else (upto n rest, None)
  end.

Definition Close (f : File) : option error * File :=
  if closed f then (Some ErrClosed, f) else (None, mkFile (Name f) true).

Definition Remove (name : string) (w : World) : option error * World :=
  match files w !! name with
  | Some _ => (None, {| files := delete name (files w); quota := quota w |})
  | None => (Some ENOENT, w)
  end.

End os.

(** ** [bufio.Writer] *)

Module bufio.

Definition defaultBufSize : Z := 4096.

(** The writer's sticky error and the buffered bytes [b.buf[0:b.n]].
    The underlying [io.Writer] is the file of the store that owns the
    writer: the store passes it to every call, so that the file is held
    once, as the one [*os.File] of the source. *)
Record Writer : Type := mkWriter {
  err : option error;
  buf : list byte
}.

Definition NewWriter : Writer := mkWriter None [].

Definition Available (b : Writer) : Z := defaultBufSize - len (buf b).
Definition Buffered (b : Writer) : Z := len (buf b).

Definition Flush (b : Writer) (wr : os.File) (w : World)
  : option error * Writer * World :=
  match err b with
  | Some e => (Some e, b, w)
  | None =>
      if Buffered b =? 0 then (None, b, w)
      else
        let '((n, e), w') := os.Write wr (buf b) w in
        let e := if (n <? Buffered b) && is_nil e
                 then Some ErrShortWrite else e in
        match e with
        | Some e => (Some e, mkWriter (Some e) (from n (buf b)), w')
        | None => (None, mkWriter None [], w')
        end
  end.

(** The loop of [Write]: while [p] does not fit and no error is set,
    either write [p] straight to the file (empty buffer) or fill the
    buffer and flush it.  [None] when [fuel] runs out. *)
Fixpoint Write_loop (fuel : nat) (b : Writer) (wr : os.File)
    (p : list byte) (nn : Z) (w : World)
  : option (Writer * list byte * Z * World) :=
  if (Available b <? len p) && is_nil (err b) then
    match fuel with
    | O => None
    | S fuel' =>
        if Buffered b =? 0 then
          let '((n, e), w') := os.Write wr p w in
          Write_loop fuel' (mkWriter e (buf b)) wr (from n p) (nn + n) w'
        else
          let n := Z.min (Available b) (len p) in
          let b1 := mkWriter (err b) (buf b ++ upto n p) in
          let '(_, b2, w') := Flush b1 wr w in
          Write_loop fuel' b2 wr (from n p) (nn + n) w'
    end
  else Some (b, p, nn, w).

(** Two turns of the loop are always enough, see [Write_loop_total]. *)
Definition Write_fuel : nat := 2.

Definition Write (b : Writer) (wr : os.File) (p : list byte) (w : World)
  : (Z * option error) * Writer * World :=
  match Write_loop Write_fuel b wr p 0 w with
  | None => ((0, Some ErrShortWrite), b, w)
  | Some (b', p', nn, w') =>
      match err b' with
      | Some e => ((nn, Some e), b', w')
      | None =>
          let n := Z.min (Available b') (len p') in
          ((nn + n, None), mkWriter None (buf b' ++ upto n p'), w')
      end
  end.

End bufio.

(** [binary.Write(w, enc, v)] for a [uint64] value [v] and the big-endian
    order [enc]. *)
Definition binary_Write (b : bufio.Writer) (wr : os.File) (v : Z) (w : World)
  : option error * bufio.Writer * World :=
  let '((_, e), b', w') := bufio.Write b wr (binary.PutUint64 v) w in
  (e, b', w').

(** ** The store *)

Module store.

(** Number of bytes used to store the record's length. *)
Definition lenWidth : Z := 8.

(** The embedded [*os.File], the buffered writer and the size.  The
    mutex is not modelled: calls are sequential here. *)
Record t : Type := mk {
  File : os.File;
  buf : bufio.Writer;
  size : Z
}.

Definition Append (s : t) (p : list byte) (w : World)
  : (Z * Z * option error) * t * World :=
  let pos := size s in
  let '(e, b1, w1) := binary_Write (buf s) (File s) (wrap64 (len p)) w in
  match e with
  | Some e => ((0, 0, Some e), mk (File s) b1 (size s), w1)
  | None =>
      let '((wn, e), b2, w2) := bufio.Write b1 (File s) p w1 in
      match e with
      | Some e => ((0, 0, Some e), mk (File s) b2 (size s), w2)
      | None =>
          let wn := wn + lenWidth in
          ((wrap64 wn, pos, None),
           mk (File s) b2 (wrap64 (size s + wrap64 wn)), w2)
      end
  end.

Definition Read (s : t) (pos : Z) (w : World)
  : res (list byte) * t * World :=
  let '(e, b1, w1) := bufio.Flush (buf s) (File s) w in
  let s1 := mk (File s) b1 (size s) in
  match e with
  | Some e => (Err e, s1, w1)
  | None =>
      let '(size_, e) := os.ReadAt (File s) lenWidth (to_int64 pos) w1 in
      match e with
      | Some e => (Err e, s1, w1)
      | None =>
          let n := binary.Uint64 size_ in
          if two63 <=? n then (Err PanicMakeslice, s1, w1)
          else
            let '(b, e) :=
              os.ReadAt (File s) n (to_int64 (wrap64 (pos + lenWidth))) w1 in
            match e with
            | Some e => (Err e, s1, w1)
            | None => (Ok b, s1, w1)
            end
      end
  end.

Definition ReadAt (s : t) (n off : Z) (w : World)
  : (list byte * option error) * t * World :=
  let '(e, b1, w1) := bufio.Flush (buf s) (File s) w in
  let s1 := mk (File s) b1 (size s) in
  match e with
  | Some e => (([], Some e), s1, w1)
  | None => (os.ReadAt (File s) n off w1, s1, w1)
  end.

Definition Close (s : t) (w : World) : option error * t * World :=
  let '(e, b1, w1) := bufio.Flush (buf s) (File s) w in
  match e with
  | Some e => (Some e, mk (File s) b1 (size s), w1)
  | None =>
      let '(e, f) := os.Close (File s) in
      (e, mk f b1 (size s), w1)
  end.

End store.

Definition newStore (f : os.File) (w : World) : res store.t :=
  match os.Stat (os.Name f) w with
  | Err e => Err e
  | Ok fi_Size =>
      let size := wrap64 fi_Size in
      Ok (store.mk f bufio.NewWriter size)
  end.

(** ** The configuration, the record and its serialization *)

(** Modelled from the spec: the configuration type is declared outside
    the given sources; the segment reads its two fields
    [Segment.MaxStoreBytes] and [Segment.MaxIndexBytes], both integers
    (section 6 of the specification). *)
Record SegmentConfig : Type := mkSegmentConfig {
  MaxStoreBytes : Z;
  MaxIndexBytes : Z
}.

Record Config : Type := mkConfig {
  Segment : SegmentConfig
}.

Module api.

(** Modelled from the spec: the record of the API package, "an opaque
    payload with a mutable offset field". *)
Record Record_ : Type := mkRecord {
  Value : list byte;
  Offset : Z
}.

End api.

(** The serialization capability that the segment consumes
    ([proto.Marshal] and [proto.Unmarshal] into a fresh record). *)
Class Proto : Type := {
  Marshal : api.Record_ -> res (list byte);
  Unmarshal : list byte -> api.Record_ * option error
}.

(** ** The index *)

Module index.

Definition offWidth : Z := 4.
Definition posWidth : Z := 8.
Definition entWidth : Z := offWidth + posWidth.

(** Modelled from the spec: the index is not among the given sources.
    It "represents a dense array of fixed-width entries
    (relativeOffset: uint32, position: uint64)", has a "current
    size-in-bytes (= entries_count x 12)" and "a backing region pre-sized
    to a configured maximum capacity (rounded down to a multiple of entry
    width)".  The region is kept as the list of the entries written so
    far; the file is rewritten from it when the index is closed. *)
Record t : Type := mk {
  file : os.File;
  entries : list (Z * Z);
  size : Z;
  cap : Z
}.

(** Modelled from the spec: the file format of section 6, "each
    [u32 big-endian relative offset][u64 big-endian store position],
    12 bytes per entry, no padding, no header". *)
Definition encode_entry (e : Z * Z) : list byte :=
  binary.PutUint32 (fst e) ++ binary.PutUint64 (snd e).

Definition encode (es : list (Z * Z)) : list byte :=
  flat_map encode_entry es.

Fixpoint decode (d : list byte) : list (Z * Z) :=
  match d with
  | o0 :: o1 :: o2 :: o3 :: p0 :: p1 :: p2 :: p3 :: p4 :: p5 :: p6 :: p7
    :: rest =>
      (binary.Uint32 [o0; o1; o2; o3],
       binary.Uint64 [p0; p1; p2; p3; p4; p5; p6; p7]) :: decode rest
  | _ => []
  end.

(** Modelled from the spec: "read(relativeOffset: i64): if
    relativeOffset == -1, return the last written entry; otherwise
    return the entry at that exact relative index.  Fails with an out of
    range / not found error if the index is empty (for -1) or the
    requested slot has never been written". *)
Definition Read (i : t) (in_ : Z) : Z * Z * option error :=
  if in_ =? -1 then
    match last (entries i) with
    | Some (out, pos) => (out, pos, None)
    | None => (0, 0, Some ErrNotFound)
    end
  else if (0 <=? in_) && (in_ <? len (entries i)) then
    match entries i !! Z.to_nat in_ with
    | Some (out, pos) => (out, pos, None)
    | None => (0, 0, Some ErrNotFound)
    end
  else (0, 0, Some ErrNotFound).

(** Modelled from the spec: "write(offset: u32, position: u64): appends
    a new fixed-width entry at the current end, advances size by the
    entry width.  Fails with a capacity error if the backing region's
    configured maximum would be exceeded". *)
Definition Write (i : t) (off pos : Z) : option error * t :=
  if cap i <? size i + entWidth then (Some ErrCapacity, i)
  else (None, mk (file i) (entries i ++ [(off, pos)]) (size i + entWidth)
                 (cap i)).

(** Modelled from the spec: "close(): persists any pending state and
    truncates the backing file down to size bytes before closing". *)
Definition Close (i : t) (w : World) : option error * t * World :=
  if os.closed (file i) then (Some ErrClosed, i, w)
  else
    let w1 := set_file (os.Name (file i)) (encode (entries i)) w in
    let '(e, f) := os.Close (file i) in
    (e, mk f (entries i) (size i) (cap i), w1).

(** Modelled from the spec: "name(): returns the backing file's path". *)
Definition Name (i : t) : string := os.Name (file i).

End index.

(** Modelled from the spec: the index is "created/opened against an
    existing or new file, backing region sized to the configured max",
    the maximum being "rounded down to the nearest multiple of the entry
    width"; a reopened index "sees only real entries". *)
Definition newIndex (f : os.File) (c : Config) (w : World) : res index.t :=
  match files w !! os.Name f with
  | None => Err ENOENT
  | Some d =>
      let es := index.decode d in
      match nearestMultiple (MaxIndexBytes (Segment c)) index.entWidth with
      | None => Err PanicMakeslice
      | Some cap => Ok (index.mk f es (index.entWidth * len es) cap)
      end
  end.

(** ** The segment *)

(** [path.Join(dir, name)] for a clean [dir], and
    [fmt.Sprintf("%d%s", n, ext)]. *)
Definition path_Join (dir name : string) : string := dir +:+ "/" +:+ name.
Definition Sprintf_d_s (n : Z) (ext : string) : string := pretty n +:+ ext.

Module segment.

Record t : Type := mk {
  store : store.t;
  index : index.t;
  baseOffset : Z;
  nextOffset : Z;
  config : Config
}.

Section WithProto.
Context {proto : Proto}.

(** The caller's record is behind a pointer and [Append] assigns its
    [Offset]: the record as the call leaves it is returned too. *)
Definition Append (s : t) (record : api.Record_) (w : World)
  : (Z * option error) * t * api.Record_ * World :=
  let cursor := nextOffset s in
  let record := api.mkRecord (api.Value record) cursor in
  match Marshal record with
  | Err e => ((0, Some e), s, record, w)
  | Ok p =>
      let '((_, pos, _), st, w1) := store.Append (store s) p w in
      let '(e, ix) :=
        index.Write (index s)
          (* index offsets are relative to base offset *)
          (wrap32 (wrap64 (nextOffset s - wrap64 (baseOffset s))))
          pos in
      match e with
      | Some e =>
          ((0, Some e), mk st ix (baseOffset s) (nextOffset s) (config s),
           record, w1)
      | None =>
          ((cursor, None),
           mk st ix (baseOffset s) (wrap64 (nextOffset s + 1)) (config s),
           record, w1)
      end
  end.

Definition Read (s : t) (off : Z) (w : World)
  : (option api.Record_ * option error) * t * World :=
  let '(_, pos, e) :=
    index.Read (index s) (to_int64 (wrap64 (off - baseOffset s))) in
  match e with
  | Some e => ((None, Some e), s, w)
  | None =>
      let '(r, st, w1) := store.Read (store s) pos w in
      let s1 := mk st (index s) (baseOffset s) (nextOffset s) (config s) in
      match r with
      | Err e => ((None, Some e), s1, w1)
      | Ok p =>
          let '(record, e) := Unmarshal p in
          ((Some record, e), s1, w1)
      end
  end.

End WithProto.

Definition IsMaxed (s : t) : bool :=
  (MaxStoreBytes (Segment (config s)) <=? store.size (store s))
  || (MaxIndexBytes (Segment (config s)) <=? index.size (index s)).

Definition Close (s : t) (w : World) : option error * t * World :=
  let '(e, ix, w1) := index.Close (index s) w in
  let s1 := mk (store s) ix (baseOffset s) (nextOffset s) (config s) in
  match e with
  | Some e => (Some e, s1, w1)
  | None =>
      let '(e, st, w2) := store.Close (store s) w1 in
      (e, mk st ix (baseOffset s) (nextOffset s) (config s), w2)
  end.

Definition Remove (s : t) (w : World) : option error * t * World :=
  let '(e, s1, w1) := Close s w in
  match e with
  | Some e => (Some e, s1, w1)
  | None =>
      let '(e, w2) := os.Remove (index.Name (index s1)) w1 in
      match e with
      | Some e => (Some e, s1, w2)
      | None =>
          let '(e, w3) := os.Remove (os.Name (store.File (store s1))) w2 in
          (e, s1, w3)
      end
  end.

End segment.

Definition newSegment (dir : string) (baseOffset : Z) (c : Config) (w : World)
  : res segment.t * World :=
  let '(r, w1) :=
    os.OpenFile (path_Join dir (Sprintf_d_s baseOffset ".store")) true w in
  match r with
  | Err e => (Err e, w1)
  | Ok storeFile =>
      match newStore storeFile w1 with
      | Err e => (Err e, w1)
      | Ok st =>
          let '(r, w2) :=
            os.OpenFile (path_Join dir (Sprintf_d_s baseOffset ".index"))
              true w1 in
          match r with
          | Err e => (Err e, w2)
          | Ok indexFile =>
              match newIndex indexFile c w2 with
              | Err e => (Err e, w2)
              | Ok ix =>
                  let '(off, _, e) := index.Read ix (-1) in
                  let nextOffset :=
                    match e with
                    | Some _ => baseOffset
                    | None => wrap64 (wrap64 (baseOffset + off) + 1)
                    end in
                  (Ok (segment.mk st ix baseOffset nextOffset c), w2)
              end
          end
      end
  end.

(** ** A concrete serialization, to run the code *)

(** Eight bytes of big-endian offset, then the value.  It stands in for
    the protobuf encoding where a statement is run on concrete input. *)
Definition fixed_Marshal (r : api.Record_) : res (list byte) :=
  Ok (binary.PutUint64 (api.Offset r) ++ api.Value r).

Definition fixed_Unmarshal (p : list byte) : api.Record_ * option error :=
  if len p <? 8 then (api.mkRecord [] 0, Some ErrProto)
  else (api.mkRecord (from 8 p) (binary.Uint64 p), None).

Definition fixed_proto : Proto :=
  {| Marshal := fixed_Marshal; Unmarshal := fixed_Unmarshal |}.

(** A serialization that rejects every record. *)
Definition failing_proto : Proto :=
  {| Marshal := fun _ => Err ErrProto;
     Unmarshal := fun _ => (api.mkRecord [] 0, Some ErrProto) |}.


(** * Invariants of the model *)

(** The part of the world that a call on the file [name] leaves alone:
    the quota and every other file. *)
Definition frame (name : string) (w w' : World) : Prop :=
  quota w' = quota w /\ forall n, n <> name -> files w' !! n = files w !! n.

(** Why a write of [k] more bytes to [f] fails: the file is closed or
    gone, or the device has no room for them. *)
Definition no_room (f : os.File) (w : World) (k : Z) : Prop :=
  os.closed f = true \/ files w !! os.Name f = None \/
  exists d, files w !! os.Name f = Some d /\ quota w < len d + k.

(** What a successful run of the writer does to the bytes: the file
    followed by the buffer followed by the bytes still to write is
    unchanged. *)
Definition carried (f : os.File) (w : World) (b : bufio.Writer) (p : list byte)
    (w' : World) (b' : bufio.Writer) (p' : list byte) : Prop :=
  (w' = w /\ bufio.buf b' ++ p' = bufio.buf b ++ p) \/
  (os.closed f = false /\ exists d d', files w !! os.Name f = Some d
     /\ w' = set_file (os.Name f) d' w
     /\ d' ++ bufio.buf b' ++ p' = d ++ bufio.buf b ++ p
     /\ len d' <= quota w).

(** The bytes of the store as a reader sees them after a flush: the file
    followed by the buffered bytes. *)
Definition stored (w : World) (s : store.t) : option (list byte) :=
  match files w !! os.Name (store.File s) with
  | Some d => Some (d ++ bufio.buf (store.buf s))
  | None => None
  end.

(** The store's invariant: as long as its writer has met no error,
    [size] is the length of the stored bytes, the buffer is within its
    capacity and the file within the quota. *)
Definition store_ok (w : World) (s : store.t) : Prop :=
  bufio.err (store.buf s) = None ->
  exists d, files w !! os.Name (store.File s) = Some d
    /\ store.size s = len d + len (bufio.buf (store.buf s))
    /\ len (bufio.buf (store.buf s)) <= bufio.defaultBufSize
    /\ len d <= quota w.

(** The kernel's bound on file sizes. *)
Definition world_ok (w : World) : Prop := 0 <= quota w < two63.

(** A store that can still write: open, without error, file present. *)
Definition store_live (w : World) (s : store.t) : Prop :=
  bufio.err (store.buf s) = None /\ os.closed (store.File s) = false
  /\ store_ok w s.

(** The entry [PutUint64 (len p) ++ p] sits at byte [pos] of [c]. *)
Definition frame_at (c : list byte) (pos : Z) (p : list byte) : Prop :=
  exists pre rest, c = pre ++ binary.PutUint64 (len p) ++ p ++ rest
    /\ len pre = pos.

(** * Runs of the segment *)

(** One call of [segment.Append] after the other, with what each call
    returned and how it left the caller's record. *)
Fixpoint appends {proto : Proto} (s : segment.t) (rs : list api.Record_)
    (w : World)
  : list (Z * option error * api.Record_) * segment.t * World :=
  match rs with
  | [] => ([], s, w)
  | r :: rs' =>
      let '(ret, s1, r1, w1) := segment.Append s r w in
      let '(out, s2, w2) := appends s1 rs' w1 in
      ((ret, r1) :: out, s2, w2)
  end.

(** * Concrete inputs *)

Definition ex_config : Config := mkConfig (mkSegmentConfig 1024 120).

(** An empty directory on a device with room for 100000 bytes a file. *)
Definition ex_world : World := mkWorld ∅ 100000.

(** The same directory on a device that has room for 100 bytes. *)
Definition small_world : World := mkWorld ∅ 100.

Definition ex_store_file : os.File := os.mkFile "d/16.store" false.
Definition ex_index_file : os.File := os.mkFile "d/16.index" false.

(** The segment that [newSegment "d" 16] builds in an empty directory,
    and the directory after it. *)
Definition ex_segment : segment.t :=
  segment.mk (store.mk ex_store_file bufio.NewWriter 0)
             (index.mk ex_index_file [] 0 120) 16 16 ex_config.

Definition opened (w : World) : World :=
  set_file "d/16.index" [] (set_file "d/16.store" [] w).

Definition ex_record1 : api.Record_ := api.mkRecord [x68; x69] 0.
Definition ex_record2 : api.Record_ := api.mkRecord [x21] 0.

(** A record of 5000 bytes: more than the writer buffers. *)
Definition big_record : api.Record_ := api.mkRecord (repeat x00 5000) 0.

(** A segment whose index has no room for an entry. *)
Definition full_segment : segment.t :=
  segment.mk (store.mk ex_store_file bufio.NewWriter 0)
             (index.mk ex_index_file [] 0 0) 16 16
             (mkConfig (mkSegmentConfig 1024 0)).

(** The offset that a call returned. *)
Definition ret_offset (x : Z * option error * api.Record_) : Z := fst (fst x).
Definition ret_error (x : Z * option error * api.Record_) : option error :=
  snd (fst x).
Definition ret_record (x : Z * option error * api.Record_) : api.Record_ :=
  snd x.

(** The segment of base offset 0 that [newSegment "d" 0] builds in an
    empty directory, and the directory after it. *)
Definition zero_segment : segment.t :=
  segment.mk (store.mk (os.mkFile "d/0.store" false) bufio.NewWriter 0)
             (index.mk (os.mkFile "d/0.index" false) [] 0 120) 0 0 ex_config.

Definition opened0 (w : World) : World :=
  set_file "d/0.index" [] (set_file "d/0.store" [] w).

(** * The segment's files and its invariant *)

Definition store_name (dir : string) (B : Z) : string :=
  path_Join dir (Sprintf_d_s B ".store").
Definition index_name (dir : string) (B : Z) : string :=
  path_Join dir (Sprintf_d_s B ".index").

(** Entry [i] carries the relative offset [i], cut to 32 bits, and a
    position of 64 bits. *)
Definition entries_ok (es : list (Z * Z)) : Prop :=
  forall (i : nat) (e : Z * Z), es !! i = Some e ->
    fst e = wrap32 (Z.of_nat i) /\ uint64 (snd e).

(** The index file of the segment, as an earlier run of the segment left
    it: absent, or the [K] entries of that run, [K] within the range of
    the 32-bit offset field. *)
Definition disk_ok (dir : string) (B : Z) (w : World) (K : nat) : Prop :=
  match files w !! index_name dir B with
  | None => K = 0%nat
  | Some d =>
      exists es, d = index.encode es /\ entries_ok es
        /\ length es = K /\ Z.of_nat K <= two32
  end.

(** The capacity that [newIndex] gives the index. *)
Definition index_cap (c : Config) : Z :=
  let j := MaxIndexBytes (Segment c) in
  if nearestMultiple_guard j then nearestMultiple_then j index.entWidth
  else nearestMultiple_else j index.entWidth.

Definition seg_inv (dir : string) (B : Z) (c : Config) (s : segment.t)
  : Prop :=
  segment.baseOffset s = B /\ segment.config s = c
  /\ os.Name (store.File (segment.store s)) = store_name dir B
  /\ index.Name (segment.index s) = index_name dir B
  /\ os.closed (index.file (segment.index s)) = false
  /\ entries_ok (index.entries (segment.index s))
  /\ index.size (segment.index s)
     = index.entWidth * len (index.entries (segment.index s))
  /\ index.size (segment.index s) < two64
  /\ index.cap (segment.index s) = index_cap c
  /\ uint64 (store.size (segment.store s))
  /\ segment.nextOffset s
     = wrap64 (B + len (index.entries (segment.index s))).

(** The states of a segment of base offset [B] that was opened on its
    own files: opened by [newSegment] in a directory whose index file is
    absent or holds the [K] entries of an earlier run, at most [2^32]
    (see [disk_ok]), then used by calls of [Append] and [Read] that
    succeed or fail; [K] counts the records, those of the earlier run
    and those appended since.  A segment opened on an index file of
    more entries, or of other entries, is not among these states: [run]
    below has them all. *)
Inductive reach {proto : Proto} (dir : string) (B : Z) (c : Config)
  : nat -> segment.t -> World -> Prop :=
| reach_new w0 K s w :
    disk_ok dir B w0 K ->
    newSegment dir B c w0 = (Ok s, w) ->
    reach dir B c K s w
| reach_Append_ok K s w r off s' r' w' :
    reach dir B c K s w ->
    segment.Append s r w = ((off, None), s', r', w') ->
    reach dir B c (S K) s' w'
| reach_Append_err K s w r off e s' r' w' :
    reach dir B c K s w ->
    segment.Append s r w = ((off, Some e), s', r', w') ->
    reach dir B c K s' w'
| reach_Read K s w off ret s' w' :
    reach dir B c K s w ->
    segment.Read s off w = (ret, s', w') ->
    reach dir B c K s' w'.

(** The relative offsets that [newSegment] finds taken in an index: none
    in an empty index, those up to the relative offset of the last entry
    otherwise. *)
Definition taken (es : list (Z * Z)) : Z :=
  match last es with
  | Some (off, _) => off + 1
  | None => 0
  end.

(** Every state of a segment of base offset [B]: opened by [newSegment]
    on whatever the directory holds, then used by calls of [Append] and
    [Read] that succeed or fail.  [R] counts the relative offsets given
    out: those that [newSegment] found taken, and one for each
    successful [Append] since. *)
Inductive run {proto : Proto} (dir : string) (B : Z) (c : Config)
  : Z -> segment.t -> World -> Prop :=
| run_new w0 s w :
    newSegment dir B c w0 = (Ok s, w) ->
    run dir B c (taken (index.entries (segment.index s))) s w
| run_Append_ok R s w r off s' r' w' :
    run dir B c R s w ->
    segment.Append s r w = ((off, None), s', r', w') ->
    run dir B c (R + 1) s' w'
| run_Append_err R s w r off e s' r' w' :
    run dir B c R s w ->
    segment.Append s r w = ((off, Some e), s', r', w') ->
    run dir B c R s' w'
| run_Read R s w off ret s' w' :
    run dir B c R s w ->
    segment.Read s off w = (ret, s', w') ->
    run dir B c R s' w'.

(** What [run] keeps: [nextOffset] is [R] after the base, [R] is 0 for
    the empty index only, and beyond the [2^32] offsets that the last
    entry of an index can stand for, each offset given out has its 12
    bytes within the capacity of the index. *)
Definition run_inv (B : Z) (c : Config) (R : Z) (s : segment.t) : Prop :=
  segment.baseOffset s = B
  /\ segment.nextOffset s = wrap64 (B + R)
  /\ 0 <= R
  /\ (R = 0 <-> index.entries (segment.index s) = [])
  /\ index.cap (segment.index s) = index_cap c
  /\ 0 <= index.size (segment.index s)
  /\ (R <= two32
      \/ (index.entWidth * (R - two32) <= index.size (segment.index s)
          /\ index.size (segment.index s) <= index.cap (segment.index s))).

(** A directory whose index file was not written by the segment: one
    entry, of relative offset 5. *)
Definition foreign_world : World :=
  mkWorld {[ "d/16.index" := index.encode [(5, 0)] ]} 100000.

(** The segment that [newSegment "d" 16] builds on it. *)
Definition foreign_segment : segment.t :=
  segment.mk (store.mk ex_store_file bufio.NewWriter 0)
             (index.mk ex_index_file [(5, 0)] 12 120) 16 22 ex_config.

(** One call of [segment.Read] after the other. *)
Fixpoint reads {proto : Proto} (s : segment.t) (offs : list Z) (w : World)
  : list (option api.Record_ * option error) * segment.t * World :=
  match offs with
  | [] => ([], s, w)
  | off :: offs' =>
      let '(ret, s1, w1) := segment.Read s off w in
      let '(out, s2, w2) := reads s1 offs' w1 in
      (ret :: out, s2, w2)
  end.

(** The serialization gives back what it was given. *)
Definition proto_lawful (proto : Proto) : Prop :=
  forall r p, uint64 (api.Offset r) -> Marshal r = Ok p ->
    Unmarshal p = (r, None).

(** The entries that the index file of the segment holds. *)
Definition disk_entries (dir : string) (B : Z) (w : World) : list (Z * Z) :=
  match files w !! index_name dir B with
  | Some d => index.decode d
  | None => []
  end.

(** The offset that [newSegment] recovers from the entries. *)
Definition recovered (B : Z) (es : list (Z * Z)) : Z :=
  match last es with
  | Some (off, _) => wrap64 (wrap64 (B + off) + 1)
  | None => B
  end.

(** Two records appended to the fresh segment of base offset 16. *)
Definition ex_run : list (Z * option error * api.Record_) * segment.t * World :=
  @appends fixed_proto ex_segment [ex_record1; ex_record2] (opened ex_world).
Definition ex_segment2 : segment.t := snd (fst ex_run).
Definition ex_world2 : World := snd ex_run.

(** The records appended so far, as the segment holds them: entry [i]
    of the index points at the stored bytes of record [i]. *)
Definition log_inv {proto : Proto} (w : World) (s : segment.t)
    (log : list api.Record_) : Prop :=
  store_live w (segment.store s) /\
  exists c, stored w (segment.store s) = Some c
    /\ length (index.entries (segment.index s)) = length log
    /\ forall (i : nat) r, log !! i = Some r ->
         uint64 (api.Offset r) /\
         exists off pos p,
           index.entries (segment.index s) !! i = Some (off, pos)
           /\ Marshal r = Ok p /\ frame_at c pos p.


(** A configuration whose index has room for [2^32 + 1] entries. *)
Definition big_config : Config :=
  mkConfig (mkSegmentConfig 1024 (12 * (two32 + 1))).

(** An empty directory on a device as large as the kernel allows. *)
Definition roomy_world : World := mkWorld ∅ (two63 - 1).

(** * More of the store *)

(** The store that [newStore] builds on the empty file of the example,
    and the payloads of the examples. *)
Definition ex_store : store.t := store.mk ex_store_file bufio.NewWriter 0.
Definition ex_payload1 : list byte := [x01; x02; x03].
Definition ex_payload2 : list byte := [x0a; x0b].

(** The calls that a user of the store can make. *)
Inductive store_op : Type :=
| OpAppend (p : list byte)
| OpRead (pos : Z)
| OpReadAt (n off : Z)
| OpClose.

Definition store_do (o : store_op) (s : store.t) (w : World)
  : store.t * World :=
  match o with
  | OpAppend p => let '(_, s', w') := store.Append s p w in (s', w')
  | OpRead pos => let '(_, s', w') := store.Read s pos w in (s', w')
  | OpReadAt n off => let '(_, s', w') := store.ReadAt s n off w in (s', w')
  | OpClose => let '(_, s', w') := store.Close s w in (s', w')
  end.

Fixpoint store_run (ops : list store_op) (s : store.t) (w : World)
  : store.t * World :=
  match ops with
  | [] => (s, w)
  | o :: ops' => let '(s1, w1) := store_do o s w in store_run ops' s1 w1
  end.

(** The file [name] only grows, by bytes added at its end, and nothing
    else of the world changes. *)
Definition grows (name : string) (w w' : World) : Prop :=
  frame name w w' /\
  match files w !! name with
  | Some d => exists x, files w' !! name = Some (d ++ x)
  | None => files w' !! name = None
  end.

(** The store of the example after one [Append]. *)
Definition ex_store1 : store.t :=
  snd (fst (store.Append ex_store ex_payload1 (opened ex_world))).
Definition ex_world1 : World :=
  snd (store.Append ex_store ex_payload1 (opened ex_world)).

(** The store of the example after [Append] and [Close]. *)
Definition closed_store : store.t :=
  store.mk (os.mkFile "d/16.store" true) (bufio.mkWriter None []) 11.
(** * Facts about the machine integers *)

Lemma wrap64_range z : uint64 (wrap64 z).
Proof. unfold uint64, wrap64, two64. apply Z.mod_pos_bound. lia. Qed.

Lemma wrap32_range z : uint32 (wrap32 z).
Proof. unfold uint32, wrap32, two32. apply Z.mod_pos_bound. lia. Qed.

Lemma wrap64_small z : uint64 z -> wrap64 z = z.
Proof. unfold uint64, wrap64. intros H. apply Z.mod_small. exact H. Qed.

Lemma wrap32_small z : uint32 z -> wrap32 z = z.
Proof. unfold uint32, wrap32. intros H. apply Z.mod_small. exact H. Qed.

Lemma to_int64_small z : 0 <= z < two63 -> to_int64 z = z.
Proof.
  intros H. unfold to_int64. rewrite wrap64_small.
  - destruct (Z.ltb_spec z two63); lia.
  - unfold uint64, two64, two63 in *. lia.
Qed.

(** * The rounding helper *)

Example nearestMultiple_1024 : nearestMultiple 1024 12 = Some 1020.
Proof. reflexivity. Qed.

Example nearestMultiple_zero_divisor : nearestMultiple 7 0 = None.
Proof. reflexivity. Qed.

Lemma nearestMultiple_floor j k :
  uint64 j -> 0 < k -> 0 <= (j / k) * k <= j.
Proof.
  intros [Hj _] Hk. split.
  - apply Z.mul_nonneg_nonneg; [apply Z.div_pos|]; lia.
  - rewrite Z.mul_comm. apply Z.mul_div_le. exact Hk.
Qed.

(** C9: for uint64 operands with [k > 0] the helper returns
    [(j / k) * k], which is a multiple of [k], is at most [j], and is
    the largest such multiple; the guard [j >= 0] is true for every
    uint64, so the second branch is never taken. *)
Theorem nearestMultiple_spec (j k : Z) :
  uint64 j -> uint64 k -> 0 < k ->
  nearestMultiple j k = Some ((j / k) * k)
  /\ (k | (j / k) * k)
  /\ (j / k) * k <= j
  /\ (forall m, (k | m) -> m <= j -> m <= (j / k) * k)
  /\ nearestMultiple_guard j = true.
Proof.
  intros Hj Hk Hpos.
  assert (Hg : nearestMultiple_guard j = true).
  { unfold nearestMultiple_guard. apply Z.leb_le. apply Hj. }
  pose proof (nearestMultiple_floor j k Hj Hpos) as Hfl.
  repeat split.
  - unfold nearestMultiple. rewrite Hg.
    destruct (Z.eqb_spec k 0) as [->|_]; [lia|].
    unfold nearestMultiple_then. rewrite wrap64_small; [reflexivity|].
    unfold uint64 in *. lia.
  - exists (j / k). reflexivity.
  - apply Hfl.
  - intros m [q ->] Hm.
    apply Z.mul_le_mono_nonneg_r; [lia|].
    apply Z.div_le_lower_bound; [exact Hpos|]. lia.
  - exact Hg.
Qed.

Lemma nearestMultiple_spec_witness :
  nearestMultiple 1030 12 = Some ((1030 / 12) * 12)
  /\ (12 | (1030 / 12) * 12)
  /\ (1030 / 12) * 12 <= 1030
  /\ (forall m, (12 | m) -> m <= 1030 -> m <= (1030 / 12) * 12)
  /\ nearestMultiple_guard 1030 = true.
Proof.
  apply (nearestMultiple_spec 1030 12); unfold uint64, two64; lia.
Defined.

(** * Big-endian round trips *)

Import binary.

Example PutUint64_258 :
  PutUint64 258 = [x00; x00; x00; x00; x00; x00; x01; x02].
Proof. reflexivity. Qed.

Example Uint64_258 : Uint64 [x00; x00; x00; x00; x00; x00; x01; x02] = 258.
Proof. reflexivity. Qed.

Lemma Z_of_byte_of_Z v : Z_of_byte (byte_of_Z v) = Z.land v 255.
Proof.
  unfold Z_of_byte, byte_of_Z.
  assert (Hr : 0 <= Z.land v 255 < 256).
  { change 255 with (Z.ones 8). rewrite Z.land_ones by lia.
    apply Z.mod_pos_bound. lia. }
  destruct (Byte.of_N (Z.to_N (Z.land v 255))) as [b|] eqn:E.
  - apply Byte.to_of_N in E. rewrite E. lia.
  - apply Byte.of_N_None_iff in E. lia.
Qed.

Lemma Z_of_byte_range b : 0 <= Z_of_byte b < 256.
Proof.
  unfold Z_of_byte. pose proof (Byte.to_N_bounded b). lia.
Qed.

Lemma length_PutUint64 v : length (PutUint64 v) = 8%nat.
Proof. reflexivity. Qed.

Lemma length_PutUint32 v : length (PutUint32 v) = 4%nat.
Proof. reflexivity. Qed.

(** Bit [n] of the byte taken at shift [k]. *)
Lemma testbit_byte_at v k n :
  0 <= k -> 0 <= n ->
  Z.testbit (Z.shiftl (Z.land (Z.shiftr v k) 255) k) n
  = (k <=? n) && (n <? k + 8) && Z.testbit v n.
Proof.
  intros Hk Hn.
  rewrite Z.shiftl_spec by lia.
  destruct (Z.leb_spec k n) as [Hle|Hlt]; simpl.
  - change 255 with (Z.ones 8). rewrite Z.land_spec, Z.shiftr_spec by lia.
    replace (n - k + k) with n by lia.
    destruct (Z.ltb_spec n (k + 8)) as [H8|H8].
    + rewrite Z.ones_spec_low by lia. rewrite andb_true_r. reflexivity.
    + rewrite Z.ones_spec_high by lia. rewrite andb_false_r. reflexivity.
  - apply Z.testbit_neg_r. lia.
Qed.

Lemma testbit_byte_at0 v n :
  0 <= n -> Z.testbit (Z.land v 255) n = (n <? 8) && Z.testbit v n.
Proof.
  intros Hn. pose proof (testbit_byte_at v 0 n (Z.le_refl 0) Hn) as H.
  rewrite Z.shiftr_0_r, Z.shiftl_0_r in H. rewrite H.
  destruct (Z.leb_spec 0 n); [reflexivity|lia].
Qed.

Lemma testbit_high v w n :
  0 <= v < 2 ^ w -> w <= n -> Z.testbit v n = false.
Proof.
  intros Hv Hn. destruct (Z.eq_dec v 0) as [->|Hz].
  - apply Z.testbit_0_l.
  - apply Z.bits_above_log2; [lia|].
    assert (Z.log2 v < w); [|lia].
    apply Z.log2_lt_pow2; lia.
Qed.

Ltac byte_ranges n :=
  repeat match goal with
  | |- context [Z.leb ?a n] => destruct (Z.leb_spec a n)
  | |- context [Z.ltb n ?a] => destruct (Z.ltb_spec n a)
  end; simpl; try reflexivity; try lia.

Theorem Uint64_PutUint64 v : uint64 v -> Uint64 (PutUint64 v) = v.
Proof.
  intros Hv. unfold Uint64, PutUint64. cbn [nth].
  rewrite !Z_of_byte_of_Z.
  apply Z.bits_inj'. intros n Hn.
  rewrite !Z.lor_spec, !testbit_byte_at, testbit_byte_at0 by lia.
  destruct (Z.ltb_spec n 64) as [H64|H64].
  - destruct (Z.testbit v n); [|rewrite !andb_false_r; reflexivity].
    rewrite !andb_true_r. byte_ranges n.
  - rewrite (testbit_high v 64 n) by (unfold uint64, two64 in Hv; lia).
    rewrite !andb_false_r. reflexivity.
Qed.

Theorem Uint32_PutUint32 v : uint32 v -> Uint32 (PutUint32 v) = v.
Proof.
  intros Hv. unfold Uint32, PutUint32. cbn [nth].
  rewrite !Z_of_byte_of_Z.
  apply Z.bits_inj'. intros n Hn.
  rewrite !Z.lor_spec, !testbit_byte_at, testbit_byte_at0 by lia.
  destruct (Z.ltb_spec n 32) as [H32|H32].
  - destruct (Z.testbit v n); [|rewrite !andb_false_r; reflexivity].
    rewrite !andb_true_r. byte_ranges n.
  - rewrite (testbit_high v 32 n) by (unfold uint32, two32 in Hv; lia).
    rewrite !andb_false_r. reflexivity.
Qed.


(** * Slices *)

Lemma len_app {A} (a b : list A) : len (a ++ b) = len a + len b.
Proof. unfold len. rewrite length_app. lia. Qed.

Lemma len_nonneg {A} (a : list A) : 0 <= len a.
Proof. unfold len. lia. Qed.

Lemma len_nil {A} : len (@nil A) = 0.
Proof. reflexivity. Qed.

Lemma len_zero_nil {A} (l : list A) : len l = 0 -> l = [].
Proof. destruct l; [reflexivity|]. unfold len. simpl. lia. Qed.

Lemma len_upto {A} n (p : list A) : 0 <= n <= len p -> len (upto n p) = n.
Proof. unfold len, upto. intros H. rewrite length_firstn. lia. Qed.

Lemma len_upto_le {A} n (p : list A) : len (upto n p) <= len p.
Proof. unfold len, upto. rewrite length_firstn. lia. Qed.

Lemma len_from {A} n (p : list A) :
  0 <= n <= len p -> len (from n p) = len p - n.
Proof. unfold len, from. intros H. rewrite length_skipn. lia. Qed.

Lemma upto_from {A} n (p : list A) : upto n p ++ from n p = p.
Proof. apply firstn_skipn. Qed.

Lemma upto_all {A} n (p : list A) : len p <= n -> upto n p = p.
Proof. unfold len, upto. intros H. apply firstn_all2. lia. Qed.

Lemma from_all {A} n (p : list A) : len p <= n -> from n p = [].
Proof. unfold len, from. intros H. apply skipn_all2. lia. Qed.

Lemma upto_app {A} (a b : list A) : upto (len a) (a ++ b) = a.
Proof.
  unfold upto, len. rewrite Nat2Z.id.
  rewrite firstn_app, Nat.sub_diag, firstn_all. simpl. apply app_nil_r.
Qed.

Lemma from_app {A} (a b : list A) : from (len a) (a ++ b) = b.
Proof.
  unfold from, len. rewrite Nat2Z.id.
  rewrite skipn_app, Nat.sub_diag, skipn_all. reflexivity.
Qed.

(** * The file system *)

Lemma frame_refl name w : frame name w w.
Proof. split; auto. Qed.

Lemma frame_trans name w1 w2 w3 :
  frame name w1 w2 -> frame name w2 w3 -> frame name w1 w3.
Proof.
  intros [Q1 F1] [Q2 F2]. split; [congruence|].
  intros n Hn. rewrite F2, F1; auto.
Qed.

Lemma frame_set_file name d w : frame name w (set_file name d w).
Proof.
  split; [reflexivity|]. intros n Hn. simpl.
  apply lookup_insert_ne. congruence.
Qed.

Lemma lookup_set_file name d w : files (set_file name d w) !! name = Some d.
Proof. simpl. apply lookup_insert_eq. Qed.

Lemma set_file_set_file name d d' w :
  set_file name d' (set_file name d w) = set_file name d' w.
Proof. unfold set_file. simpl. f_equal. apply insert_insert_eq. Qed.

Lemma no_room_mono f w k k' : no_room f w k -> k <= k' -> no_room f w k'.
Proof.
  intros [H|[H|(d & Hd & Hq)]] Hk; [left|right; left|right; right]; auto.
  exists d. split; [exact Hd|lia].
Qed.

Lemma no_room_set_file f w d d1 k :
  os.closed f = false -> files w !! os.Name f = Some d ->
  no_room f (set_file (os.Name f) d1 w) k ->
  no_room f w (len d1 - len d + k).
Proof.
  intros Hc Hd [H|[H|(d2 & Hd2 & Hq)]].
  - congruence.
  - rewrite lookup_set_file in H. discriminate.
  - rewrite lookup_set_file in Hd2. injection Hd2 as <-.
    right; right. exists d. split; [exact Hd|]. simpl in Hq. lia.
Qed.

Lemma os_Write_inv f p w n e w' :
  os.Write f p w = ((n, e), w') ->
  frame (os.Name f) w w' /\
  match e with
  | None => os.closed f = false /\ n = len p /\
      exists d, files w !! os.Name f = Some d
        /\ w' = set_file (os.Name f) (d ++ p) w
        /\ len d + len p <= quota w
  | Some _ => no_room f w (len p)
  end.
Proof.
  unfold os.Write, no_room. destruct (os.closed f) eqn:Hc.
  { intros [= <- <- <-]. split; [apply frame_refl|auto]. }
  destruct (files w !! os.Name f) as [d|] eqn:Hd.
  2:{ intros [= <- <- <-]. split; [apply frame_refl|auto]. }
  destruct (Z.leb_spec (len p) (quota w - len d)).
  - intros [= <- <- <-]. split; [apply frame_set_file|].
    split; [reflexivity|]. split; [reflexivity|].
    exists d. repeat split; auto. lia.
  - intros [= <- <- <-]. split; [apply frame_set_file|].
    right; right. exists d. split; [reflexivity|lia].
Qed.

(** * The buffered writer *)

Lemma Flush_inv b f w e b' w' :
  bufio.Flush b f w = (e, b', w') ->
  frame (os.Name f) w w' /\
  match e with
  | None =>
      bufio.err b = None /\ b' = bufio.mkWriter None [] /\
      ((bufio.buf b = [] /\ w' = w) \/
       (os.closed f = false /\ exists d, files w !! os.Name f = Some d
          /\ w' = set_file (os.Name f) (d ++ bufio.buf b) w
          /\ len d + len (bufio.buf b) <= quota w))
  | Some e =>
      bufio.err b' = Some e /\
      (bufio.err b <> None \/ no_room f w (len (bufio.buf b)))
  end.
Proof.
  unfold bufio.Flush. destruct b as [be bb]; simpl.
  destruct be as [e0|].
  { intros [= <- <- <-]. split; [apply frame_refl|].
    split; [reflexivity|left; discriminate]. }
  unfold bufio.Buffered; simpl.
  destruct (Z.eqb_spec (len bb) 0) as [Hz|Hnz].
  { intros [= <- <- <-]. split; [apply frame_refl|].
    apply len_zero_nil in Hz. subst bb. auto. }
  destruct (os.Write f bb w) as [[n e1] w1] eqn:HW.
  apply os_Write_inv in HW. destruct HW as [Hfr HW].
  destruct e1 as [e1|]; simpl.
  - rewrite andb_false_r. intros [= <- <- <-].
    split; [exact Hfr|]. split; [reflexivity|right; exact HW].
  - destruct HW as (Hc & -> & d & Hd & -> & Hq).
    rewrite Z.ltb_irrefl. simpl. intros [= <- <- <-].
    split; [exact Hfr|]. split; [reflexivity|]. split; [reflexivity|].
    right. split; [exact Hc|]. exists d. auto.
Qed.

Lemma carried_step f w b p d d1 b1 p1 w' b' p' :
  os.closed f = false ->
  files w !! os.Name f = Some d ->
  d1 ++ bufio.buf b1 ++ p1 = d ++ bufio.buf b ++ p ->
  len d1 <= quota w ->
  carried f (set_file (os.Name f) d1 w) b1 p1 w' b' p' ->
  carried f w b p w' b' p'.
Proof.
  intros Hc Hd Heq Hq [[-> Hb]|(_ & d2 & d' & Hd2 & -> & Heq' & Hq')]; right;
    (split; [exact Hc|]); exists d.
  - exists d1. repeat split; auto. rewrite Hb. exact Heq.
  - rewrite lookup_set_file in Hd2. injection Hd2 as <-.
    exists d'. rewrite set_file_set_file. repeat split; auto. congruence.
Qed.

(** The loop of [Write], by induction on the fuel: where it stops the
    loop condition is false; without error the bytes are carried over
    and counted; an error comes from the writer's past or from the
    device. *)
Lemma Write_loop_inv f fuel : forall b p nn w b' p' nn' w',
  (bufio.err b = None -> len (bufio.buf b) <= bufio.defaultBufSize) ->
  bufio.Write_loop fuel b f p nn w = Some (b', p', nn', w') ->
  frame (os.Name f) w w' /\
  (bufio.Available b' <? len p') && is_nil (bufio.err b') = false /\
  (bufio.err b' = None ->
     bufio.err b = None /\ len (bufio.buf b') <= bufio.defaultBufSize /\
     nn' + len p' = nn + len p /\ carried f w b p w' b' p') /\
  (bufio.err b' <> None ->
     bufio.err b <> None \/ no_room f w (len (bufio.buf b) + len p)).
Proof.
  assert (Hstop : forall b p nn w b' p' nn' w',
    (bufio.Available b <? len p) && is_nil (bufio.err b) = false ->
    Some (b, p, nn, w) = Some (b', p', nn', w') ->
    frame (os.Name f) w w' /\
    (bufio.Available b' <? len p') && is_nil (bufio.err b') = false /\
    (bufio.err b' = None ->
       bufio.err b = None /\ len (bufio.buf b') <= bufio.defaultBufSize /\
       nn' + len p' = nn + len p /\ carried f w b p w' b' p') /\
    (bufio.err b' <> None ->
       bufio.err b <> None \/ no_room f w (len (bufio.buf b) + len p))).
  { intros b p nn w b' p' nn' w' Hcond [= <- <- <- <-].
    split; [apply frame_refl|]. split; [exact Hcond|]. split.
    - intros He. split; [exact He|]. split.
      + rewrite He in Hcond. rewrite andb_true_r in Hcond.
        apply Z.ltb_ge in Hcond. unfold bufio.Available in Hcond.
        pose proof (len_nonneg p). lia.
      + split; [reflexivity|]. left. auto.
    - intros He. left. exact He. }
  induction fuel as [|fuel IH]; intros b p nn w b' p' nn' w' Hb; simpl.
  - destruct ((bufio.Available b <? len p) && is_nil (bufio.err b)) eqn:Hcond;
      [discriminate|]. apply Hstop. exact Hcond.
  - destruct ((bufio.Available b <? len p) && is_nil (bufio.err b)) eqn:Hcond;
      [|apply Hstop; exact Hcond].
    apply andb_true_iff in Hcond. destruct Hcond as [Hav Hnil].
    apply Z.ltb_lt in Hav. unfold bufio.Available in Hav.
    assert (Heb : bufio.err b = None)
      by (destruct (bufio.err b); [discriminate|reflexivity]).
    specialize (Hb Heb). pose proof (len_nonneg (bufio.buf b)) as Hb0.
    unfold bufio.Buffered.
    destruct (Z.eqb_spec (len (bufio.buf b)) 0) as [Hz|Hnz].
    + destruct (os.Write f p w) as [[n e] w1] eqn:HW.
      apply os_Write_inv in HW. destruct HW as [Hfr HW].
      intros Hloop. apply IH in Hloop; [|simpl; intros _; exact Hb].
      destruct Hloop as (Hfr' & Hexit & Hok & Hko).
      split; [eapply frame_trans; eauto|]. split; [exact Hexit|]. split.
      * intros He'. specialize (Hok He'). simpl in Hok.
        destruct Hok as (-> & Hlen & Hnn & Hcar).
        destruct HW as (Hc & -> & d & Hd & -> & Hq).
        rewrite from_all in Hnn, Hcar by lia.
        split; [exact Heb|]. split; [exact Hlen|].
        split; [rewrite len_nil in Hnn; lia|].
        apply (carried_step f w b p d (d ++ p)
                 (bufio.mkWriter None (bufio.buf b)) []); auto.
        -- simpl. apply len_zero_nil in Hz. rewrite Hz.
           rewrite app_nil_r. reflexivity.
        -- rewrite len_app. lia.
      * intros He'. right. destruct e as [e|].
        -- eapply no_room_mono; [exact HW|lia].
        -- destruct HW as (Hc & -> & d & Hd & -> & Hq).
           destruct (Hko He') as [Hk|Hk]; [simpl in Hk; congruence|].
           apply (no_room_set_file f w d) in Hk; auto.
           eapply no_room_mono; [exact Hk|].
           simpl. rewrite from_all by lia. rewrite len_app, len_nil. lia.
    + set (n := Z.min (bufio.defaultBufSize - len (bufio.buf b)) (len p)).
      unfold bufio.Available. fold n.
      assert (Hn : n = bufio.defaultBufSize - len (bufio.buf b))
        by (unfold n; lia).
      assert (Hlu : len (upto n p) = n) by (apply len_upto; lia).
      assert (Hlf : len (from n p) = len p - n) by (apply len_from; lia).
      destruct (bufio.Flush
                  (bufio.mkWriter (bufio.err b) (bufio.buf b ++ upto n p)) f w)
        as [[e1 b2] w1] eqn:HF.
      apply Flush_inv in HF. destruct HF as [Hfr HF]. simpl in HF.
      intros Hloop. apply IH in Hloop.
      2:{ intros He2. destruct e1 as [e1|]; [destruct HF; congruence|].
          destruct HF as (_ & -> & _). simpl.
          unfold bufio.defaultBufSize, len. simpl. lia. }
      destruct Hloop as (Hfr' & Hexit & Hok & Hko).
      split; [eapply frame_trans; eauto|]. split; [exact Hexit|]. split.
      * intros He'. specialize (Hok He').
        destruct Hok as (He2 & Hlen & Hnn & Hcar).
        destruct e1 as [e1|]; [destruct HF; congruence|].
        destruct HF as (_ & -> & HF). simpl in *.
        split; [exact Heb|]. split; [exact Hlen|]. split; [lia|].
        destruct HF as [[Hnil' ->]|(Hc & d & Hd & -> & Hq)].
        -- apply app_eq_nil in Hnil'. destruct Hnil' as [Hbn _].
           rewrite Hbn in Hnz. rewrite len_nil in Hnz. lia.
        -- apply (carried_step f w b p d (d ++ bufio.buf b ++ upto n p)
                    (bufio.mkWriter None []) (from n p)); auto.
           ++ simpl. rewrite <- !app_assoc. rewrite upto_from. reflexivity.
           ++ rewrite len_app. lia.
      * intros He'. right. destruct e1 as [e1|].
        -- destruct HF as [_ [HF|HF]]; [congruence|].
           eapply no_room_mono; [exact HF|]. rewrite len_app. lia.
        -- destruct HF as (_ & -> & HF).
           destruct (Hko He') as [Hk|Hk]; [simpl in Hk; congruence|].
           destruct HF as [[Hnil' ->]|(Hc & d & Hd & -> & Hq)].
           ++ apply app_eq_nil in Hnil'. destruct Hnil' as [Hbn _].
              rewrite Hbn in Hnz. rewrite len_nil in Hnz. lia.
           ++ apply (no_room_set_file f w d) in Hk; auto.
              eapply no_room_mono; [exact Hk|].
              simpl. rewrite !len_app, len_nil. lia.
Qed.

(** Two turns of the loop are enough, whatever the writer, the bytes
    and the world. *)
Lemma Write_loop_total f b p nn w :
  bufio.Write_loop bufio.Write_fuel b f p nn w <> None.
Proof.
  unfold bufio.Write_fuel.
  assert (Hdirect : forall b p nn w,
    bufio.Buffered b = 0 -> bufio.Write_loop 1 b f p nn w <> None).
  { clear. intros b p nn w Hz. simpl.
    destruct ((bufio.Available b <? len p) && is_nil (bufio.err b));
      [|discriminate].
    rewrite Hz. simpl.
    destruct (os.Write f p w) as [[n e] w1] eqn:HW.
    apply os_Write_inv in HW. destruct HW as [_ HW].
    destruct e as [e|]; simpl.
    - rewrite andb_false_r. discriminate.
    - destruct HW as (_ & -> & _). rewrite from_all by lia.
      unfold bufio.Available, bufio.Buffered in *. simpl. rewrite Hz.
      simpl. discriminate. }
  cbn [bufio.Write_loop].
  destruct ((bufio.Available b <? len p) && is_nil (bufio.err b)) eqn:Hcond;
    [|discriminate].
  destruct (Z.eqb_spec (bufio.Buffered b) 0) as [Hz|Hnz].
  - destruct (os.Write f p w) as [[n e] w1] eqn:HW.
    apply Hdirect. exact Hz.
  - destruct (bufio.Flush _ f w) as [[e1 b2] w1] eqn:HF.
    apply Flush_inv in HF. destruct HF as [_ HF].
    destruct e1 as [e1|].
    + simpl. destruct HF as [-> _]. rewrite andb_false_r. discriminate.
    + destruct HF as (_ & -> & _). apply Hdirect. reflexivity.
Qed.

Lemma Write_inv b f p w nn e b' w' :
  (bufio.err b = None -> len (bufio.buf b) <= bufio.defaultBufSize) ->
  bufio.Write b f p w = ((nn, e), b', w') ->
  frame (os.Name f) w w' /\
  match e with
  | None =>
      nn = len p /\ bufio.err b = None /\ bufio.err b' = None /\
      len (bufio.buf b') <= bufio.defaultBufSize /\
      carried f w b p w' b' []
  | Some e =>
      bufio.err b' = Some e /\
      (bufio.err b <> None \/ no_room f w (len (bufio.buf b) + len p))
  end.
Proof.
  intros Hb. unfold bufio.Write.
  destruct (bufio.Write_loop bufio.Write_fuel b f p 0 w)
    as [[[[b1 p1] nn1] w1]|] eqn:HL.
  2:{ exfalso. eapply Write_loop_total. exact HL. }
  apply Write_loop_inv in HL; [|exact Hb].
  destruct HL as (Hfr & Hexit & Hok & Hko).
  destruct (bufio.err b1) as [e1|] eqn:He1.
  - intros [= <- <- <- <-]. split; [exact Hfr|]. split; [exact He1|].
    apply Hko. discriminate.
  - intros [= <- <- <- <-]. split; [exact Hfr|].
    destruct (Hok eq_refl) as (Heb & Hlen & Hnn & Hcar).
    simpl in Hexit. rewrite andb_true_r in Hexit. apply Z.ltb_ge in Hexit.
    pose proof (len_nonneg p1) as Hp1.
    replace (Z.min (bufio.Available b1) (len p1)) with (len p1) by lia.
    rewrite upto_all by lia. simpl.
    split; [lia|]. split; [exact Heb|]. split; [reflexivity|].
    unfold bufio.Available in Hexit. split; [rewrite len_app; lia|].
    destruct Hcar as [[-> Hc]|(Hc & d & d' & Hd & -> & Heq & Hq)].
    + left. split; [reflexivity|]. simpl. rewrite app_nil_r. exact Hc.
    + right. split; [exact Hc|]. exists d, d'. repeat split; auto.
      simpl. rewrite app_nil_r. exact Heq.
Qed.

(** * The store *)

Lemma carried_stored f w b p w' b' :
  carried f w b p w' b' [] ->
  forall d, files w !! os.Name f = Some d ->
  exists d', files w' !! os.Name f = Some d'
    /\ d' ++ bufio.buf b' = d ++ bufio.buf b ++ p
    /\ (len d <= quota w -> len d' <= quota w).
Proof.
  intros [[-> Hb]|(_ & d0 & d' & Hd0 & -> & Heq & Hq)] d Hd.
  - exists d. rewrite app_nil_r in Hb. rewrite Hb. auto.
  - rewrite Hd in Hd0. injection Hd0 as <-.
    exists d'. rewrite lookup_set_file. rewrite app_nil_r in Heq. auto.
Qed.

Lemma carried_no_room f w b p w' b' k :
  carried f w b p w' b' [] ->
  no_room f w' (len (bufio.buf b') + k) ->
  no_room f w (len (bufio.buf b) + len p + k).
Proof.
  intros [[-> Hb]|(Hc & d & d' & Hd & -> & Heq & Hq)] Hk.
  - rewrite app_nil_r in Hb. rewrite Hb, len_app in Hk. exact Hk.
  - apply (no_room_set_file f w d) in Hk; auto.
    eapply no_room_mono; [exact Hk|].
    rewrite app_nil_r in Heq. apply (f_equal len) in Heq.
    rewrite !len_app in Heq. lia.
Qed.

Lemma two63_lt_two64 : two63 + bufio.defaultBufSize < two64.
Proof. unfold two63, two64, bufio.defaultBufSize. lia. Qed.

(** Every outcome of [store.Append]. *)
Lemma store_Append_inv s p w n pos e s' w' :
  world_ok w -> store_ok w s ->
  store.Append s p w = ((n, pos, e), s', w') ->
  frame (os.Name (store.File s)) w w' /\
  store.File s' = store.File s /\ store_ok w' s' /\
  match e with
  | None =>
      n = store.lenWidth + len p /\ pos = store.size s /\
      store.size s' = store.size s + store.lenWidth + len p /\
      bufio.err (store.buf s) = None /\ bufio.err (store.buf s') = None /\
      exists c, stored w s = Some c
        /\ stored w' s' = Some (c ++ binary.PutUint64 (len p) ++ p)
        /\ len c = store.size s
  | Some e =>
      n = 0 /\ pos = 0 /\ store.size s' = store.size s /\
      bufio.err (store.buf s') = Some e /\
      (bufio.err (store.buf s) <> None \/
       no_room (store.File s) w
         (len (bufio.buf (store.buf s)) + store.lenWidth + len p))
  end.
Proof.
  intros Hw Hok. unfold store.Append, binary_Write.
  destruct (bufio.Write (store.buf s) (store.File s)
              (binary.PutUint64 (wrap64 (len p))) w)
    as [[[n1 e1] b1] w1] eqn:H1.
  apply Write_inv in H1.
  2:{ intros He. destruct (Hok He) as (d & _ & _ & Hb & _). exact Hb. }
  destruct H1 as [Hfr1 H1].
  assert (Hhdr : len (binary.PutUint64 (wrap64 (len p))) = store.lenWidth)
    by reflexivity.
  pose proof (len_nonneg p) as Hp0.
  destruct e1 as [e1|].
  { intros [= <- <- <- <- <-]. split; [exact Hfr1|]. split; [reflexivity|].
    destruct H1 as [He1 Hcause]. split.
    - intros He. simpl in He. congruence.
    - repeat split; auto. destruct Hcause as [Hc|Hc]; [left; exact Hc|].
      right. eapply no_room_mono; [exact Hc|]. rewrite Hhdr. lia. }
  destruct H1 as (-> & He0 & Heb1 & Hlen1 & Hcar1).
  destruct (bufio.Write b1 (store.File s) p w1) as [[[n2 e2] b2] w2] eqn:H2.
  apply Write_inv in H2; [|intros _; exact Hlen1].
  destruct H2 as [Hfr2 H2].
  assert (Hfr : frame (os.Name (store.File s)) w w2)
    by (eapply frame_trans; eauto).
  destruct e2 as [e2|].
  { intros [= <- <- <- <- <-]. split; [exact Hfr|]. split; [reflexivity|].
    destruct H2 as [He2 Hcause]. split.
    - intros He. simpl in He. congruence.
    - repeat split; auto. destruct Hcause as [Hc|Hc]; [congruence|].
      right. apply (carried_no_room _ _ _ _ _ _ (len p)) in Hcar1; auto. }
  destruct H2 as (-> & _ & Heb2 & Hlen2 & Hcar2).
  destruct (Hok He0) as (d & Hd & Hsz & Hlen0 & Hq).
  destruct (carried_stored _ _ _ _ _ _ Hcar1 d Hd) as (d1 & Hd1 & Heq1 & Hq1).
  destruct (carried_stored _ _ _ _ _ _ Hcar2 d1 Hd1) as (d2 & Hd2 & Heq2 & Hq2).
  destruct Hfr1 as [Hquota1 _]. destruct Hfr as [Hquota Hframe].
  specialize (Hq1 Hq). rewrite <- Hquota1 in Hq1. specialize (Hq2 Hq1).
  assert (Hsum : len d2 + len (bufio.buf b2)
                 = store.size s + store.lenWidth + len p).
  { rewrite app_assoc, Heq1 in Heq2. apply (f_equal len) in Heq2.
    rewrite !len_app, Hhdr in Heq2. lia. }
  pose proof (len_nonneg d2) as Hd20.
  pose proof (len_nonneg d) as Hd0.
  pose proof (len_nonneg (bufio.buf (store.buf s))) as Hb0.
  pose proof (len_nonneg (bufio.buf b2)) as Hb20.
  pose proof two63_lt_two64 as H64.
  unfold world_ok in Hw. unfold store.lenWidth in *.
  assert (Hlp : wrap64 (len p) = len p).
  { apply wrap64_small. unfold uint64. lia. }
  assert (Hwn : wrap64 (len p + 8) = len p + 8).
  { apply wrap64_small. unfold uint64. lia. }
  intros [= <- <- <- <- <-]. rewrite Hwn.
  assert (Hsz' : wrap64 (store.size s + (len p + 8)) = store.size s + 8 + len p).
  { rewrite wrap64_small; [lia|]. unfold uint64. lia. }
  split; [split; assumption|]. split; [reflexivity|]. split.
  { intros _. simpl. exists d2. rewrite Hsz'. repeat split; auto; lia. }
  split; [lia|]. split; [reflexivity|]. split; [exact Hsz'|].
  split; [exact He0|]. split; [exact Heb2|].
  exists (d ++ bufio.buf (store.buf s)). unfold stored. simpl.
  rewrite Hd, Hd2. split; [reflexivity|]. split.
  - f_equal. rewrite Heq2, app_assoc, Heq1, Hlp.
    rewrite <- !app_assoc. reflexivity.
  - rewrite len_app. lia.
Qed.

Lemma Flush_room b f w d :
  bufio.err b = None -> os.closed f = false ->
  files w !! os.Name f = Some d ->
  len d + len (bufio.buf b) <= quota w ->
  exists w', bufio.Flush b f w = (None, bufio.mkWriter None [], w')
    /\ files w' !! os.Name f = Some (d ++ bufio.buf b)
    /\ frame (os.Name f) w w'.
Proof.
  intros He Hc Hd Hq.
  destruct (bufio.Flush b f w) as [[e b'] w'] eqn:HF.
  pose proof (Flush_inv _ _ _ _ _ _ HF) as [Hfr HI].
  destruct e as [e|].
  - exfalso. destruct HI as [_ [HI|[HI|[HI|(d0 & Hd0 & Hq0)]]]]; try congruence.
    rewrite Hd in Hd0. injection Hd0 as <-. lia.
  - destruct HI as (_ & -> & HI). exists w'. split; [reflexivity|].
    split; [|exact Hfr].
    destruct HI as [[-> ->]|(_ & d0 & Hd0 & -> & _)].
    + rewrite app_nil_r. exact Hd.
    + rewrite Hd in Hd0. injection Hd0 as <-. apply lookup_set_file.
Qed.

Lemma Flush_store_ok s w e b' w' :
  store_ok w s ->
  bufio.Flush (store.buf s) (store.File s) w = (e, b', w') ->
  store_ok w' (store.mk (store.File s) b' (store.size s)).
Proof.
  intros Hok HF. apply Flush_inv in HF. destruct HF as [[Hq _] HF].
  intros He. simpl in *. destruct e as [e|]; [destruct HF; congruence|].
  destruct HF as (He0 & -> & HF).
  destruct (Hok He0) as (d & Hd & Hsz & Hlen & Hqd).
  destruct HF as [[Hnil ->]|(_ & d0 & Hd0 & -> & Hq0)].
  - exists d. rewrite Hnil in Hsz. simpl. repeat split; auto.
    unfold bufio.defaultBufSize. rewrite len_nil. lia.
  - rewrite Hd in Hd0. injection Hd0 as <-.
    exists (d ++ bufio.buf (store.buf s)). rewrite lookup_set_file.
    simpl. rewrite len_app, len_nil. repeat split; auto; try lia.
    unfold bufio.defaultBufSize. lia.
Qed.

Lemma store_Read_ok s pos w r s' w' :
  store_ok w s -> store.Read s pos w = (r, s', w') ->
  store_ok w' s' /\ store.File s' = store.File s
  /\ store.size s' = store.size s
  /\ frame (os.Name (store.File s)) w w'.
Proof.
  intros Hok. unfold store.Read.
  destruct (bufio.Flush (store.buf s) (store.File s) w) as [[e b1] w1] eqn:HF.
  pose proof (Flush_store_ok _ _ _ _ _ Hok HF) as Hok1.
  apply Flush_inv in HF. destruct HF as [Hfr _].
  destruct e as [e|]; [intros [= <- <- <-]; auto|].
  destruct (os.ReadAt (store.File s) store.lenWidth (to_int64 pos) w1)
    as [sz e1].
  destruct e1 as [e1|]; [intros [= <- <- <-]; auto|].
  destruct (two63 <=? binary.Uint64 sz); [intros [= <- <- <-]; auto|].
  destruct (os.ReadAt (store.File s) (binary.Uint64 sz)
              (to_int64 (wrap64 (pos + store.lenWidth))) w1) as [b e2].
  destruct e2 as [e2|]; intros [= <- <- <-]; auto.
Qed.

Lemma store_ReadAt_ok s n off w r s' w' :
  store_ok w s -> store.ReadAt s n off w = (r, s', w') ->
  store_ok w' s' /\ store.File s' = store.File s
  /\ store.size s' = store.size s
  /\ frame (os.Name (store.File s)) w w'.
Proof.
  intros Hok. unfold store.ReadAt.
  destruct (bufio.Flush (store.buf s) (store.File s) w) as [[e b1] w1] eqn:HF.
  pose proof (Flush_store_ok _ _ _ _ _ Hok HF) as Hok1.
  apply Flush_inv in HF. destruct HF as [Hfr _].
  destruct e as [e|]; intros [= <- <- <-]; auto.
Qed.

Lemma store_Close_ok s w e s' w' :
  store_ok w s -> store.Close s w = (e, s', w') ->
  store_ok w' s' /\ os.Name (store.File s') = os.Name (store.File s)
  /\ store.size s' = store.size s
  /\ frame (os.Name (store.File s)) w w'.
Proof.
  intros Hok. unfold store.Close.
  destruct (bufio.Flush (store.buf s) (store.File s) w) as [[e0 b1] w1] eqn:HF.
  pose proof (Flush_store_ok _ _ _ _ _ Hok HF) as Hok1.
  apply Flush_inv in HF. destruct HF as [Hfr _].
  destruct e0 as [e0|]; [intros [= <- <- <-]; auto|].
  unfold os.Close. destruct (os.closed (store.File s));
    intros [= <- <- <-]; auto.
Qed.

Lemma newStore_ok f w s d :
  world_ok w -> files w !! os.Name f = Some d -> len d <= quota w ->
  newStore f w = Ok s ->
  s = store.mk f bufio.NewWriter (len d) /\ store_ok w s.
Proof.
  intros Hw Hd Hq. unfold newStore, os.Stat. rewrite Hd.
  intros [= <-]. unfold world_ok in Hw.
  assert (Hsz : wrap64 (len d) = len d).
  { apply wrap64_small. pose proof (len_nonneg d).
    unfold uint64, two64, two63 in *. lia. }
  rewrite Hsz. split; [reflexivity|].
  intros _. exists d. simpl. rewrite len_nil.
  unfold bufio.defaultBufSize. repeat split; auto; lia.
Qed.



(** * The segment *)

Example newSegment_fresh :
  newSegment "d" 16 ex_config ex_world = (Ok ex_segment, opened ex_world).
Proof. reflexivity. Qed.

(** C8: [IsMaxed] is true exactly when the store's size has reached
    [MaxStoreBytes] or the index's size has reached [MaxIndexBytes]. *)
Theorem IsMaxed_iff (s : segment.t) :
  segment.IsMaxed s = true <->
  (store.size (segment.store s) >= MaxStoreBytes (Segment (segment.config s))
   \/ index.size (segment.index s)
      >= MaxIndexBytes (Segment (segment.config s))).
Proof.
  unfold segment.IsMaxed. rewrite orb_true_iff, !Z.leb_le. lia.
Qed.

(** C10: a call of [segment.Append] that returns an error leaves
    [nextOffset] as it was, although the caller's record carries the
    offset that was attempted. *)
Theorem Append_error_keeps_nextOffset {proto : Proto}
    (s : segment.t) (r : api.Record_) (w : World)
    (n : Z) (e : error) (s' : segment.t) (r' : api.Record_) (w' : World) :
  segment.Append s r w = ((n, Some e), s', r', w') ->
  segment.nextOffset s' = segment.nextOffset s
  /\ segment.baseOffset s' = segment.baseOffset s
  /\ api.Offset r' = segment.nextOffset s
  /\ api.Value r' = api.Value r.
Proof.
  unfold segment.Append.
  destruct (Marshal _) as [p|e0].
  - destruct (store.Append (segment.store s) p w) as [[[[n0 pos] e1] st] w1].
    destruct (index.Write _ _ pos) as [[e2|] ix]; intros H; inversion H;
      subst; simpl; auto.
  - intros H; inversion H; subst; simpl; auto.
Qed.

Lemma Append_error_keeps_nextOffset_witness :
  exists n e s' r' w',
    @segment.Append fixed_proto full_segment ex_record1 (opened ex_world)
      = ((n, Some e), s', r', w')
    /\ (segment.nextOffset s' = segment.nextOffset full_segment
        /\ segment.baseOffset s' = segment.baseOffset full_segment
        /\ api.Offset r' = segment.nextOffset full_segment
        /\ api.Value r' = api.Value ex_record1)
    /\ e = ErrCapacity
    /\ store.size (segment.store s') = 18.
Proof.
  do 5 eexists. split; [reflexivity|]. split.
  - eapply (@Append_error_keeps_nextOffset fixed_proto full_segment ex_record1
              (opened ex_world) 0 ErrCapacity). reflexivity.
  - split; reflexivity.
Defined.

(** The other failing path: the serialization rejects the record. *)
Example Append_marshal_error :
  @segment.Append failing_proto ex_segment ex_record1 (opened ex_world)
  = ((0, Some ErrProto), ex_segment, api.mkRecord [x68; x69] 16,
     opened ex_world).
Proof. reflexivity. Qed.

Lemma Append_ok_inv {proto : Proto} s r w off s' r' w' :
  segment.Append s r w = ((off, None), s', r', w') ->
  off = segment.nextOffset s
  /\ r' = api.mkRecord (api.Value r) off
  /\ segment.nextOffset s' = wrap64 (segment.nextOffset s + 1)
  /\ segment.baseOffset s' = segment.baseOffset s
  /\ segment.config s' = segment.config s.
Proof.
  unfold segment.Append.
  destruct (Marshal _) as [p|e0]; [|discriminate].
  destruct (store.Append (segment.store s) p w) as [[[[n0 pos] e1] st] w1].
  destruct (index.Write _ _ pos) as [[e2|] ix]; intros H; inversion H;
    subst; simpl; auto.
Qed.

Lemma wrap64_add_l a b : wrap64 (wrap64 a + b) = wrap64 (a + b).
Proof. unfold wrap64. apply Z.add_mod_idemp_l. unfold two64. lia. Qed.

Lemma wrap64_add_r a b : wrap64 (a + wrap64 b) = wrap64 (a + b).
Proof. unfold wrap64. apply Z.add_mod_idemp_r. unfold two64. lia. Qed.

(** The offsets of a run of successful calls, from any segment. *)
Lemma appends_offsets {proto : Proto} rs : forall s w out s' w',
  uint64 (segment.nextOffset s) ->
  appends s rs w = (out, s', w') ->
  Forall (fun x => ret_error x = None) out ->
  map ret_offset out
  = map (fun i => wrap64 (segment.nextOffset s + Z.of_nat i))
        (seq 0 (length rs))
  /\ Forall (fun x => api.Offset (ret_record x) = ret_offset x) out
  /\ segment.nextOffset s' = wrap64 (segment.nextOffset s + len rs)
  /\ segment.baseOffset s' = segment.baseOffset s.
Proof.
  induction rs as [|r rs IH]; intros s w out s' w' Hu; simpl.
  - intros [= <- <- <-] _. simpl. rewrite Z.add_0_r, wrap64_small by exact Hu.
    auto.
  - destruct (segment.Append s r w) as [[[[off e] s1] r1] w1] eqn:HA.
    destruct (appends s1 rs w1) as [[out1 s2] w2] eqn:HR.
    intros [= <- <- <-] Hall. inversion Hall as [|x l Hx Hl]; subst.
    unfold ret_error in Hx. simpl in Hx. subst e.
    apply Append_ok_inv in HA. destruct HA as (-> & -> & Hn & Hb & _).
    apply IH in HR; [|rewrite Hn; apply wrap64_range|exact Hl].
    destruct HR as (Hoffs & Hrec & Hn2 & Hb2). simpl.
    rewrite Z.add_0_r, (wrap64_small _ Hu). repeat split.
    + f_equal. rewrite Hoffs, <- seq_shift, map_map.
      apply map_ext. intros i. rewrite Hn, wrap64_add_l. f_equal. lia.
    + constructor; [reflexivity|exact Hrec].
    + rewrite Hn2, Hn, wrap64_add_l. f_equal. unfold len. simpl length. lia.
    + congruence.
Qed.

(** C4: [N] successful calls of [segment.Append] on a fresh segment with
    base offset [B] return [B], [B+1], ..., [B+N-1] in this order, the
    sums being those of uint64 (they are the integers [B + i] as long as
    [B + N] does not pass [2^64]); each record leaves its call with its
    [Offset] equal to the offset returned. *)
Theorem Append_offsets_consecutive {proto : Proto}
    (s : segment.t) (rs : list api.Record_) (w : World)
    (out : list (Z * option error * api.Record_))
    (s' : segment.t) (w' : World) :
  uint64 (segment.baseOffset s) ->
  segment.nextOffset s = segment.baseOffset s ->
  appends s rs w = (out, s', w') ->
  Forall (fun x => ret_error x = None) out ->
  map ret_offset out
  = map (fun i => wrap64 (segment.baseOffset s + Z.of_nat i))
        (seq 0 (length rs))
  /\ Forall (fun x => api.Offset (ret_record x) = ret_offset x) out
  /\ (segment.baseOffset s + len rs <= two64 ->
      map ret_offset out
      = map (fun i => segment.baseOffset s + Z.of_nat i) (seq 0 (length rs))).
Proof.
  intros Hu Hfresh HR Hall.
  destruct (appends_offsets rs s w out s' w') as (Hoffs & Hrec & _); auto.
  { rewrite Hfresh. exact Hu. }
  rewrite Hfresh in Hoffs. split; [exact Hoffs|]. split; [exact Hrec|].
  intros Hno. rewrite Hoffs. apply map_ext_in. intros i Hi.
  apply in_seq in Hi. apply wrap64_small. unfold uint64, len in *. lia.
Qed.

Lemma Append_offsets_consecutive_witness :
  let run :=
    @appends fixed_proto ex_segment [ex_record1; ex_record2]
      (opened ex_world) in
  map ret_offset (fst (fst run)) = [16; 17]
  /\ Forall (fun x => api.Offset (ret_record x) = ret_offset x)
       (fst (fst run)).
Proof.
  intros run.
  destruct (@Append_offsets_consecutive fixed_proto ex_segment
              [ex_record1; ex_record2] (opened ex_world)
              (fst (fst run)) (snd (fst run)) (snd run))
    as (H1 & H2 & _).
  - unfold uint64, two64. simpl. lia.
  - reflexivity.
  - reflexivity.
  - repeat constructor.
  - split; [exact H1|exact H2].
Defined.

(** Whenever the store append fails and the index has room,
    [segment.Append] still writes the entry, with the position that the
    failed call returned, advances [nextOffset] and returns a nil
    error. *)
Lemma Append_after_store_error {proto : Proto} s r w p n pos e st w1 :
  Marshal (api.mkRecord (api.Value r) (segment.nextOffset s)) = Ok p ->
  store.Append (segment.store s) p w = ((n, pos, Some e), st, w1) ->
  index.size (segment.index s) + index.entWidth
    <= index.cap (segment.index s) ->
  exists ix,
    segment.Append s r w
    = ((segment.nextOffset s, None),
       segment.mk st ix (segment.baseOffset s)
         (wrap64 (segment.nextOffset s + 1)) (segment.config s),
       api.mkRecord (api.Value r) (segment.nextOffset s), w1)
    /\ index.entries ix
       = index.entries (segment.index s)
         ++ [(wrap32 (wrap64 (segment.nextOffset s
                              - wrap64 (segment.baseOffset s))), pos)].
Proof.
  intros HM HS Hroom. unfold segment.Append. rewrite HM, HS.
  unfold index.Write.
  destruct (Z.ltb_spec (index.cap (segment.index s))
              (index.size (segment.index s) + index.entWidth)); [lia|].
  eexists. split; reflexivity.
Qed.

(** C1, at a failing input: on a device with room for 100 bytes the
    store cannot take a record of 5000 bytes and [store.Append] returns
    [ENOSPC]; [segment.Append] drops that error, writes the index entry
    [(0, 0)] for the record, advances [nextOffset] and returns the offset
    with a nil error. *)
Theorem Append_drops_store_error :
  (exists p st w1,
     @Marshal fixed_proto (api.mkRecord (api.Value big_record) 16) = Ok p
     /\ store.Append (segment.store ex_segment) p (opened small_world)
        = ((0, 0, Some ENOSPC), st, w1))
  /\ exists s' r' w',
       @segment.Append fixed_proto ex_segment big_record (opened small_world)
       = ((16, None), s', r', w')
       /\ index.entries (segment.index s') = [(0, 0)]
       /\ segment.nextOffset s' = 17.
Proof.
  split.
  - do 3 eexists. split; [reflexivity|]. vm_compute. reflexivity.
  - do 3 eexists. split; [vm_compute; reflexivity|]. split; reflexivity.
Qed.

(** C2, at a failing input: in a segment of base offset 16 that holds
    the records 16 and 17, reading offset 15 asks the index for entry
    [int64(15 - 16) = -1], its last entry, and returns record 17 with a
    nil error. *)
Theorem Read_below_base_returns_last :
  let '(_, s, w) :=
    @appends fixed_proto ex_segment [ex_record1; ex_record2]
      (opened ex_world) in
  15 < segment.baseOffset s
  /\ fst (fst (@segment.Read fixed_proto s 15 w))
     = (Some (api.mkRecord [x21] 17), None).
Proof. vm_compute. split; reflexivity. Qed.

(** The same entry answers the largest offset when the base is 0: an
    offset beyond [nextOffset]. *)
Example Read_beyond_next_returns_last :
  let '(_, s, w) :=
    @appends fixed_proto zero_segment [ex_record1; ex_record2]
      (opened0 ex_world) in
  segment.nextOffset s = 2
  /\ fst (fst (@segment.Read fixed_proto s (two64 - 1) w))
     = (Some (api.mkRecord [x21] 1), None).
Proof. vm_compute. split; reflexivity. Qed.

(** * The segment's files *)

Lemma string_app_inj (s a b : string) : s +:+ a = s +:+ b -> a = b.
Proof.
  induction s as [|ch s IH]; simpl; intros H; [exact H|].
  injection H as H. apply IH. exact H.
Qed.

Lemma store_name_neq_index_name dir B : store_name dir B <> index_name dir B.
Proof.
  unfold store_name, index_name, path_Join, Sprintf_d_s. intros H.
  do 3 apply string_app_inj in H. discriminate.
Qed.

(** * The index *)

Lemma entries_ok_ranges es :
  entries_ok es -> Forall (fun e => uint32 (fst e) /\ uint64 (snd e)) es.
Proof.
  intros H. apply Forall_forall. intros e He.
  apply list_elem_of_lookup in He. destruct He as [i Hi].
  destruct (H i e Hi) as [-> Hp]. split; [apply wrap32_range|exact Hp].
Qed.

Lemma decode_encode es :
  Forall (fun e => uint32 (fst e) /\ uint64 (snd e)) es ->
  index.decode (index.encode es) = es.
Proof.
  induction 1 as [|[o p] es [Ho Hp] _ IH]; [reflexivity|].
  unfold index.encode in *. simpl flat_map.
  remember (flat_map index.encode_entry es) as rest eqn:Hrest.
  cbn [index.decode]. rewrite IH. f_equal. f_equal.
  - apply (Uint32_PutUint32 o Ho).
  - apply (Uint64_PutUint64 p Hp).
Qed.

Lemma entries_ok_snoc es off pos :
  entries_ok es -> off = wrap32 (len es) -> uint64 pos ->
  entries_ok (es ++ [(off, pos)]).
Proof.
  intros Hes -> Hpos i e Hi.
  destruct (Nat.lt_ge_cases i (length es)) as [Hlt|Hge].
  - rewrite lookup_app_l in Hi by exact Hlt. apply Hes. exact Hi.
  - rewrite lookup_app_r in Hi by exact Hge.
    destruct (i - length es)%nat as [|k] eqn:Hk; simpl in Hi.
    + injection Hi as <-. simpl. split; [|exact Hpos].
      unfold len. f_equal. lia.
    + destruct k; discriminate.
Qed.

Lemma len_snoc {A} (l : list A) x : len (l ++ [x]) = len l + 1.
Proof. rewrite len_app. reflexivity. Qed.

Lemma index_Write_inv i off pos e i' :
  index.Write i off pos = (e, i') ->
  index.file i' = index.file i /\ index.cap i' = index.cap i /\
  match e with
  | Some _ => i' = i
  | None =>
      index.entries i' = index.entries i ++ [(off, pos)]
      /\ index.size i' = index.size i + index.entWidth
      /\ index.size i' <= index.cap i
  end.
Proof.
  unfold index.Write.
  destruct (Z.ltb_spec (index.cap i) (index.size i + index.entWidth));
    intros [= <- <-]; simpl; auto.
Qed.

Lemma index_Read_last i :
  index.Read i (-1)
  = match last (index.entries i) with
    | Some (out, pos) => (out, pos, None)
    | None => (0, 0, Some ErrNotFound)
    end.
Proof. reflexivity. Qed.

Lemma index_Read_at i (k : nat) e :
  index.entries i !! k = Some e ->
  index.Read i (Z.of_nat k) = (fst e, snd e, None).
Proof.
  intros Hk. unfold index.Read.
  assert (Hlt : (k < length (index.entries i))%nat).
  { eapply lookup_lt_Some. exact Hk. }
  destruct (Z.eqb_spec (Z.of_nat k) (-1)); [lia|].
  destruct (Z.leb_spec 0 (Z.of_nat k)); [|lia].
  destruct (Z.ltb_spec (Z.of_nat k) (len (index.entries i)));
    [|unfold len in *; lia].
  simpl. rewrite Nat2Z.id, Hk. destruct e. reflexivity.
Qed.

Lemma index_Read_out_of_range i in_ :
  in_ <> -1 -> (in_ < 0 \/ len (index.entries i) <= in_) ->
  index.Read i in_ = (0, 0, Some ErrNotFound).
Proof.
  intros Hne Hout. unfold index.Read.
  destruct (Z.eqb_spec in_ (-1)); [contradiction|].
  destruct (Z.leb_spec 0 in_); simpl; [|reflexivity].
  destruct (Z.ltb_spec in_ (len (index.entries i))); [lia|reflexivity].
Qed.

Lemma index_Read_empty i in_ :
  index.entries i = [] -> index.Read i in_ = (0, 0, Some ErrNotFound).
Proof.
  intros He. unfold index.Read. rewrite He.
  destruct (in_ =? -1); [reflexivity|].
  destruct ((0 <=? in_) && (in_ <? len [])) eqn:Hc; [|reflexivity].
  apply andb_true_iff in Hc. destruct Hc as [H1 H2].
  apply Z.leb_le in H1. apply Z.ltb_lt in H2. rewrite len_nil in H2. lia.
Qed.

(** * The shape of a store after a call *)

Lemma store_Append_shape s p w n pos e s' w' :
  uint64 (store.size s) ->
  store.Append s p w = ((n, pos, e), s', w') ->
  store.File s' = store.File s /\ uint64 (store.size s') /\ uint64 pos.
Proof.
  intros Hu. unfold store.Append, binary_Write.
  destruct (bufio.Write (store.buf s) (store.File s) _ w)
    as [[[n1 e1] b1] w1].
  assert (H0 : uint64 0) by (unfold uint64, two64; lia).
  destruct e1 as [e1|]; [intros [= <- <- <- <- <-]; auto|].
  destruct (bufio.Write b1 (store.File s) p w1) as [[[n2 e2] b2] w2].
  destruct e2 as [e2|]; intros [= <- <- <- <- <-]; simpl; auto.
  split; [reflexivity|]. split; [apply wrap64_range|exact Hu].
Qed.

Lemma store_Read_shape s pos w r s' w' :
  store.Read s pos w = (r, s', w') ->
  store.File s' = store.File s /\ store.size s' = store.size s.
Proof.
  unfold store.Read.
  destruct (bufio.Flush (store.buf s) (store.File s) w) as [[e b1] w1].
  destruct e as [e|]; [intros [= <- <- <-]; auto|].
  destruct (os.ReadAt (store.File s) store.lenWidth (to_int64 pos) w1)
    as [sz e1].
  destruct e1 as [e1|]; [intros [= <- <- <-]; auto|].
  destruct (two63 <=? binary.Uint64 sz); [intros [= <- <- <-]; auto|].
  destruct (os.ReadAt (store.File s) (binary.Uint64 sz)
              (to_int64 (wrap64 (pos + store.lenWidth))) w1) as [b e2].
  destruct e2 as [e2|]; intros [= <- <- <-]; auto.
Qed.

(** * Opening a segment *)

Lemma lookup_set_file_ne name name' d w :
  name <> name' -> files (set_file name d w) !! name' = files w !! name'.
Proof. intros H. simpl. apply lookup_insert_ne. exact H. Qed.

(** [newSegment] does not fail in this file system, and builds the
    segment from the two files. *)
Lemma newSegment_eq dir B c w0 :
  exists w d,
    newSegment dir B c w0
    = (Ok (segment.mk
             (store.mk (os.mkFile (store_name dir B) false) bufio.NewWriter
                (wrap64 (len d)))
             (index.mk (os.mkFile (index_name dir B) false)
                (disk_entries dir B w0)
                (index.entWidth * len (disk_entries dir B w0))
                (index_cap c))
             B (recovered B (disk_entries dir B w0)) c), w)
    /\ files w !! store_name dir B = Some d
    /\ d = default [] (files w0 !! store_name dir B)
    /\ files w !! index_name dir B
       = Some (default [] (files w0 !! index_name dir B))
    /\ quota w = quota w0.
Proof.
  pose proof (store_name_neq_index_name dir B) as Hne.
  unfold newSegment. fold (store_name dir B). fold (index_name dir B).
  assert (Hopen : forall name w,
    exists w', os.OpenFile name true w = (Ok (os.mkFile name false), w')
      /\ files w' !! name = Some (default [] (files w !! name))
      /\ (forall n, n <> name -> files w' !! n = files w !! n)
      /\ quota w' = quota w).
  { intros name w. unfold os.OpenFile.
    destruct (files w !! name) as [d|] eqn:Hd.
    - exists w. rewrite Hd. auto.
    - exists (set_file name [] w). rewrite lookup_set_file.
      repeat split; auto. intros n Hn. apply lookup_set_file_ne. congruence. }
  destruct (Hopen (store_name dir B) w0) as (w1 & -> & Hs1 & Hf1 & Hq1).
  unfold newStore, os.Stat. simpl os.Name. rewrite Hs1.
  destruct (Hopen (index_name dir B) w1) as (w2 & -> & Hi2 & Hf2 & Hq2).
  unfold newIndex. simpl os.Name. rewrite Hi2.
  rewrite (Hf1 (index_name dir B)) in * by congruence.
  assert (Hes : index.decode (default [] (files w0 !! index_name dir B))
                = disk_entries dir B w0).
  { unfold disk_entries. destruct (files w0 !! index_name dir B); reflexivity. }
  rewrite Hes.
  assert (Hcap : nearestMultiple (MaxIndexBytes (Segment c)) index.entWidth
                 = Some (index_cap c)).
  { unfold nearestMultiple, index_cap. simpl.
    destruct (nearestMultiple_guard _); reflexivity. }
  rewrite Hcap. rewrite index_Read_last. simpl index.entries.
  exists w2, (default [] (files w0 !! store_name dir B)). split.
  - unfold recovered. destruct (last (disk_entries dir B w0)) as [[off pos]|];
      reflexivity.
  - rewrite (Hf2 (store_name dir B)) by congruence.
    repeat split; auto. congruence.
Qed.

Lemma disk_ok_entries dir B w K :
  disk_ok dir B w K ->
  entries_ok (disk_entries dir B w)
  /\ length (disk_entries dir B w) = K /\ Z.of_nat K <= two32.
Proof.
  unfold disk_ok, disk_entries.
  destruct (files w !! index_name dir B) as [d|].
  - intros (es & -> & Hok & Hlen & HK).
    rewrite decode_encode by (apply entries_ok_ranges; exact Hok). auto.
  - intros ->. split; [|split; [reflexivity|unfold two32; simpl; lia]].
    intros i e Hi. destruct i; discriminate.
Qed.

Lemma wrap64_sub_cancel B K : wrap64 (wrap64 (B + K) - B) = wrap64 K.
Proof.
  unfold wrap64. rewrite Zminus_mod_idemp_l. f_equal. lia.
Qed.

Lemma wrap32_wrap64 z : wrap32 (wrap64 z) = wrap32 z.
Proof.
  unfold wrap32, wrap64. apply Z.mod_mod_divide.
  exists two32. reflexivity.
Qed.

Lemma recovered_ok B es :
  entries_ok es -> len es <= two32 ->
  recovered B es = wrap64 (B + len es) \/ (es = [] /\ recovered B es = B).
Proof.
  intros Hok Hlen. unfold recovered. rewrite last_lookup.
  destruct es as [|e0 es'] eqn:Hes; [right; auto|left]. rewrite <- Hes in *.
  assert (Hpos : (0 < length es)%nat) by (rewrite Hes; simpl; lia).
  destruct (es !! Nat.pred (length es)) as [[off pos]|] eqn:Hl.
  - destruct (Hok _ _ Hl) as [Hoff _]. simpl in Hoff. subst off.
    rewrite wrap32_small.
    + rewrite wrap64_add_l. f_equal. unfold len. lia.
    + unfold uint32, len in *. lia.
  - apply lookup_ge_None in Hl. lia.
Qed.

(** * The segment's invariant *)

Lemma index_cap_range c : uint64 (index_cap c).
Proof.
  unfold index_cap, nearestMultiple_then, nearestMultiple_else.
  destruct (nearestMultiple_guard _); apply wrap64_range.
Qed.

Lemma entWidth_12 : index.entWidth = 12.
Proof. reflexivity. Qed.

Lemma newSegment_inv dir B c w0 K s w :
  uint64 B -> disk_ok dir B w0 K ->
  newSegment dir B c w0 = (Ok s, w) ->
  seg_inv dir B c s
  /\ index.entries (segment.index s) = disk_entries dir B w0
  /\ length (index.entries (segment.index s)) = K.
Proof.
  intros HB Hdisk Hnew.
  destruct (newSegment_eq dir B c w0) as (w' & d & Heq & _).
  rewrite Heq in Hnew. injection Hnew as <- <-.
  destruct (disk_ok_entries _ _ _ _ Hdisk) as (Hok & Hlen & HK).
  split; [|split; [reflexivity|exact Hlen]].
  unfold seg_inv. simpl. rewrite entWidth_12.
  assert (HlenZ : len (disk_entries dir B w0) = Z.of_nat K)
    by (unfold len; rewrite Hlen; reflexivity).
  split_and!; auto; try apply wrap64_range; try apply index_cap_range.
  - rewrite HlenZ. unfold two32, two64 in *. lia.
  - destruct (recovered_ok B (disk_entries dir B w0)) as [Hr|[Hnil Hr]];
      auto; [lia|].
    rewrite Hr, Hnil, len_nil, Z.add_0_r, wrap64_small; auto.
Qed.

Lemma Append_seg_inv {proto : Proto} dir B c s r w off e s' r' w' :
  uint64 B -> seg_inv dir B c s ->
  segment.Append s r w = ((off, e), s', r', w') ->
  seg_inv dir B c s'
  /\ length (index.entries (segment.index s'))
     = match e with
       | None => S (length (index.entries (segment.index s)))
       | Some _ => length (index.entries (segment.index s))
       end.
Proof.
  intros HB Hinv. unfold segment.Append.
  destruct (Marshal _) as [p|e0].
  2:{ intros [= <- <- <- <- <-]. auto. }
  destruct (store.Append (segment.store s) p w)
    as [[[[n0 pos] e1] st] w1] eqn:HA.
  destruct Hinv as (Hb & Hc & Hsn & Hin & Hcl & Hes & Hsz & Hlt & Hcap
                    & Hss & Hnext).
  apply store_Append_shape in HA; [|exact Hss].
  destruct HA as (HF & Hss' & Hpos).
  destruct (index.Write _ _ pos) as [e2 ix] eqn:HW.
  apply index_Write_inv in HW. destruct HW as (Hfile & Hcap' & HW).
  destruct e2 as [e2|].
  - subst ix. intros [= <- <- <- <- <-]. split; [|reflexivity].
    unfold seg_inv. simpl. rewrite HF. split_and!; auto.
  - destruct HW as (Hent & Hsz' & Hle). intros [= <- <- <- <- <-].
    simpl. rewrite Hent. split; [|rewrite length_app; simpl; lia].
    unfold seg_inv. simpl. rewrite HF, Hent, Hsz', Hfile, Hcap'.
    unfold index.Name in *. rewrite Hfile.
    rewrite len_snoc. split_and!; auto.
    + apply entries_ok_snoc; auto.
      rewrite Hnext, Hb, (wrap64_small B HB), wrap64_sub_cancel.
      apply wrap32_wrap64.
    + lia.
    + rewrite Hsz' in Hle. pose proof (index_cap_range c) as [_ Hc2].
      rewrite Hcap in Hle. lia.
    + rewrite Hnext, wrap64_add_l. f_equal. lia.
Qed.

Lemma Read_seg_inv {proto : Proto} dir B c s off w ret s' w' :
  seg_inv dir B c s ->
  segment.Read s off w = (ret, s', w') ->
  seg_inv dir B c s' /\ segment.index s' = segment.index s.
Proof.
  intros Hinv. unfold segment.Read.
  destruct (index.Read _ _) as [[o pos] e].
  destruct e as [e|]; [intros [= <- <- <-]; auto|].
  destruct (store.Read (segment.store s) pos w) as [[r st] w1] eqn:HR.
  apply store_Read_shape in HR. destruct HR as [HF Hsz].
  assert (Hinv' : seg_inv dir B c
            (segment.mk st (segment.index s) (segment.baseOffset s)
               (segment.nextOffset s) (segment.config s))).
  { unfold seg_inv in *. simpl. rewrite HF, Hsz. exact Hinv. }
  destruct r as [p|e]; [|intros [= <- <- <-]; auto].
  destruct (Unmarshal p) as [rec e]. intros [= <- <- <-]; auto.
Qed.

Lemma reach_inv {proto : Proto} dir B c K s w :
  uint64 B -> reach dir B c K s w ->
  seg_inv dir B c s /\ length (index.entries (segment.index s)) = K.
Proof.
  intros HB Hr. induction Hr as
    [w0 K s w Hdisk Hnew
    |K s w r off s' r' w' Hr [IH1 IH2] HA
    |K s w r off e s' r' w' Hr [IH1 IH2] HA
    |K s w off ret s' w' Hr [IH1 IH2] HR].
  - destruct (newSegment_inv _ _ _ _ _ _ _ HB Hdisk Hnew) as (H1 & _ & H2).
    auto.
  - destruct (Append_seg_inv _ _ _ _ _ _ _ _ _ _ _ HB IH1 HA) as [H1 H2].
    split; [exact H1|]. rewrite H2, IH2. reflexivity.
  - destruct (Append_seg_inv _ _ _ _ _ _ _ _ _ _ _ HB IH1 HA) as [H1 H2].
    split; [exact H1|]. rewrite H2, IH2. reflexivity.
  - destruct (Read_seg_inv _ _ _ _ _ _ _ _ _ IH1 HR) as [H1 H2].
    split; [exact H1|]. rewrite H2. exact IH2.
Qed.

Lemma wrap64_fixed B K :
  uint64 B -> 0 <= K < two64 -> (wrap64 (B + K) = B <-> K = 0).
Proof.
  intros HB HK. split.
  - unfold wrap64. intros H.
    pose proof (Z.div_mod (B + K) two64) as Hdm.
    rewrite H in Hdm. unfold uint64, two64 in *. lia.
  - intros ->. rewrite Z.add_0_r. apply wrap64_small. exact HB.
Qed.

(** * The offsets of a segment, whatever the directory holds *)

Lemma lor_lt_pow2 a b n :
  0 < n -> 0 <= a < 2 ^ n -> 0 <= b < 2 ^ n -> 0 <= Z.lor a b < 2 ^ n.
Proof.
  intros Hn Ha Hb.
  assert (H0 : 0 <= Z.lor a b) by (apply Z.lor_nonneg; lia).
  split; [exact H0|].
  destruct (Z.eq_dec (Z.lor a b) 0) as [Hz|Hnz].
  { rewrite Hz. apply Z.pow_pos_nonneg; lia. }
  apply Z.log2_lt_pow2; [lia|].
  rewrite Z.log2_lor by lia.
  assert (Hl : forall x, 0 <= x < 2 ^ n -> Z.log2 x < n).
  { intros x Hx. destruct (Z.eq_dec x 0) as [->|Hx0].
    - simpl. exact Hn.
    - apply Z.log2_lt_pow2; lia. }
  pose proof (Hl a Ha). pose proof (Hl b Hb). lia.
Qed.

Lemma Uint32_range b : uint32 (binary.Uint32 b).
Proof.
  unfold binary.Uint32, uint32, two32.
  assert (Hs : forall x k, 0 <= k -> 0 <= x < 256 ->
             0 <= Z.shiftl x k < 2 ^ (8 + k)).
  { intros x k Hk Hx. rewrite Z.shiftl_mul_pow2 by lia.
    rewrite Z.pow_add_r by lia. change (2 ^ 8) with 256.
    assert (0 < 2 ^ k) by (apply Z.pow_pos_nonneg; lia). nia. }
  pose proof (Z_of_byte_range (nth 3 b x00)) as H3.
  pose proof (Hs _ 8 ltac:(lia) (Z_of_byte_range (nth 2 b x00))) as H2.
  pose proof (Hs _ 16 ltac:(lia) (Z_of_byte_range (nth 1 b x00))) as H1.
  pose proof (Hs _ 24 ltac:(lia) (Z_of_byte_range (nth 0 b x00))) as H0.
  simpl (8 + _) in *.
  apply lor_lt_pow2; [lia|lia|].
  apply lor_lt_pow2; [lia|lia|].
  apply lor_lt_pow2; [lia|lia|lia].
Qed.

Lemma decode_ranges d :
  List.Forall (fun e => uint32 (fst e)) (index.decode d).
Proof.
  assert (H : forall (n : nat) d, (length d <= n)%nat ->
            List.Forall (fun e => uint32 (fst e)) (index.decode d)).
  { clear d. induction n as [|n IH]; intros d Hn.
    - destruct d; [constructor|simpl in Hn; lia].
    - do 12 (destruct d as [|? d]; [constructor|]).
      cbn [index.decode]. constructor.
      + apply Uint32_range.
      + apply IH. simpl in Hn. lia. }
  apply (H (length d)). lia.
Qed.

Lemma taken_range es :
  List.Forall (fun e => uint32 (fst e)) es ->
  0 <= taken es <= two32 /\ (taken es = 0 <-> es = []).
Proof.
  intros Hall. unfold taken.
  destruct (last es) as [[off pos]|] eqn:Hl.
  - apply last_Some in Hl. destruct Hl as [l' ->].
    apply List.Forall_app in Hall. destruct Hall as [_ Hx].
    inversion Hx as [|? ? Hoff _]. subst. simpl in Hoff.
    unfold uint32 in Hoff. split; [lia|]. split; [lia|].
    intros H. destruct l'; discriminate.
  - apply last_None in Hl. subst es. unfold two32. split; [lia|tauto].
Qed.

Lemma recovered_taken B es :
  uint64 B -> recovered B es = wrap64 (B + taken es).
Proof.
  intros HB. unfold recovered, taken.
  destruct (last es) as [[off pos]|].
  - rewrite wrap64_add_l. f_equal. lia.
  - rewrite Z.add_0_r, wrap64_small by exact HB. reflexivity.
Qed.

Lemma newSegment_run_inv dir B c w0 s w :
  uint64 B -> newSegment dir B c w0 = (Ok s, w) ->
  run_inv B c (taken (index.entries (segment.index s))) s.
Proof.
  intros HB Hnew.
  destruct (newSegment_eq dir B c w0) as (w1 & d & Heq & _).
  rewrite Heq in Hnew. injection Hnew as <- <-.
  cbn [segment.index index.entries].
  assert (Hall : List.Forall (fun e => uint32 (fst e)) (disk_entries dir B w0)).
  { unfold disk_entries. destruct (files w0 !! index_name dir B).
    - apply decode_ranges.
    - constructor. }
  destruct (taken_range _ Hall) as [Hr Hz].
  unfold run_inv. cbn [segment.baseOffset segment.nextOffset segment.index
                         index.entries index.cap index.size].
  split_and!; auto.
  - apply recovered_taken. exact HB.
  - lia.
  - pose proof (len_nonneg (disk_entries dir B w0)). rewrite entWidth_12. lia.
  - left. lia.
Qed.

Lemma Append_run_inv {proto : Proto} B c R s r w off e s' r' w' :
  run_inv B c R s ->
  segment.Append s r w = ((off, e), s', r', w') ->
  run_inv B c (match e with None => R + 1 | Some _ => R end) s'.
Proof.
  intros (Hb & Hnext & HR & Hz & Hcap & Hsz & Hbd). unfold segment.Append.
  destruct (Marshal _) as [p|e0].
  2:{ intros [= <- <- <- <- <-]. unfold run_inv. auto 10. }
  destruct (store.Append (segment.store s) p w)
    as [[[[n0 pos] e1] st] w1].
  destruct (index.Write _ _ pos) as [e2 ix] eqn:HW.
  apply index_Write_inv in HW. destruct HW as (_ & Hcap' & HW).
  destruct e2 as [e2|].
  - subst ix. intros [= <- <- <- <- <-]. unfold run_inv. simpl. auto 10.
  - destruct HW as (Hent & Hsz' & Hle). intros [= <- <- <- <- <-].
    unfold run_inv. simpl. rewrite Hent, Hsz', Hcap', Hnext.
    rewrite entWidth_12 in *.
    split_and!; auto.
    + rewrite wrap64_add_l. f_equal. lia.
    + lia.
    + split; [lia|]. intros H. destruct (index.entries (segment.index s));
        discriminate.
    + lia.
    + rewrite Hsz' in Hle. destruct Hbd as [Hbd|[Hbd1 Hbd2]]; right; lia.
Qed.

Lemma Read_run_inv {proto : Proto} B c R s off w ret s' w' :
  run_inv B c R s ->
  segment.Read s off w = (ret, s', w') ->
  run_inv B c R s'.
Proof.
  intros Hinv. unfold segment.Read.
  destruct (index.Read _ _) as [[o pos] e].
  destruct e as [e|]; [intros [= <- <- <-]; auto|].
  destruct (store.Read (segment.store s) pos w) as [[r st] w1].
  destruct r as [p|e]; [|intros [= <- <- <-]; exact Hinv].
  destruct (Unmarshal p) as [rec e]. intros [= <- <- <-]; exact Hinv.
Qed.

Lemma run_run_inv {proto : Proto} dir B c R s w :
  uint64 B -> run dir B c R s w -> run_inv B c R s.
Proof.
  intros HB Hr. induction Hr as
    [w0 s w Hnew
    |R s w r off s' r' w' Hr IH HA
    |R s w r off e s' r' w' Hr IH HA
    |R s w off ret s' w' Hr IH HR].
  - exact (newSegment_run_inv _ _ _ _ _ _ HB Hnew).
  - exact (Append_run_inv _ _ _ _ _ _ _ _ _ _ _ IH HA).
  - exact (Append_run_inv _ _ _ _ _ _ _ _ _ _ _ IH HA).
  - exact (Read_run_inv _ _ _ _ _ _ _ _ _ IH HR).
Qed.

Lemma run_inv_bound B c R s : run_inv B c R s -> 0 <= R < two64.
Proof.
  intros (_ & _ & HR & _ & Hcap & Hsz & Hbd).
  pose proof (index_cap_range c) as Hc. rewrite <- Hcap in Hc.
  rewrite entWidth_12 in Hbd. unfold uint64, two64, two32 in *.
  destruct Hbd as [Hbd|[Hbd1 Hbd2]]; lia.
Qed.

(** A segment opened on its own files is one of the states of [run], and
    the offsets given out are its records. *)
Lemma reach_run {proto : Proto} dir B c K s w :
  uint64 B -> reach dir B c K s w -> run dir B c (Z.of_nat K) s w.
Proof.
  intros HB Hr. induction Hr as
    [w0 K s w Hdisk Hnew
    |K s w r off s' r' w' Hr IH HA
    |K s w r off e s' r' w' Hr IH HA
    |K s w off ret s' w' Hr IH HR].
  - pose proof (run_new dir B c _ _ _ Hnew) as Hrun.
    destruct (newSegment_inv _ _ _ _ _ _ _ HB Hdisk Hnew) as (Hinv & _ & Hlen).
    pose proof (newSegment_run_inv _ _ _ _ _ _ HB Hnew) as Hri.
    pose proof (run_inv_bound _ _ _ _ Hri) as Hbd.
    destruct Hri as (_ & Hn1 & _).
    destruct Hinv as (_ & _ & _ & _ & _ & _ & Hsz & Hlt & _ & _ & Hn2).
    assert (HK : taken (index.entries (segment.index s)) = Z.of_nat K).
    { rewrite Hn2 in Hn1. unfold len in *. rewrite Hlen in *.
      rewrite entWidth_12 in Hsz.
      unfold wrap64 in Hn1.
      assert (HKb : 0 <= Z.of_nat K < two64) by (unfold two64 in *; lia).
      pose proof (Z.div_mod (B + Z.of_nat K) two64) as D1.
      pose proof (Z.div_mod (B + taken (index.entries (segment.index s)))
                    two64) as D2.
      pose proof (Z.mod_pos_bound (B + Z.of_nat K) two64) as M1.
      unfold uint64, two64 in *. lia. }
    rewrite <- HK. exact Hrun.
  - rewrite Nat2Z.inj_succ, <- Z.add_1_r.
    exact (run_Append_ok dir B c _ _ _ _ _ _ _ _ IH HA).
  - exact (run_Append_err dir B c _ _ _ _ _ _ _ _ _ IH HA).
  - exact (run_Read dir B c _ _ _ _ _ _ _ IH HR).
Qed.

(** C7, as the code has it: in every state of a segment, opened by
    [newSegment] on whatever the directory holds and used by calls of
    [Append] and [Read], successful or not, [nextOffset] is
    [baseOffset + R] in uint64 arithmetic, where [R] counts the relative
    offsets given out: those that [newSegment] found taken (none in an
    empty index, otherwise one more than the 32-bit relative offset of
    the last entry) and one for each successful [Append] since.  [R] is
    the number [K] of records when the segment was opened on its own
    files of at most [2^32] records.  So [nextOffset] is at least
    [baseOffset] as long as [baseOffset + R] stays below [2^64], and it
    equals [baseOffset] exactly when the segment holds no record. *)
Theorem run_nextOffset {proto : Proto} (dir : string) (B : Z) (c : Config)
    (R : Z) (s : segment.t) (w : World) :
  uint64 B -> run dir B c R s w ->
  segment.baseOffset s = B
  /\ 0 <= R < two64
  /\ segment.nextOffset s = wrap64 (B + R)
  /\ (forall K, reach dir B c K s w -> R = Z.of_nat K)
  /\ (B + R < two64 -> segment.baseOffset s <= segment.nextOffset s)
  /\ (segment.nextOffset s = segment.baseOffset s
      <-> index.entries (segment.index s) = []).
Proof.
  intros HB Hr. pose proof (run_run_inv _ _ _ _ _ _ HB Hr) as Hinv.
  pose proof (run_inv_bound _ _ _ _ Hinv) as Hbd.
  destruct Hinv as (Hb & Hnext & HR & Hz & _).
  split; [exact Hb|]. split; [exact Hbd|]. split; [exact Hnext|].
  split; [|split].
  - intros K HK.
    destruct (reach_inv _ _ _ _ _ _ HB HK) as [Hinv HlenK].
    destruct Hinv as (_ & _ & _ & _ & _ & _ & Hsz & Hlt & _ & _ & Hn2).
    rewrite Hn2 in Hnext. unfold len in *. rewrite HlenK in *.
    rewrite entWidth_12 in Hsz. unfold wrap64 in Hnext.
    pose proof (Z.div_mod (B + Z.of_nat K) two64) as D1.
    pose proof (Z.div_mod (B + R) two64) as D2.
    pose proof (Z.mod_pos_bound (B + Z.of_nat K) two64) as M1.
    unfold uint64, two64 in *. lia.
  - intros Hno. rewrite Hb, Hnext, wrap64_small; [lia|].
    unfold uint64 in *. lia.
  - rewrite Hb, Hnext, wrap64_fixed by assumption. exact Hz.
Qed.

Lemma ex_reach_fresh :
  @reach fixed_proto "d" 16 ex_config 0 ex_segment (opened ex_world).
Proof.
  apply (reach_new "d" 16 ex_config ex_world); [|reflexivity].
  vm_compute. reflexivity.
Qed.

Lemma ex_run_foreign :
  @run fixed_proto "d" 16 ex_config 6 foreign_segment
    (snd (newSegment "d" 16 ex_config foreign_world)).
Proof.
  apply (run_new "d" 16 ex_config foreign_world foreign_segment).
  vm_compute. reflexivity.
Qed.

Lemma run_nextOffset_witness :
  exists s w,
    @run fixed_proto "d" 16 ex_config 7 s w
    /\ segment.baseOffset s = 16
    /\ 0 <= 7 < two64
    /\ segment.nextOffset s = wrap64 (16 + 7)
    /\ (forall K, @reach fixed_proto "d" 16 ex_config K s w -> 7 = Z.of_nat K)
    /\ (16 + 7 < two64 -> segment.baseOffset s <= segment.nextOffset s)
    /\ (segment.nextOffset s = segment.baseOffset s
        <-> index.entries (segment.index s) = []).
Proof.
  assert (Hr : exists s w, @run fixed_proto "d" 16 ex_config 7 s w).
  { do 2 eexists.
    eapply (@run_Append_ok fixed_proto "d" 16 ex_config 6 foreign_segment
              _ ex_record1).
    - exact ex_run_foreign.
    - reflexivity. }
  destruct Hr as (s & w & Hr). exists s, w. split; [exact Hr|].
  apply (@run_nextOffset fixed_proto "d" 16 ex_config 7 s w).
  - unfold uint64, two64. lia.
  - exact Hr.
Defined.

(** C7, the claim as stated fails: a segment opened at the base offset
    [2^64 - 1] has, after one successful [Append], [nextOffset = 0],
    which is below its [baseOffset]. *)
Lemma nextOffset_wraps_below_baseOffset :
  exists s w,
    @reach fixed_proto "d" (two64 - 1) ex_config 1 s w
    /\ segment.nextOffset s = 0
    /\ ~ segment.nextOffset s >= segment.baseOffset s.
Proof.
  do 2 eexists. split.
  - eapply (@reach_Append_ok fixed_proto "d" (two64 - 1) ex_config 0 _ _
              ex_record1).
    + apply (reach_new "d" (two64 - 1) ex_config ex_world).
      * vm_compute. reflexivity.
      * reflexivity.
    + reflexivity.
  - split; [reflexivity|]. vm_compute. intros H. apply H. reflexivity.
Qed.

(** * Closing and reopening *)

Lemma segment_Close_disk dir B c s w e s1 w1 :
  seg_inv dir B c s ->
  segment.Close s w = (e, s1, w1) ->
  files w1 !! index_name dir B
  = Some (index.encode (index.entries (segment.index s))).
Proof.
  intros Hinv. destruct Hinv as (Hb & Hc & Hsn & Hin & Hcl & _).
  unfold segment.Close, index.Close. rewrite Hcl.
  unfold os.Close. rewrite Hcl. unfold index.Name in Hin. rewrite Hin.
  destruct (store.Close (segment.store s) _) as [[e1 st] w2] eqn:HC.
  intros [= <- <- <-].
  unfold store.Close in HC.
  destruct (bufio.Flush _ _ _) as [[e0 b1] w3] eqn:HF.
  apply Flush_inv in HF. destruct HF as [[_ Hfr] _].
  assert (Hw3 : files w3 !! index_name dir B
                = Some (index.encode (index.entries (segment.index s)))).
  { rewrite Hfr.
    - apply lookup_set_file.
    - rewrite Hsn. intros H. symmetry in H.
      exact (store_name_neq_index_name dir B H). }
  destruct e0 as [e0|]; [injection HC as <- <- <-; exact Hw3|].
  unfold os.Close in HC.
  destruct (os.closed (store.File (segment.store s)));
    injection HC as <- <- <-; exact Hw3.
Qed.

(** C6: a segment of base offset [B] that holds [K] records, [K] within
    the range of the index's 32-bit offset field, is closed and opened
    again with [newSegment] on the same directory and base offset: the
    new segment takes its [nextOffset] from the last entry of the index
    (read at -1), it is [B + K] in uint64 arithmetic and exactly [B]
    when [K = 0], and it is the offset that the next successful
    [Append] returns. *)
Theorem reopen_recovers_nextOffset {proto : Proto} (dir : string) (B : Z)
    (c : Config) (K : nat) (s : segment.t) (w : World)
    (e : option error) (s1 : segment.t) (w1 : World) :
  uint64 B -> reach dir B c K s w -> Z.of_nat K <= two32 ->
  segment.Close s w = (e, s1, w1) ->
  exists s2 w2,
    newSegment dir B c w1 = (Ok s2, w2)
    /\ index.entries (segment.index s2) = index.entries (segment.index s)
    /\ segment.nextOffset s2
       = match index.Read (segment.index s2) (-1) with
         | (off, _, None) => wrap64 (wrap64 (B + off) + 1)
         | (_, _, Some _) => B
         end
    /\ segment.nextOffset s2 = wrap64 (B + Z.of_nat K)
    /\ (K = 0%nat -> segment.nextOffset s2 = B)
    /\ (forall r off s3 r3 w3,
          segment.Append s2 r w2 = ((off, None), s3, r3, w3) ->
          off = wrap64 (B + Z.of_nat K)).
Proof.
  intros HB Hr HK HC.
  destruct (reach_inv _ _ _ _ _ _ HB Hr) as [Hinv Hlen].
  pose proof (segment_Close_disk _ _ _ _ _ _ _ _ Hinv HC) as Hdisk.
  assert (Hes : entries_ok (index.entries (segment.index s)))
    by (destruct Hinv as (_ & _ & _ & _ & _ & H & _); exact H).
  assert (Hok : disk_ok dir B w1 K).
  { unfold disk_ok. rewrite Hdisk.
    exists (index.entries (segment.index s)). auto. }
  destruct (newSegment_eq dir B c w1) as (w2 & d & Heq & _).
  match type of Heq with _ = (Ok ?x, _) => set (s2 := x) in * end.
  destruct (newSegment_inv _ _ _ _ _ _ _ HB Hok Heq) as (Hinv2 & Hent2 & Hlen2).
  assert (Hde : disk_entries dir B w1 = index.entries (segment.index s)).
  { unfold disk_entries. rewrite Hdisk. apply decode_encode.
    apply entries_ok_ranges. exact Hes. }
  assert (Hnext : segment.nextOffset s2 = wrap64 (B + Z.of_nat K)).
  { destruct Hinv2 as (_ & _ & _ & _ & _ & _ & _ & _ & _ & _ & Hn).
    rewrite Hn. unfold len. rewrite Hlen2. reflexivity. }
  exists s2, w2. split; [exact Heq|]. split; [rewrite Hent2; exact Hde|].
  split.
  { rewrite index_Read_last. unfold s2 at 1. simpl segment.nextOffset.
    unfold recovered. simpl.
    destruct (last (disk_entries dir B w1)) as [[off pos]|]; reflexivity. }
  split; [exact Hnext|]. split.
  - intros ->. rewrite Hnext. simpl. rewrite Z.add_0_r.
    apply wrap64_small. exact HB.
  - intros r off s3 r3 w3 HA. apply Append_ok_inv in HA.
    destruct HA as (-> & _). exact Hnext.
Qed.

Lemma ex_reach2 :
  @reach fixed_proto "d" 16 ex_config 2 ex_segment2 ex_world2.
Proof.
  eapply (@reach_Append_ok fixed_proto "d" 16 ex_config 1 _ _ ex_record2).
  - eapply (@reach_Append_ok fixed_proto "d" 16 ex_config 0 ex_segment
              (opened ex_world) ex_record1).
    + exact ex_reach_fresh.
    + reflexivity.
  - reflexivity.
Qed.

Lemma reopen_recovers_nextOffset_witness :
  exists s2 w2,
    newSegment "d" 16 ex_config (snd (segment.Close ex_segment2 ex_world2))
    = (Ok s2, w2)
    /\ index.entries (segment.index s2)
       = index.entries (segment.index ex_segment2)
    /\ segment.nextOffset s2
       = match index.Read (segment.index s2) (-1) with
         | (off, _, None) => wrap64 (wrap64 (16 + off) + 1)
         | (_, _, Some _) => 16
         end
    /\ segment.nextOffset s2 = wrap64 (16 + Z.of_nat 2)
    /\ (2%nat = 0%nat -> segment.nextOffset s2 = 16)
    /\ (forall r off s3 r3 w3,
          @segment.Append fixed_proto s2 r w2 = ((off, None), s3, r3, w3) ->
          off = wrap64 (16 + Z.of_nat 2)).
Proof.
  apply (@reopen_recovers_nextOffset fixed_proto "d" 16 ex_config 2
           ex_segment2 ex_world2
           (fst (fst (segment.Close ex_segment2 ex_world2)))
           (snd (fst (segment.Close ex_segment2 ex_world2)))).
  - unfold uint64, two64. lia.
  - exact ex_reach2.
  - unfold two32. simpl. lia.
  - reflexivity.
Defined.

(** The reopened segment of the example continues at offset 18. *)
Example reopen_example :
  fst (newSegment "d" 16 ex_config (snd (segment.Close ex_segment2 ex_world2)))
  = Ok (segment.mk (store.mk ex_store_file bufio.NewWriter 35)
          (index.mk ex_index_file [(0, 0); (1, 18)] 24 120) 16 18 ex_config).
Proof. vm_compute. reflexivity. Qed.

(** * Reading back *)

Lemma os_ReadAt_at f w pre x rest :
  os.closed f = false ->
  files w !! os.Name f = Some (pre ++ x ++ rest) ->
  len pre + len x < two63 ->
  os.ReadAt f (len x) (len pre) w = (x, None).
Proof.
  intros Hc Hd Hfit. unfold os.ReadAt. rewrite Hc, Hd.
  pose proof (len_nonneg pre) as Hpre. pose proof (len_nonneg x) as Hx.
  pose proof (len_nonneg rest) as Hrest.
  destruct (Z.ltb_spec (len pre) 0); [lia|].
  destruct (Z.eqb_spec (len x) 0) as [Hz|Hnz].
  { apply len_zero_nil in Hz. subst x. reflexivity. }
  destruct (Z.leb_spec two63 (len pre + len x)); [lia|].
  rewrite !len_app.
  destruct (Z.leb_spec (len pre + (len x + len rest)) (len pre)); [lia|].
  rewrite from_app, len_app.
  destruct (Z.ltb_spec (len x + len rest) (len x)); [lia|].
  rewrite upto_app. reflexivity.
Qed.

Lemma frame_at_app c pos p extra :
  frame_at c pos p -> frame_at (c ++ extra) pos p.
Proof.
  intros (pre & rest & -> & Hlen). exists pre, (rest ++ extra).
  split; [|exact Hlen]. rewrite <- !app_assoc. reflexivity.
Qed.

Lemma frame_at_end c p : frame_at (c ++ binary.PutUint64 (len p) ++ p) (len c) p.
Proof.
  exists c, []. split; [|reflexivity]. rewrite app_nil_r. reflexivity.
Qed.

(** [store.Read] at the position of an entry returns its bytes, when
    the buffered bytes can be flushed. *)
Lemma store_Read_at s pos w c p :
  world_ok w -> store_live w s -> stored w s = Some c ->
  len c <= quota w -> frame_at c pos p ->
  exists s' w',
    store.Read s pos w = (Ok p, s', w')
    /\ store_live w' s' /\ stored w' s' = Some c
    /\ quota w' = quota w
    /\ frame (os.Name (store.File s)) w w'.
Proof.
  intros Hw (He & Hcl & Hok) Hst Hroom (pre & rest & Hc & Hpos).
  destruct (Hok He) as (d & Hd & Hsz & Hlen & Hq).
  unfold stored in Hst. rewrite Hd in Hst. injection Hst as Hst.
  assert (Hroom' : len d + len (bufio.buf (store.buf s)) <= quota w).
  { rewrite <- Hst, len_app in Hroom. exact Hroom. }
  destruct (Flush_room _ _ _ _ He Hcl Hd Hroom') as (w1 & HF & Hd1 & Hfr).
  rewrite Hst in Hd1.
  unfold store.Read. rewrite HF.
  unfold world_ok in Hw. destruct Hfr as [Hq1 Hfr1].
  pose proof (len_nonneg pre) as Hpre. pose proof (len_nonneg p) as Hp.
  pose proof (len_nonneg rest) as Hrest.
  assert (Hlc : len c = len pre + (8 + (len p + len rest))).
  { rewrite Hc, !len_app. reflexivity. }
  assert (Hto1 : to_int64 pos = len pre).
  { rewrite <- Hpos. apply to_int64_small. lia. }
  assert (Hto2 : to_int64 (wrap64 (pos + store.lenWidth)) = len (pre ++ binary.PutUint64 (len p))).
  { rewrite len_app. change (len (binary.PutUint64 (len p))) with 8.
    unfold store.lenWidth. rewrite <- Hpos.
    rewrite wrap64_small by (unfold uint64, two64, two63 in *; lia).
    apply to_int64_small. lia. }
  rewrite Hto1.
  change store.lenWidth with (len (binary.PutUint64 (len p))).
  rewrite (os_ReadAt_at _ w1 pre (binary.PutUint64 (len p)) (p ++ rest));
    [|exact Hcl|rewrite Hd1, Hc; reflexivity
     |change (len (binary.PutUint64 (len p))) with 8; lia].
  rewrite Uint64_PutUint64 by (unfold uint64, two64, two63 in *; lia).
  destruct (Z.leb_spec two63 (len p)); [lia|].
  change (len (binary.PutUint64 (len p))) with store.lenWidth.
  rewrite Hto2.
  rewrite (os_ReadAt_at _ w1 (pre ++ binary.PutUint64 (len p)) p rest);
    [|exact Hcl|rewrite Hd1, Hc, <- !app_assoc; reflexivity
     |rewrite len_app; change (len (binary.PutUint64 (len p))) with 8; lia].
  do 2 eexists. split; [reflexivity|].
  assert (Hst' : stored w1 (store.mk (store.File s) (bufio.mkWriter None [])
                              (store.size s)) = Some c).
  { unfold stored. simpl. rewrite Hd1, app_nil_r. reflexivity. }
  split; [|split; [exact Hst'|split; [exact Hq1|split; assumption]]].
  split; [reflexivity|]. split; [exact Hcl|].
  intros _. simpl. exists c. rewrite len_nil.
  split; [exact Hd1|]. split; [rewrite Hsz, <- Hst, len_app; lia|].
  split; [unfold bufio.defaultBufSize; lia|lia].
Qed.

(** The writer's error is sticky. *)
Lemma Write_sticky b f p w e :
  bufio.err b = Some e -> bufio.Write b f p w = ((0, Some e), b, w).
Proof.
  intros He. unfold bufio.Write, bufio.Write_fuel. simpl.
  rewrite He. simpl. rewrite andb_false_r. rewrite He. reflexivity.
Qed.

Lemma store_Append_sticky s p w r s' w' :
  bufio.err (store.buf s) <> None ->
  store.Append s p w = (r, s', w') ->
  bufio.err (store.buf s') <> None.
Proof.
  intros He. destruct (bufio.err (store.buf s)) as [e|] eqn:Hb;
    [|contradiction].
  unfold store.Append, binary_Write. rewrite (Write_sticky _ _ _ _ _ Hb).
  intros [= <- <- <-]. simpl. congruence.
Qed.

Lemma segment_Append_sticky {proto : Proto} s r w ret s' r' w' :
  bufio.err (store.buf (segment.store s)) <> None ->
  segment.Append s r w = (ret, s', r', w') ->
  bufio.err (store.buf (segment.store s')) <> None.
Proof.
  intros He. unfold segment.Append.
  destruct (Marshal _) as [p|e0]; [|intros [= <- <- <- <-]; exact He].
  destruct (store.Append (segment.store s) p w)
    as [[[[n0 pos] e1] st] w1] eqn:HA.
  apply store_Append_sticky in HA; [|exact He].
  destruct (index.Write _ _ pos) as [[e2|] ix];
    intros [= <- <- <- <-]; exact HA.
Qed.

Lemma appends_sticky {proto : Proto} rs : forall s w out s' w',
  bufio.err (store.buf (segment.store s)) <> None ->
  appends s rs w = (out, s', w') ->
  bufio.err (store.buf (segment.store s')) <> None.
Proof.
  induction rs as [|r rs IH]; intros s w out s' w' He; simpl.
  - intros [= <- <- <-]. exact He.
  - destruct (segment.Append s r w) as [[[ret s1] r1] w1] eqn:HA.
    destruct (appends s1 rs w1) as [[out1 s2] w2] eqn:HR.
    intros [= <- <- <-]. eapply IH; [|exact HR].
    eapply segment_Append_sticky; eauto.
Qed.

(** A successful [Append] whose store append did not fail adds its
    record to the log. *)
Lemma Append_log_inv {proto : Proto} s r w off s' r' w' log :
  world_ok w -> uint64 (segment.nextOffset s) -> log_inv w s log ->
  segment.Append s r w = ((off, None), s', r', w') ->
  bufio.err (store.buf (segment.store s')) = None ->
  log_inv w' s' (log ++ [r']) /\ world_ok w'.
Proof.
  intros Hw Hu ((He & Hcl & Hok) & c & Hst & Hlen & Hlog).
  unfold segment.Append.
  destruct (Marshal _) as [p|e0] eqn:HM; [|discriminate].
  destruct (store.Append (segment.store s) p w)
    as [[[[n0 pos] e1] st] w1] eqn:HA.
  destruct (index.Write _ _ pos) as [e2 ix] eqn:HW.
  apply index_Write_inv in HW. destruct HW as (_ & _ & HW).
  destruct e2 as [e2|]; [discriminate|].
  destruct HW as (Hent & _). intros [= <- <- <- <-]. simpl. intros He'.
  destruct (store_Append_inv _ _ _ _ _ _ _ _ Hw Hok HA)
    as ([Hq _] & HF & Hok' & HI).
  destruct e1 as [e1|]; [destruct HI as (_ & _ & _ & HI & _); congruence|].
  destruct HI as (_ & -> & _ & _ & _ & c0 & Hst0 & Hst' & Hlc).
  rewrite Hst in Hst0. injection Hst0 as <-.
  split; [|unfold world_ok in *; rewrite Hq; exact Hw].
  split; [split; [exact He'|split; [simpl; rewrite HF; exact Hcl|exact Hok']]|].
  exists (c ++ binary.PutUint64 (len p) ++ p). simpl.
  split; [exact Hst'|]. rewrite Hent.
  split; [rewrite !length_app, Hlen; reflexivity|].
  intros i r0 Hi.
  destruct (Nat.lt_ge_cases i (length log)) as [Hlt|Hge].
  - rewrite lookup_app_l in Hi by exact Hlt.
    destruct (Hlog i r0 Hi) as (Huo & o & q & p0 & Hei & Hm & Hfa).
    split; [exact Huo|]. exists o, q, p0.
    rewrite lookup_app_l by (rewrite Hlen; exact Hlt).
    split; [exact Hei|]. split; [exact Hm|]. apply frame_at_app. exact Hfa.
  - rewrite lookup_app_r in Hi by exact Hge.
    destruct (i - length log)%nat as [|k] eqn:Hk; simpl in Hi;
      [|destruct k; discriminate].
    injection Hi as <-. simpl. split; [exact Hu|].
    do 3 eexists. rewrite lookup_app_r by (rewrite Hlen; exact Hge).
    rewrite Hlen, Hk. simpl. split; [reflexivity|]. split; [exact HM|].
    rewrite <- Hlc. apply frame_at_end.
Qed.

Lemma appends_log {proto : Proto} rs : forall s w log out s' w',
  world_ok w -> uint64 (segment.nextOffset s) -> log_inv w s log ->
  appends s rs w = (out, s', w') ->
  Forall (fun x => ret_error x = None) out ->
  bufio.err (store.buf (segment.store s')) = None ->
  log_inv w' s' (log ++ map ret_record out) /\ world_ok w'
  /\ map (fun x => api.Value (ret_record x)) out = map api.Value rs.
Proof.
  induction rs as [|r rs IH]; intros s w log out s' w' Hw Hu Hinv; simpl.
  - intros [= <- <- <-] _ _. simpl. rewrite app_nil_r. auto.
  - destruct (segment.Append s r w) as [[[[off e] s1] r1] w1] eqn:HA.
    destruct (appends s1 rs w1) as [[out1 s2] w2] eqn:HR.
    intros [= <- <- <-] Hall He'. inversion Hall as [|x l Hx Hl]; subst.
    unfold ret_error in Hx. simpl in Hx. subst e.
    assert (He1 : bufio.err (store.buf (segment.store s1)) = None).
    { destruct (bufio.err (store.buf (segment.store s1))) eqn:Hb;
        [|reflexivity].
      exfalso. eapply appends_sticky; [|exact HR|exact He'].
      rewrite Hb. discriminate. }
    destruct (Append_log_inv _ _ _ _ _ _ _ _ Hw Hu Hinv HA He1)
      as [Hinv1 Hw1].
    pose proof (Append_ok_inv _ _ _ _ _ _ _ HA) as (_ & Hr1 & Hn & _).
    destruct (IH s1 w1 (log ++ [r1]) out1 s2 w2) as (Hinv2 & Hw2 & Hvals);
      auto.
    { rewrite Hn. apply wrap64_range. }
    simpl. rewrite <- app_assoc in Hinv2. simpl in Hinv2.
    split; [exact Hinv2|]. split; [exact Hw2|].
    f_equal; [rewrite Hr1; reflexivity|exact Hvals].
Qed.

Lemma appends_seg_inv {proto : Proto} dir B c rs : forall s w out s' w',
  uint64 B -> seg_inv dir B c s ->
  appends s rs w = (out, s', w') ->
  seg_inv dir B c s' /\ length out = length rs.
Proof.
  induction rs as [|r rs IH]; intros s w out s' w' HB Hinv; simpl.
  - intros [= <- <- <-]. auto.
  - destruct (segment.Append s r w) as [[[[off e] s1] r1] w1] eqn:HA.
    destruct (appends s1 rs w1) as [[out1 s2] w2] eqn:HR.
    intros [= <- <- <-].
    destruct (Append_seg_inv _ _ _ _ _ _ _ _ _ _ _ HB Hinv HA) as [Hinv1 _].
    destruct (IH _ _ _ _ _ HB Hinv1 HR) as [Hinv2 Hlen].
    simpl. auto.
Qed.

(** Reading the offset of record [i] of the log returns that record. *)
Lemma Read_log {proto : Proto} dir B c s w log (i : nat) r :
  proto_lawful proto -> world_ok w -> uint64 B ->
  seg_inv dir B c s -> log_inv w s log ->
  store.size (segment.store s) <= quota w ->
  log !! i = Some r ->
  exists s' w',
    segment.Read s (wrap64 (B + Z.of_nat i)) w = ((Some r, None), s', w')
    /\ seg_inv dir B c s' /\ log_inv w' s' log /\ world_ok w'
    /\ store.size (segment.store s') <= quota w'.
Proof.
  intros Hlaw Hw HB Hinv Hlog Hroom Hi.
  pose proof Hinv as (Hb & _ & _ & _ & _ & _ & Hsz & Hlt & _).
  destruct Hlog as (Hlive & cnt & Hst & Hlen & Hall).
  destruct (Hall i r Hi) as (Huo & off & pos & p & Hei & Hm & Hfa).
  assert (Hil : (i < length (index.entries (segment.index s)))%nat).
  { eapply lookup_lt_Some. exact Hei. }
  rewrite entWidth_12 in Hsz. unfold len in Hsz.
  assert (Hin : to_int64 (wrap64 (wrap64 (B + Z.of_nat i)
                                  - segment.baseOffset s)) = Z.of_nat i).
  { rewrite Hb, wrap64_sub_cancel.
    rewrite wrap64_small by (unfold uint64, two64 in *; lia).
    apply to_int64_small. unfold two63, two64 in *. lia. }
  assert (Hlc : len cnt <= quota w).
  { destruct Hlive as (He & _ & Hok).
    destruct (Hok He) as (d & Hd & Hs & _).
    unfold stored in Hst. rewrite Hd in Hst. injection Hst as <-.
    rewrite len_app. lia. }
  destruct (store_Read_at _ _ _ _ _ Hw Hlive Hst Hlc Hfa)
    as (st & w1 & HR & Hlive1 & Hst1 & Hq1 & _).
  pose proof (store_Read_shape _ _ _ _ _ _ HR) as [HF1 Hs1].
  assert (HRd : segment.Read s (wrap64 (B + Z.of_nat i)) w
          = ((Some r, None),
             segment.mk st (segment.index s) (segment.baseOffset s)
               (segment.nextOffset s) (segment.config s), w1)).
  { unfold segment.Read. rewrite Hin.
    rewrite (index_Read_at _ _ _ Hei). simpl fst. simpl snd.
    rewrite HR. rewrite (Hlaw r p Huo Hm). reflexivity. }
  do 2 eexists. split; [exact HRd|].
  destruct (Read_seg_inv _ _ _ _ _ _ _ _ _ Hinv HRd) as [Hinv1 _].
  split; [exact Hinv1|]. split.
  { split; [exact Hlive1|]. exists cnt. simpl. auto. }
  split; [unfold world_ok in *; rewrite Hq1; exact Hw|].
  simpl. rewrite Hs1, Hq1. exact Hroom.
Qed.

Lemma reads_log {proto : Proto} dir B c log idxs : forall s w,
  proto_lawful proto -> world_ok w -> uint64 B ->
  seg_inv dir B c s -> log_inv w s log ->
  store.size (segment.store s) <= quota w ->
  Forall (fun i => (i < length log)%nat) idxs ->
  exists s' w',
    reads s (map (fun i => wrap64 (B + Z.of_nat i)) idxs) w
    = (map (fun i => (log !! i, None)) idxs, s', w').
Proof.
  induction idxs as [|i idxs IH]; intros s w Hlaw Hw HB Hinv Hlog Hroom Hall.
  - simpl. eauto.
  - inversion Hall as [|x l Hi Hl]; subst.
    destruct (lookup_lt_is_Some_2 log i Hi) as [r Hr].
    destruct (Read_log _ _ _ _ _ _ _ _ Hlaw Hw HB Hinv Hlog Hroom Hr)
      as (s1 & w1 & HR & Hinv1 & Hlog1 & Hw1 & Hroom1).
    destruct (IH s1 w1 Hlaw Hw1 HB Hinv1 Hlog1 Hroom1 Hl) as (s2 & w2 & HRs).
    exists s2, w2. simpl. rewrite HR, HRs, Hr. reflexivity.
Qed.

Lemma map_lookup_seq {A} (l pre : list A) :
  map (fun i => (pre ++ l) !! i) (seq (length pre) (length l)) = map Some l.
Proof.
  revert pre. induction l as [|x l IH]; intros pre; [reflexivity|].
  simpl. f_equal.
  - apply list_lookup_middle. reflexivity.
  - specialize (IH (pre ++ [x])). rewrite <- app_assoc in IH. simpl in IH.
    rewrite length_app in IH. simpl in IH.
    rewrite Nat.add_1_r in IH. exact IH.
Qed.

Lemma fresh_log_inv {proto : Proto} dir B c w0 s w :
  uint64 B -> world_ok w0 ->
  files w0 !! store_name dir B = None ->
  files w0 !! index_name dir B = None ->
  newSegment dir B c w0 = (Ok s, w) ->
  seg_inv dir B c s /\ log_inv w s [] /\ world_ok w
  /\ segment.nextOffset s = B.
Proof.
  intros HB Hw Hs0 Hi0 Hnew.
  assert (Hdisk : disk_ok dir B w0 0).
  { unfold disk_ok. rewrite Hi0. reflexivity. }
  destruct (newSegment_inv _ _ _ _ _ _ _ HB Hdisk Hnew) as (Hinv & _ & _).
  destruct (newSegment_eq dir B c w0) as (w' & d & Heq & Hsf & Hd & _ & Hq).
  rewrite Heq in Hnew. injection Hnew as <- <-.
  rewrite Hs0 in Hd. simpl in Hd. subst d.
  assert (Hw' : world_ok w') by (unfold world_ok in *; rewrite Hq; exact Hw).
  assert (Hde : disk_entries dir B w0 = []).
  { unfold disk_entries. rewrite Hi0. reflexivity. }
  split; [exact Hinv|]. split; [|split; [exact Hw'|]].
  - split.
    + split; [reflexivity|]. split; [reflexivity|].
      intros _. exists []. simpl. rewrite Hsf.
      unfold world_ok in Hw'. unfold bufio.defaultBufSize.
      split_and!; try reflexivity; try (rewrite len_nil; lia).
    + exists []. unfold stored. simpl. rewrite Hsf, Hde.
      split; [reflexivity|]. split; [reflexivity|].
      intros i r Hi. destruct i; discriminate.
  - simpl. rewrite Hde. reflexivity.
Qed.


Lemma fixed_proto_lawful : proto_lawful fixed_proto.
Proof.
  intros r p Hu HM. change (fixed_Marshal r = Ok p) in HM.
  change (fixed_Unmarshal p = (r, None)).
  assert (Hp : p = binary.PutUint64 (api.Offset r) ++ api.Value r)
    by (unfold fixed_Marshal in HM; congruence).
  subst p. clear HM. unfold fixed_Unmarshal.
  rewrite len_app. change (len (binary.PutUint64 (api.Offset r))) with 8.
  pose proof (len_nonneg (api.Value r)).
  destruct (Z.ltb_spec (8 + len (api.Value r)) 8); [lia|].
  change 8 with (len (binary.PutUint64 (api.Offset r))) at 1.
  rewrite from_app.
  change (binary.Uint64 (binary.PutUint64 (api.Offset r) ++ api.Value r))
    with (binary.Uint64 (binary.PutUint64 (api.Offset r))).
  rewrite Uint64_PutUint64 by exact Hu. destruct r; reflexivity.
Qed.



(** * Beyond the 32 bits of the index's offset field *)

(** On a device with room, as long as the index has room too, every
    [Append] of the two-byte record succeeds, store append included: it
    adds 18 bytes to the store and one entry to the index. *)
Lemma reach_many (c : Config) (n : nat) :
  12 * Z.of_nat n <= index_cap c -> 18 * Z.of_nat n <= two32 * 32 ->
  exists s w,
    @reach fixed_proto "d" 16 c n s w
    /\ store_live w (segment.store s)
    /\ store.size (segment.store s) = 18 * Z.of_nat n
    /\ quota w = two63 - 1.
Proof.
  assert (HB : uint64 16) by (unfold uint64, two64; lia).
  assert (Hw0 : world_ok roomy_world)
    by (unfold world_ok, roomy_world, two63; cbn [quota]; lia).
  induction n as [|n IH]; intros Hcap Hroom.
  - destruct (newSegment_eq "d" 16 c roomy_world)
      as (w & d & Heq & _ & Hd & _ & Hq).
    assert (Hd0 : d = []) by (rewrite Hd; vm_compute; reflexivity).
    clear Hd. subst d.
    destruct (@fresh_log_inv fixed_proto "d" 16 c roomy_world _ w HB Hw0
                eq_refl eq_refl Heq) as (_ & [Hlive _] & _ & _).
    do 2 eexists. split.
    { apply (reach_new "d" 16 c roomy_world 0); [|exact Heq].
      vm_compute. reflexivity. }
    split; [exact Hlive|]. split; [reflexivity|]. exact Hq.
  - destruct IH as (s & w & Hr & Hlive & Hsize & Hq); [lia|lia|].
    destruct (reach_inv _ _ _ _ _ _ HB Hr) as [Hinv Hlen].
    destruct Hinv as (_ & _ & _ & _ & _ & _ & Hsz & _ & Hc & _).
    rewrite entWidth_12 in Hsz. unfold len in Hsz. rewrite Hlen in Hsz.
    assert (Hw : world_ok w)
      by (unfold world_ok, two63 in *; rewrite Hq; lia).
    destruct Hlive as (He & Hcl & Hok).
    destruct (@segment.Append fixed_proto s ex_record1 w)
      as [[[[off e] s'] r'] w'] eqn:HA.
    pose proof HA as HA'. unfold segment.Append in HA'.
    change (@Marshal fixed_proto) with fixed_Marshal in HA'.
    unfold fixed_Marshal in HA'. cbn [api.Offset api.Value ex_record1] in HA'.
    set (p := binary.PutUint64 (segment.nextOffset s) ++ [x68; x69]) in HA'.
    assert (Hp : len p = 10) by reflexivity.
    destruct (store.Append (segment.store s) p w)
      as [[[[n0 pos] e1] st] w1] eqn:HS.
    destruct (store_Append_inv _ _ _ _ _ _ _ _ Hw Hok HS)
      as ([Hq1 _] & HF & Hok1 & HI).
    destruct e1 as [e1|].
    { exfalso. destruct HI as (_ & _ & _ & _ & [HI|HI]); [congruence|].
      destruct (Hok He) as (d & Hd & Hs & _ & _).
      destruct HI as [HI|[HI|(d0 & Hd0 & HI)]]; try congruence.
      rewrite Hd in Hd0. injection Hd0 as <-.
      unfold store.lenWidth, two63, two32 in *. lia. }
    destruct HI as (_ & _ & Hsize1 & _ & He1 & _).
    unfold index.Write in HA'. rewrite Hsz, Hc, entWidth_12 in HA'.
    destruct (Z.ltb_spec (index_cap c) (12 * Z.of_nat n + 12)); [lia|].
    injection HA' as <- <- <- <- <-.
    do 2 eexists. split.
    { eapply (@reach_Append_ok fixed_proto "d" 16 c n s w); eauto. }
    split; [split; [exact He1|split; [simpl; rewrite HF; exact Hcl|exact Hok1]]|].
    split; [|congruence].
    simpl. rewrite Hsize1, Hsize, Hp. unfold store.lenWidth. lia.
Qed.

(** What a reopened segment recovers, whatever the number of records. *)
Lemma reopen_general {proto : Proto} dir B c K s w e s1 w1 :
  uint64 B -> reach dir B c K s w ->
  segment.Close s w = (e, s1, w1) ->
  exists s2 w2,
    newSegment dir B c w1 = (Ok s2, w2)
    /\ segment.nextOffset s2
       = recovered B (index.entries (segment.index s)).
Proof.
  intros HB Hr HC.
  destruct (reach_inv _ _ _ _ _ _ HB Hr) as [Hinv Hlen].
  pose proof (segment_Close_disk _ _ _ _ _ _ _ _ Hinv HC) as Hdisk.
  assert (Hes : entries_ok (index.entries (segment.index s)))
    by (destruct Hinv as (_ & _ & _ & _ & _ & H & _); exact H).
  destruct (newSegment_eq dir B c w1) as (w2 & d & Heq & _).
  do 2 eexists. split; [exact Heq|]. simpl.
  unfold disk_entries. rewrite Hdisk.
  rewrite decode_encode by (apply entries_ok_ranges; exact Hes).
  reflexivity.
Qed.

(** C6, the claim as stated fails: a segment of base offset 16 to which
    [2^32 + 1] records were appended, every store append succeeding,
    writes the relative offset of its last record, [2^32], into the 32
    bits of the entry as 0; closed and reopened, it takes
    [16 + 0 + 1 = 17] for its next offset, not [16 + 2^32 + 1]. *)
Lemma reopen_forgets_beyond_32_bits :
  exists (K : nat) s w e s1 w1 s2 w2,
    Z.of_nat K = two32 + 1
    /\ @reach fixed_proto "d" 16 big_config K s w
    /\ bufio.err (store.buf (segment.store s)) = None
    /\ segment.Close s w = (e, s1, w1)
    /\ newSegment "d" 16 big_config w1 = (Ok s2, w2)
    /\ segment.nextOffset s2 = 17
    /\ segment.nextOffset s2 <> wrap64 (16 + Z.of_nat K).
Proof.
  assert (HB : uint64 16) by (unfold uint64, two64; lia).
  assert (HK : Z.of_nat (Z.to_nat (two32 + 1)) = two32 + 1).
  { apply Z2Nat.id. unfold two32. lia. }
  remember (Z.to_nat (two32 + 1)) as K eqn:HeqK. clear HeqK.
  assert (Hcap : index_cap big_config = 12 * (two32 + 1))
    by (vm_compute; reflexivity).
  destruct (reach_many big_config K) as (s & w & Hr & Hlive & _);
    [rewrite Hcap; lia|unfold two32 in *; lia|].
  destruct (segment.Close s w) as [[e s1] w1] eqn:HC.
  destruct (reopen_general _ _ _ _ _ _ _ _ _ HB Hr HC) as (s2 & w2 & Hnew & Hn).
  destruct (reach_inv _ _ _ _ _ _ HB Hr) as [Hinv Hlen].
  assert (Hes : entries_ok (index.entries (segment.index s)))
    by (destruct Hinv as (_ & _ & _ & _ & _ & H & _); exact H).
  assert (H17 : segment.nextOffset s2 = 17).
  { rewrite Hn. unfold recovered. rewrite last_lookup, Hlen.
    destruct (index.entries (segment.index s) !! Nat.pred K)
      as [[off pos]|] eqn:Hl.
    - destruct (Hes _ _ Hl) as [Hoff _]. simpl in Hoff. subst off.
      replace (Z.of_nat (Nat.pred K)) with two32
        by (unfold two32 in *; lia).
      vm_compute. reflexivity.
    - apply lookup_ge_None in Hl. unfold two32 in HK. lia. }
  exists K, s, w, e, s1, w1, s2, w2.
  split; [exact HK|]. split; [exact Hr|].
  split; [destruct Hlive as [H _]; exact H|]. split; [exact HC|].
  split; [exact Hnew|]. split; [exact H17|].
  rewrite H17, HK. vm_compute. discriminate.
Qed.

(** * Reads out of range *)

(** Apart from the offset just below the base, which the index takes
    for -1, an offset outside [baseOffset, nextOffset) is not found and
    the call leaves the segment as it was. *)
Lemma Read_out_of_range {proto : Proto} dir B c s off w :
  uint64 B -> uint64 off -> seg_inv dir B c s ->
  B + len (index.entries (segment.index s)) <= two64 ->
  off < B \/ B + len (index.entries (segment.index s)) <= off ->
  wrap64 (off - B) <> two64 - 1 ->
  segment.Read s off w = ((None, Some ErrNotFound), s, w).
Proof.
  intros HB Ho Hinv Hno Hout Hne.
  destruct Hinv as (Hb & _).
  pose proof (len_nonneg (index.entries (segment.index s))) as HK.
  pose proof (wrap64_range (off - B)) as Hu.
  assert (HKu : len (index.entries (segment.index s)) <= wrap64 (off - B)).
  { destruct Hout as [Hlt|Hge].
    - assert (Hw : wrap64 (off - B) = off - B + two64).
      { unfold wrap64. rewrite <- (Z.mod_add (off - B) 1 two64)
          by (unfold two64; lia).
        apply Z.mod_small. unfold uint64 in *. lia. }
      rewrite Hw. unfold uint64 in *. lia.
    - rewrite wrap64_small by (unfold uint64 in *; lia). lia. }
  unfold segment.Read. rewrite Hb.
  rewrite index_Read_out_of_range; [reflexivity| |].
  - unfold to_int64. rewrite (wrap64_small _ Hu).
    destruct (Z.ltb_spec (wrap64 (off - B)) two63); unfold uint64 in *; lia.
  - unfold to_int64. rewrite (wrap64_small _ Hu).
    destruct (Z.ltb_spec (wrap64 (off - B)) two63);
      unfold uint64, two63, two64 in *; lia.
Qed.

(** A segment without records finds no offset at all. *)
Lemma Read_empty {proto : Proto} s off w :
  index.entries (segment.index s) = [] ->
  segment.Read s off w = ((None, Some ErrNotFound), s, w).
Proof.
  intros He. unfold segment.Read. rewrite index_Read_empty by exact He.
  reflexivity.
Qed.

(** * The store: reading back, failures, closing *)

Lemma store_Append_live s p w n pos s1 w1 :
  world_ok w -> store_live w s ->
  store.Append s p w = ((n, pos, None), s1, w1) ->
  store_live w1 s1 /\ world_ok w1 /\ pos = store.size s
  /\ store.size s1 = store.size s + 8 + len p
  /\ exists c, stored w s = Some c /\ len c = store.size s
       /\ stored w1 s1 = Some (c ++ binary.PutUint64 (len p) ++ p).
Proof.
  intros Hw (He & Hcl & Hok) HA.
  destruct (store_Append_inv _ _ _ _ _ _ _ _ Hw Hok HA)
    as ([Hq _] & HF & Hok1 & _ & Hpos & Hsz & _ & He1 & c & Hst & Hst1 & Hlc).
  split; [split; [exact He1|split; [rewrite HF; exact Hcl|exact Hok1]]|].
  split; [unfold world_ok in *; rewrite Hq; exact Hw|].
  split; [exact Hpos|]. split; [exact Hsz|]. exists c. auto.
Qed.

Lemma stored_len w s c :
  store_live w s -> stored w s = Some c -> len c = store.size s.
Proof.
  intros (He & _ & Hok) Hst. destruct (Hok He) as (d & Hd & Hs & _).
  unfold stored in Hst. rewrite Hd in Hst. injection Hst as <-.
  rewrite len_app. lia.
Qed.

(** X1: the bytes that [store.Append] accepted are what [store.Read]
    returns at the position that [Append] gave, whether they are in the
    file or still in the write buffer, as long as the file can take the
    buffered bytes; and every entry that could be read before the
    [Append] reads the same after it. *)
Theorem store_Append_Read (s : store.t) (p : list byte) (w : World)
    (n pos : Z) (s1 : store.t) (w1 : World) :
  world_ok w -> store_live w s ->
  store.Append s p w = ((n, pos, None), s1, w1) ->
  store.size s1 <= quota w1 ->
  (exists s2 w2, store.Read s1 pos w1 = (Ok p, s2, w2))
  /\ (forall c pos0 p0, stored w s = Some c -> frame_at c pos0 p0 ->
        exists s2 w2, store.Read s1 pos0 w1 = (Ok p0, s2, w2)).
Proof.
  intros Hw Hlive HA Hroom.
  destruct (store_Append_live _ _ _ _ _ _ _ Hw Hlive HA)
    as (Hlive1 & Hw1 & Hpos & Hsz & c & Hst & Hlc & Hst1).
  assert (Hlc1 : len (c ++ binary.PutUint64 (len p) ++ p) <= quota w1).
  { rewrite (stored_len _ _ _ Hlive1 Hst1). exact Hroom. }
  split.
  - destruct (store_Read_at s1 pos w1 _ p Hw1 Hlive1 Hst1 Hlc1)
      as (s2 & w2 & HR & _).
    { rewrite Hpos, <- Hlc. apply frame_at_end. }
    eauto.
  - intros c0 pos0 p0 Hst0 Hfa. rewrite Hst in Hst0. injection Hst0 as <-.
    destruct (store_Read_at s1 pos0 w1 _ p0 Hw1 Hlive1 Hst1 Hlc1)
      as (s2 & w2 & HR & _).
    { apply frame_at_app. exact Hfa. }
    eauto.
Qed.

Lemma ex_world_ok : world_ok (opened ex_world).
Proof. unfold world_ok, two63. simpl. lia. Qed.

Lemma ex_store_live : store_live (opened ex_world) ex_store.
Proof.
  split; [reflexivity|]. split; [reflexivity|].
  intros _. exists []. split; [reflexivity|].
  unfold bufio.defaultBufSize, len. simpl. lia.
Qed.

Lemma store_Append_Read_witness :
  let r := store.Append ex_store ex_payload1 (opened ex_world) in
  (exists s2 w2,
     store.Read (snd (fst r)) 0 (snd r) = (Ok ex_payload1, s2, w2))
  /\ (forall c pos0 p0, stored (opened ex_world) ex_store = Some c ->
        frame_at c pos0 p0 ->
        exists s2 w2, store.Read (snd (fst r)) pos0 (snd r) = (Ok p0, s2, w2)).
Proof.
  intros r.
  apply (store_Append_Read ex_store ex_payload1 (opened ex_world) 11 0
           (snd (fst r)) (snd r)).
  - exact ex_world_ok.
  - exact ex_store_live.
  - reflexivity.
  - vm_compute. discriminate.
Defined.

Lemma Flush_sticky b f w e :
  bufio.err b = Some e -> bufio.Flush b f w = (Some e, b, w).
Proof. intros He. unfold bufio.Flush. rewrite He. reflexivity. Qed.

(** X2: a failed [store.Append] returns [(0, 0, err)] and leaves [size]
    as it was, and the store is lost to it: every later [Append],
    [Read], [ReadAt] and [Close] returns the same error and changes
    nothing. *)
Theorem store_Append_failure_sticky (s : store.t) (p : list byte) (w : World)
    (n pos : Z) (e : error) (s1 : store.t) (w1 : World) :
  store_ok w s ->
  store.Append s p w = ((n, pos, Some e), s1, w1) ->
  n = 0 /\ pos = 0 /\ store.size s1 = store.size s
  /\ (forall p', store.Append s1 p' w1 = ((0, 0, Some e), s1, w1))
  /\ (forall pos', store.Read s1 pos' w1 = (Err e, s1, w1))
  /\ (forall n' off, store.ReadAt s1 n' off w1 = (([], Some e), s1, w1))
  /\ store.Close s1 w1 = (Some e, s1, w1).
Proof.
  intros Hok HA.
  assert (H : n = 0 /\ pos = 0 /\ store.size s1 = store.size s
              /\ bufio.err (store.buf s1) = Some e).
  { revert HA. unfold store.Append, binary_Write.
    destruct (bufio.Write (store.buf s) (store.File s) _ w)
      as [[[n1 e1] b1] w2] eqn:H1.
    apply Write_inv in H1.
    2:{ intros He. destruct (Hok He) as (d & _ & _ & Hb & _). exact Hb. }
    destruct H1 as [_ H1]. destruct e1 as [e1|].
    { intros [= <- <- <- <- <-]. destruct H1 as [H1 _]. auto. }
    destruct H1 as (_ & _ & _ & Hlen1 & _).
    destruct (bufio.Write b1 (store.File s) p w2) as [[[n2 e2] b2] w3] eqn:H2.
    apply Write_inv in H2; [|intros _; exact Hlen1].
    destruct H2 as [_ H2]. destruct e2 as [e2|]; [|discriminate].
    intros [= <- <- <- <- <-]. destruct H2 as [H2 _]. auto. }
  destruct H as (-> & -> & Hsz & He).
  split; [reflexivity|]. split; [reflexivity|]. split; [exact Hsz|].
  destruct s1 as [f1 b1 z1]. simpl in He.
  split; [|split; [|split]].
  - intros p'. unfold store.Append, binary_Write. simpl.
    rewrite (Write_sticky _ _ _ _ _ He). reflexivity.
  - intros pos'. unfold store.Read. simpl.
    rewrite (Flush_sticky _ _ _ _ He). reflexivity.
  - intros n' off. unfold store.ReadAt. simpl.
    rewrite (Flush_sticky _ _ _ _ He). reflexivity.
  - unfold store.Close. simpl.
    rewrite (Flush_sticky _ _ _ _ He). reflexivity.
Qed.

Lemma store_Append_failure_sticky_witness :
  let r := store.Append ex_store (repeat x00 5000) (opened small_world) in
  let s1 := snd (fst r) in
  let w1 := snd r in
  0 = 0 /\ 0 = 0 /\ store.size s1 = store.size ex_store
  /\ (forall p', store.Append s1 p' w1 = ((0, 0, Some ENOSPC), s1, w1))
  /\ (forall pos', store.Read s1 pos' w1 = (Err ENOSPC, s1, w1))
  /\ (forall n' off, store.ReadAt s1 n' off w1 = (([], Some ENOSPC), s1, w1))
  /\ store.Close s1 w1 = (Some ENOSPC, s1, w1).
Proof.
  intros r s1 w1.
  apply (store_Append_failure_sticky ex_store (repeat x00 5000)
           (opened small_world) 0 0 ENOSPC s1 w1).
  - intros _. exists []. split; [reflexivity|].
    unfold bufio.defaultBufSize, len. simpl. lia.
  - vm_compute. reflexivity.
Defined.

(** * The store's file only grows *)

Lemma grows_refl name w : grows name w w.
Proof.
  split; [apply frame_refl|]. destruct (files w !! name) as [d|]; [|reflexivity].
  exists []. rewrite app_nil_r. reflexivity.
Qed.

Lemma grows_trans name w1 w2 w3 :
  grows name w1 w2 -> grows name w2 w3 -> grows name w1 w3.
Proof.
  intros [F1 G1] [F2 G2]. split; [eapply frame_trans; eauto|].
  destruct (files w1 !! name) as [d|].
  - destruct G1 as [x Hx]. rewrite Hx in G2. destruct G2 as [y Hy].
    exists (x ++ y). rewrite Hy, app_assoc. reflexivity.
  - rewrite G1 in G2. exact G2.
Qed.

Lemma os_Write_grows f p w r w' :
  os.Write f p w = (r, w') -> grows (os.Name f) w w'.
Proof.
  unfold os.Write. destruct (os.closed f).
  { intros [= <- <-]. apply grows_refl. }
  destruct (files w !! os.Name f) as [d|] eqn:Hd.
  2:{ intros [= <- <-]. apply grows_refl. }
  destruct (len p <=? quota w - len d); intros [= <- <-];
    (split; [apply frame_set_file|]); rewrite Hd, lookup_set_file; eauto.
Qed.

Lemma Flush_grows b f w r b' w' :
  bufio.Flush b f w = (r, b', w') -> grows (os.Name f) w w'.
Proof.
  unfold bufio.Flush. destruct (bufio.err b).
  { intros [= <- <- <-]. apply grows_refl. }
  destruct (bufio.Buffered b =? 0).
  { intros [= <- <- <-]. apply grows_refl. }
  destruct (os.Write f (bufio.buf b) w) as [[n e] w1] eqn:HW.
  apply os_Write_grows in HW.
  destruct (if (n <? bufio.Buffered b) && is_nil e
            then Some ErrShortWrite else e);
    intros [= <- <- <-]; exact HW.
Qed.

Lemma Write_loop_grows f fuel : forall b p nn w r,
  bufio.Write_loop fuel b f p nn w = Some r ->
  grows (os.Name f) w (snd r).
Proof.
  induction fuel as [|fuel IH]; intros b p nn w r; simpl.
  - destruct ((bufio.Available b <? len p) && is_nil (bufio.err b));
      [discriminate|]. intros [= <-]. apply grows_refl.
  - destruct ((bufio.Available b <? len p) && is_nil (bufio.err b)).
    2:{ intros [= <-]. apply grows_refl. }
    destruct (bufio.Buffered b =? 0).
    + destruct (os.Write f p w) as [[n e] w1] eqn:HW.
      apply os_Write_grows in HW. intros HL. apply IH in HL.
      eapply grows_trans; eauto.
    + destruct (bufio.Flush _ f w) as [[e1 b2] w1] eqn:HF.
      apply Flush_grows in HF. intros HL. apply IH in HL.
      eapply grows_trans; eauto.
Qed.

Lemma Write_grows b f p w r b' w' :
  bufio.Write b f p w = (r, b', w') -> grows (os.Name f) w w'.
Proof.
  unfold bufio.Write.
  destruct (bufio.Write_loop bufio.Write_fuel b f p 0 w)
    as [[[[b1 p1] nn1] w1]|] eqn:HL.
  - apply Write_loop_grows in HL. simpl in HL.
    destruct (bufio.err b1); intros [= <- <- <-]; exact HL.
  - intros [= <- <- <-]. apply grows_refl.
Qed.

Lemma store_do_grows o s w s' w' :
  store_do o s w = (s', w') ->
  grows (os.Name (store.File s)) w w'
  /\ os.Name (store.File s') = os.Name (store.File s).
Proof.
  destruct o as [p|pos|n off|]; simpl.
  - unfold store.Append, binary_Write.
    destruct (bufio.Write (store.buf s) (store.File s) _ w)
      as [[[n1 e1] b1] w1] eqn:H1.
    apply Write_grows in H1.
    destruct e1 as [e1|]; [intros [= <- <-]; auto|].
    destruct (bufio.Write b1 (store.File s) p w1) as [[[n2 e2] b2] w2] eqn:H2.
    apply Write_grows in H2.
    assert (grows (os.Name (store.File s)) w w2)
      by (eapply grows_trans; eauto).
    destruct e2 as [e2|]; intros [= <- <-]; auto.
  - destruct (store.Read s pos w) as [[r s1] w1] eqn:HR.
    intros [= <- <-]. revert HR. unfold store.Read.
    destruct (bufio.Flush (store.buf s) (store.File s) w)
      as [[e b1] w2] eqn:HF.
    apply Flush_grows in HF.
    destruct e as [e|]; [intros [= <- <- <-]; auto|].
    destruct (os.ReadAt (store.File s) store.lenWidth (to_int64 pos) w2)
      as [sz e1].
    destruct e1 as [e1|]; [intros [= <- <- <-]; auto|].
    destruct (two63 <=? binary.Uint64 sz); [intros [= <- <- <-]; auto|].
    destruct (os.ReadAt (store.File s) (binary.Uint64 sz)
                (to_int64 (wrap64 (pos + store.lenWidth))) w2) as [b e2].
    destruct e2 as [e2|]; intros [= <- <- <-]; auto.
  - destruct (store.ReadAt s n off w) as [[r s1] w1] eqn:HR.
    intros [= <- <-]. revert HR. unfold store.ReadAt.
    destruct (bufio.Flush (store.buf s) (store.File s) w)
      as [[e b1] w2] eqn:HF.
    apply Flush_grows in HF.
    destruct e as [e|]; intros [= <- <- <-]; auto.
  - destruct (store.Close s w) as [[r s1] w1] eqn:HC.
    intros [= <- <-]. revert HC. unfold store.Close.
    destruct (bufio.Flush (store.buf s) (store.File s) w)
      as [[e b1] w2] eqn:HF.
    apply Flush_grows in HF.
    destruct e as [e|]; [intros [= <- <- <-]; auto|].
    unfold os.Close. destruct (os.closed (store.File s));
      intros [= <- <- <-]; auto.
Qed.

(** X3: the store is append-only.  Whatever calls of [Append], [Read],
    [ReadAt] and [Close] are made, in any order and with any outcome,
    the bytes that were in the store's file are still there, in front of
    what was added; no other file changes; a missing file is not
    created. *)
Theorem store_file_only_grows (ops : list store_op) (s : store.t) (w : World)
    (s' : store.t) (w' : World) :
  store_run ops s w = (s', w') ->
  (forall name, name <> os.Name (store.File s) ->
     files w' !! name = files w !! name)
  /\ match files w !! os.Name (store.File s) with
     | Some d => exists x, files w' !! os.Name (store.File s) = Some (d ++ x)
     | None => files w' !! os.Name (store.File s) = None
     end.
Proof.
  assert (H : forall ops s w s' w', store_run ops s w = (s', w') ->
                grows (os.Name (store.File s)) w w').
  { clear. induction ops as [|o ops IH]; intros s w s' w'; simpl.
    - intros [= <- <-]. apply grows_refl.
    - destruct (store_do o s w) as [s1 w1] eqn:Hd.
      apply store_do_grows in Hd. destruct Hd as [Hg Hn].
      intros HR. apply IH in HR. rewrite Hn in HR.
      eapply grows_trans; eauto. }
  intros HR. apply H in HR. destruct HR as [[_ Hf] Hg]. auto.
Qed.

(** * The store's invariant along any use *)

Lemma store_do_ok o s w s' w' :
  world_ok w -> store_ok w s -> store_do o s w = (s', w') ->
  store_ok w' s' /\ world_ok w'.
Proof.
  intros Hw Hok. destruct o as [p|pos|n off|]; simpl.
  - destruct (store.Append s p w) as [[[[n0 pos0] e] s1] w1] eqn:HA.
    intros [= <- <-].
    destruct (store_Append_inv _ _ _ _ _ _ _ _ Hw Hok HA)
      as ([Hq _] & _ & Hok1 & _).
    split; [exact Hok1|unfold world_ok in *; rewrite Hq; exact Hw].
  - destruct (store.Read s pos w) as [[r s1] w1] eqn:HR.
    intros [= <- <-].
    destruct (store_Read_ok _ _ _ _ _ _ Hok HR) as (Hok1 & _ & _ & [Hq _]).
    split; [exact Hok1|unfold world_ok in *; rewrite Hq; exact Hw].
  - destruct (store.ReadAt s n off w) as [[r s1] w1] eqn:HR.
    intros [= <- <-].
    destruct (store_ReadAt_ok _ _ _ _ _ _ _ Hok HR) as (Hok1 & _ & _ & [Hq _]).
    split; [exact Hok1|unfold world_ok in *; rewrite Hq; exact Hw].
  - destruct (store.Close s w) as [[r s1] w1] eqn:HC.
    intros [= <- <-].
    destruct (store_Close_ok _ _ _ _ _ Hok HC) as (Hok1 & _ & _ & [Hq _]).
    split; [exact Hok1|unfold world_ok in *; rewrite Hq; exact Hw].
Qed.

Lemma store_run_ok ops : forall s w s' w',
  world_ok w -> store_ok w s -> store_run ops s w = (s', w') ->
  store_ok w' s'.
Proof.
  induction ops as [|o ops IH]; intros s w s' w' Hw Hok; simpl.
  - intros [= <- <-]. exact Hok.
  - destruct (store_do o s w) as [s1 w1] eqn:Hd.
    destruct (store_do_ok _ _ _ _ _ Hw Hok Hd) as [Hok1 Hw1].
    apply IH; assumption.
Qed.

(** X4: from [newStore] on, through any calls of [Append], [Read],
    [ReadAt] and [Close], with any outcome: as long as the writer has
    met no error, [size] is the length of the file plus the number of
    bytes in the write buffer, that is the position at which the next
    entry starts. *)
Theorem store_size_tracks_bytes (f : os.File) (d : list byte) (w : World)
    (s : store.t) (ops : list store_op) (s' : store.t) (w' : World) :
  world_ok w -> files w !! os.Name f = Some d -> len d <= quota w ->
  newStore f w = Ok s ->
  store_run ops s w = (s', w') ->
  bufio.err (store.buf s') = None ->
  exists d', files w' !! os.Name (store.File s') = Some d'
    /\ store.size s' = len d' + len (bufio.buf (store.buf s')).
Proof.
  intros Hw Hd Hq Hnew Hrun He.
  destruct (newStore_ok _ _ _ _ Hw Hd Hq Hnew) as [_ Hok].
  pose proof (store_run_ok _ _ _ _ _ Hw Hok Hrun) as Hok'.
  destruct (Hok' He) as (d' & Hd' & Hs & _). eauto.
Qed.

Lemma store_size_tracks_bytes_witness :
  let r := store_run [OpAppend ex_payload1; OpRead 0; OpAppend ex_payload2]
             ex_store (opened ex_world) in
  exists d', files (snd r) !! os.Name (store.File (fst r)) = Some d'
    /\ store.size (fst r) = len d' + len (bufio.buf (store.buf (fst r))).
Proof.
  intros r.
  apply (store_size_tracks_bytes ex_store_file [] (opened ex_world) ex_store
           [OpAppend ex_payload1; OpRead 0; OpAppend ex_payload2]
           (fst r) (snd r)).
  - exact ex_world_ok.
  - reflexivity.
  - unfold len. simpl. lia.
  - reflexivity.
  - reflexivity.
  - reflexivity.
Defined.

(** * Reading where no entry starts *)

(** X5: on an open store whose writer has met no error and whose
    buffered bytes the device can take, [store.Read] at a position from
    which fewer than the 8 bytes of a length prefix are stored, the end
    of the store and every position beyond it, returns no bytes.  It
    fails with [io.EOF] for a position below [2^63 - 8], with [EINVAL]
    for the positions from [2^63 - 8] to [2^63 - 1], where the 8 bytes
    would end beyond the largest [int64], and with the negative-offset
    error of [ReadAt] from [2^63] on, where [int64(pos)] is negative. *)
Theorem store_Read_past_end (s : store.t) (pos : Z) (w : World)
    (c : list byte) :
  world_ok w -> store_live w s -> stored w s = Some c ->
  len c <= quota w -> uint64 pos -> len c < pos + 8 ->
  exists e s' w',
    store.Read s pos w = (Err e, s', w')
    /\ (pos < two63 - 8 -> e = EOF)
    /\ (two63 - 8 <= pos < two63 -> e = EINVAL)
    /\ (two63 <= pos -> e = ErrNegativeOffset).
Proof.
  intros Hw (He & Hcl & Hok) Hst Hroom Hpos Hend.
  destruct (Hok He) as (d & Hd & Hsz & Hlen & Hq).
  unfold stored in Hst. rewrite Hd in Hst. injection Hst as Hst.
  assert (Hroom' : len d + len (bufio.buf (store.buf s)) <= quota w).
  { rewrite <- Hst, len_app in Hroom. exact Hroom. }
  destruct (Flush_room _ _ _ _ He Hcl Hd Hroom') as (w1 & HF & Hd1 & _).
  rewrite Hst in Hd1. unfold store.Read. rewrite HF.
  unfold os.ReadAt. rewrite Hcl.
  unfold store.lenWidth. simpl (8 =? 0).
  destruct (Z.ltb_spec (to_int64 pos) 0) as [Hneg|Hnn].
  { assert (Hbig : two63 <= pos).
    { unfold to_int64 in Hneg. rewrite (wrap64_small _ Hpos) in Hneg.
      destruct (Z.ltb_spec pos two63); unfold uint64 in Hpos; lia. }
    do 3 eexists. split; [reflexivity|].
    split_and!; [lia|lia|reflexivity]. }
  assert (Hto : to_int64 pos = pos).
  { unfold to_int64 in *. rewrite (wrap64_small _ Hpos) in *.
    destruct (Z.ltb_spec pos two63); [reflexivity|].
    unfold uint64 in Hpos. lia. }
  assert (Hlt : pos < two63).
  { unfold to_int64 in Hnn. rewrite (wrap64_small _ Hpos) in Hnn.
    destruct (Z.ltb_spec pos two63); unfold uint64, two64, two63 in *; lia. }
  rewrite Hto.
  destruct (Z.leb_spec two63 (pos + 8)) as [Hov|Hfit].
  { do 3 eexists. split; [reflexivity|].
    split_and!; [lia|reflexivity|lia]. }
  rewrite Hd1.
  destruct (Z.leb_spec (len c) pos) as [Hle|Hgt].
  { do 3 eexists. split; [reflexivity|].
    split_and!; [reflexivity|lia|lia]. }
  assert (Hlf : len (from pos c) = len c - pos).
  { apply len_from. unfold uint64 in Hpos. lia. }
  rewrite Hlf. destruct (Z.ltb_spec (len c - pos) 8); [|lia].
  do 3 eexists. split; [reflexivity|].
  split_and!; [reflexivity|lia|lia].
Qed.

Lemma store_Read_past_end_witness :
  exists e s' w',
    store.Read ex_store (two63 - 3) (opened ex_world) = (Err e, s', w')
    /\ (two63 - 3 < two63 - 8 -> e = EOF)
    /\ (two63 - 8 <= two63 - 3 < two63 -> e = EINVAL)
    /\ (two63 <= two63 - 3 -> e = ErrNegativeOffset).
Proof.
  apply (store_Read_past_end ex_store (two63 - 3) (opened ex_world) []).
  - exact ex_world_ok.
  - exact ex_store_live.
  - reflexivity.
  - unfold len. simpl. lia.
  - unfold uint64, two63, two64. lia.
  - unfold len, two63. simpl. lia.
Defined.

(** * Closing the store and opening it again *)

Lemma store_Close_live s w c :
  world_ok w -> store_live w s -> stored w s = Some c -> len c <= quota w ->
  exists w',
    store.Close s w
    = (None, store.mk (os.mkFile (os.Name (store.File s)) true)
               (bufio.mkWriter None []) (store.size s), w')
    /\ files w' !! os.Name (store.File s) = Some c
    /\ quota w' = quota w.
Proof.
  intros Hw (He & Hcl & Hok) Hst Hroom.
  destruct (Hok He) as (d & Hd & Hsz & Hlen & Hq).
  unfold stored in Hst. rewrite Hd in Hst. injection Hst as Hst.
  assert (Hroom' : len d + len (bufio.buf (store.buf s)) <= quota w).
  { rewrite <- Hst, len_app in Hroom. exact Hroom. }
  destruct (Flush_room _ _ _ _ He Hcl Hd Hroom') as (w1 & HF & Hd1 & [Hq1 _]).
  rewrite Hst in Hd1. exists w1.
  unfold store.Close, os.Close. rewrite HF, Hcl. auto.
Qed.

Lemma ex_store1_live : store_live ex_world1 ex_store1.
Proof.
  split; [reflexivity|]. split; [reflexivity|].
  intros _. exists []. split; [reflexivity|]. split; [reflexivity|].
  split; vm_compute; discriminate.
Qed.



(** X7: a store that was closed resumes where it stopped: [newStore] on
    the same file gives a store whose [size] is the size at the close
    and in which every entry is stored as before. *)
Theorem store_reopen_resumes (s : store.t) (w : World) (c : list byte)
    (s' : store.t) (w' : World) :
  world_ok w -> store_live w s -> stored w s = Some c -> len c <= quota w ->
  store.Close s w = (None, s', w') ->
  exists f s2,
    os.OpenFile (os.Name (store.File s)) false w' = (Ok f, w')
    /\ newStore f w' = Ok s2
    /\ store.size s2 = store.size s
    /\ store_live w' s2 /\ stored w' s2 = Some c.
Proof.
  intros Hw Hlive Hst Hroom HC.
  destruct (store_Close_live _ _ _ Hw Hlive Hst Hroom) as (w1 & HC1 & Hd & Hq).
  rewrite HC in HC1. injection HC1 as -> ->.
  assert (Hw1 : world_ok w1) by (unfold world_ok in *; rewrite Hq; exact Hw).
  pose proof (stored_len _ _ _ Hlive Hst) as Hlc.
  assert (Hqc : len c <= quota w1) by (rewrite Hq; exact Hroom).
  exists (os.mkFile (os.Name (store.File s)) false).
  exists (store.mk (os.mkFile (os.Name (store.File s)) false)
            bufio.NewWriter (len c)).
  unfold os.OpenFile. rewrite Hd. split; [reflexivity|].
  destruct (newStore (os.mkFile (os.Name (store.File s)) false) w1)
    as [s2|e] eqn:Hnew.
  2:{ unfold newStore, os.Stat in Hnew. simpl in Hnew. rewrite Hd in Hnew.
      discriminate. }
  destruct (newStore_ok (os.mkFile (os.Name (store.File s)) false) w1 s2 c
              Hw1 Hd Hqc Hnew) as [-> Hok2].
  split; [reflexivity|]. split; [exact Hlc|]. split.
  - split; [reflexivity|]. split; [reflexivity|exact Hok2].
  - unfold stored. simpl. rewrite Hd, app_nil_r. reflexivity.
Qed.

Lemma store_reopen_resumes_witness :
  let cl := store.Close ex_store1 ex_world1 in
  exists f s2,
    os.OpenFile (os.Name (store.File ex_store1)) false (snd cl)
    = (Ok f, snd cl)
    /\ newStore f (snd cl) = Ok s2
    /\ store.size s2 = store.size ex_store1
    /\ store_live (snd cl) s2
    /\ stored (snd cl) s2 = Some (binary.PutUint64 3 ++ ex_payload1).
Proof.
  intros cl.
  apply (store_reopen_resumes ex_store1 ex_world1 _ (snd (fst cl))).
  - exact ex_world_ok.
  - exact ex_store1_live.
  - reflexivity.
  - vm_compute. discriminate.
  - reflexivity.
Defined.

(** X8: on an open store whose writer has met no error, when the
    device can take the buffered bytes, [store.ReadAt] returns the bytes
    of the store between [off] and [off + n], those that were still in
    the write buffer included: it flushes before it reads, so that the
    buffer is empty and the file holds all the stored bytes after the
    call. *)
Theorem store_ReadAt_stored (s : store.t) (w : World)
    (pre x rest : list byte) :
  world_ok w -> store_live w s -> stored w s = Some (pre ++ x ++ rest) ->
  len (pre ++ x ++ rest) <= quota w ->
  exists s' w',
    store.ReadAt s (len x) (len pre) w = ((x, None), s', w')
    /\ bufio.buf (store.buf s') = []
    /\ files w' !! os.Name (store.File s) = Some (pre ++ x ++ rest).
Proof.
  intros Hw (He & Hcl & Hok) Hst Hroom.
  destruct (Hok He) as (d & Hd & Hsz & Hlen & Hq).
  unfold stored in Hst. rewrite Hd in Hst. injection Hst as Hst.
  assert (Hroom' : len d + len (bufio.buf (store.buf s)) <= quota w).
  { rewrite <- Hst, len_app in Hroom. exact Hroom. }
  destruct (Flush_room _ _ _ _ He Hcl Hd Hroom') as (w1 & HF & Hd1 & _).
  rewrite Hst in Hd1. unfold store.ReadAt. rewrite HF.
  rewrite (os_ReadAt_at _ w1 pre x rest Hcl Hd1).
  2:{ pose proof (len_nonneg rest). rewrite !len_app in Hroom.
      unfold world_ok in Hw. lia. }
  do 2 eexists. split; [reflexivity|]. split; [reflexivity|exact Hd1].
Qed.

Lemma store_ReadAt_stored_witness :
  exists s' w',
    store.ReadAt ex_store1 (len ex_payload1)
      (len (binary.PutUint64 3)) ex_world1
    = ((ex_payload1, None), s', w')
    /\ bufio.buf (store.buf s') = []
    /\ files w' !! os.Name (store.File ex_store1)
       = Some (binary.PutUint64 3 ++ ex_payload1 ++ []).
Proof.
  apply (store_ReadAt_stored ex_store1 ex_world1
           (binary.PutUint64 3) ex_payload1 []).
  - exact ex_world_ok.
  - exact ex_store1_live.
  - reflexivity.
  - vm_compute. discriminate.
Defined.

(** * More of the segment *)

(** X9: for uint64 operands with [k > 0], [nearestMultiple] gives a
    result less than [k] below [j], leaves a multiple of [k] as it is
    (and only a multiple), and applied to its own result returns it
    again. *)
Theorem nearestMultiple_idempotent (j k : Z) :
  uint64 j -> uint64 k -> 0 < k ->
  exists r,
    nearestMultiple j k = Some r
    /\ j - k < r <= j
    /\ (r = j <-> (k | j))
    /\ nearestMultiple r k = Some r.
Proof.
  intros Hj Hk Hpos.
  pose proof (nearestMultiple_floor j k Hj Hpos) as Hfl.
  assert (Hval : forall i, uint64 i ->
            nearestMultiple i k = Some (i / k * k)).
  { intros i Hi. unfold nearestMultiple, nearestMultiple_guard.
    destruct (Z.eqb_spec k 0); [lia|].
    destruct (Z.leb_spec 0 i); [|unfold uint64 in Hi; lia].
    unfold nearestMultiple_then. rewrite wrap64_small; [reflexivity|].
    pose proof (nearestMultiple_floor i k Hi Hpos). unfold uint64 in *. lia. }
  exists (j / k * k). split; [apply Hval; exact Hj|].
  pose proof (Z.div_mod j k) as Hdm.
  pose proof (Z.mod_pos_bound j k Hpos) as Hmod.
  split; [lia|]. split.
  - split.
    + intros Heq. exists (j / k). lia.
    + intros [q ->]. rewrite Z.div_mul by lia. reflexivity.
  - rewrite Hval by (unfold uint64 in *; lia).
    rewrite Z.div_mul by lia. reflexivity.
Qed.

Lemma nearestMultiple_idempotent_witness :
  exists r,
    nearestMultiple 1030 12 = Some r
    /\ 1030 - 12 < r <= 1030
    /\ (r = 1030 <-> (12 | 1030))
    /\ nearestMultiple r 12 = Some r.
Proof.
  apply (nearestMultiple_idempotent 1030 12); unfold uint64, two64; lia.
Defined.

Lemma OpenFile_keeps name create w r w' :
  os.OpenFile name create w = (r, w') ->
  quota w' = quota w
  /\ (forall n, n <> name -> files w' !! n = files w !! n)
  /\ (forall d, files w !! name = Some d -> files w' !! name = Some d)
  /\ (files w !! name = None -> create = true ->
      files w' !! name = Some []).
Proof.
  unfold os.OpenFile. destruct (files w !! name) as [d|] eqn:Hd.
  - intros [= <- <-]. rewrite Hd. split_and!; auto. discriminate.
  - destruct create; intros [= <- <-].
    + rewrite lookup_set_file. split_and!; auto; [|discriminate].
      intros n Hn. apply lookup_set_file_ne. congruence.
    + rewrite Hd. split_and!; auto. discriminate.
Qed.

(** What [newSegment] does to the files, the index file included. *)
Lemma newSegment_files (dir : string) (B : Z) (c : Config)
    (w : World) (r : res segment.t) (w' : World) :
  newSegment dir B c w = (r, w') ->
  (forall n d, files w !! n = Some d -> files w' !! n = Some d)
  /\ (forall n, files w !! n = None -> files w' !! n <> None ->
        (n = store_name dir B \/ n = index_name dir B)
        /\ files w' !! n = Some []).
Proof.
  unfold newSegment. fold (store_name dir B). fold (index_name dir B).
  destruct (os.OpenFile (store_name dir B) true w) as [ra wa] eqn:H1.
  pose proof (OpenFile_keeps _ _ _ _ _ H1) as (_ & Hne1 & Hk1 & Hc1).
  assert (Hstep1 : (forall n d, files w !! n = Some d -> files wa !! n = Some d)
    /\ (forall n, files w !! n = None -> files wa !! n <> None ->
          n = store_name dir B /\ files wa !! n = Some [])).
  { split.
    - intros n d Hd. destruct (decide (n = store_name dir B)) as [->|Hn];
        [auto|rewrite Hne1; auto].
    - intros n Hn Hs. destruct (decide (n = store_name dir B)) as [->|Hn'].
      + split; [reflexivity|]. apply Hc1; auto.
      + rewrite Hne1 in Hs by exact Hn'. contradiction. }
  destruct Hstep1 as [Hold1 Hnewa].
  assert (Hres1 : forall r0, (r0, wa) = (r, w') ->
    (forall n d, files w !! n = Some d -> files w' !! n = Some d)
    /\ (forall n, files w !! n = None -> files w' !! n <> None ->
          (n = store_name dir B \/ n = index_name dir B)
          /\ files w' !! n = Some [])).
  { intros r0 [= <- <-]. split; [exact Hold1|].
    intros n Hn Hs. destruct (Hnewa n Hn Hs). auto. }
  destruct ra as [storeFile|e]; [|apply Hres1].
  destruct (newStore storeFile wa) as [st|e]; [|apply Hres1].
  destruct (os.OpenFile (index_name dir B) true wa) as [rb wb] eqn:H2.
  pose proof (OpenFile_keeps _ _ _ _ _ H2) as (_ & Hne2 & Hk2 & Hc2).
  assert (Hres2 : forall r0, (r0, wb) = (r, w') ->
    (forall n d, files w !! n = Some d -> files w' !! n = Some d)
    /\ (forall n, files w !! n = None -> files w' !! n <> None ->
          (n = store_name dir B \/ n = index_name dir B)
          /\ files w' !! n = Some [])).
  { intros r0 [= <- <-]. split.
    - intros n d Hd. apply Hold1 in Hd.
      destruct (decide (n = index_name dir B)) as [->|Hn];
        [auto|rewrite Hne2; auto].
    - intros n Hn Hs. destruct (decide (n = index_name dir B)) as [->|Hn'].
      + split; [right; reflexivity|].
        destruct (files wa !! index_name dir B) as [d|] eqn:Hd1.
        * destruct (Hnewa _ Hn) as [_ Hd]; [congruence|].
          rewrite Hd1 in Hd. injection Hd as ->. apply Hk2. reflexivity.
        * apply Hc2; auto.
      + rewrite Hne2 in Hs |- * by exact Hn'.
        destruct (Hnewa n Hn Hs). auto. }
  destruct rb as [indexFile|e]; [|apply Hres2].
  destruct (newIndex indexFile c wb) as [ix|e]; [|apply Hres2].
  destruct (index.Read ix (-1)) as [[off pos] e]. apply Hres2.
Qed.

(** X10: [newSegment] never truncates or rewrites a file: whatever it
    returns, every file that existed, the store file among them, keeps
    its bytes (the index file is the index's own); the only files it can
    add are the segment's two, and a store file that it adds is
    empty. *)
Theorem newSegment_keeps_files (dir : string) (B : Z) (c : Config)
    (w : World) (r : res segment.t) (w' : World) :
  newSegment dir B c w = (r, w') ->
  (forall n d, n <> index_name dir B ->
     files w !! n = Some d -> files w' !! n = Some d)
  /\ (forall n, files w !! n = None -> files w' !! n <> None ->
        n = store_name dir B \/ n = index_name dir B)
  /\ (files w !! store_name dir B = None ->
      files w' !! store_name dir B <> None ->
      files w' !! store_name dir B = Some []).
Proof.
  intros H. destruct (newSegment_files _ _ _ _ _ _ H) as [Hk Ha].
  split_and!.
  - intros n d _ Hn. apply Hk. exact Hn.
  - intros n Hn Hn'. apply (Ha n Hn Hn').
  - intros Hn Hn'. apply (Ha _ Hn Hn').
Qed.


(** X11: [segment.Read] reads only.  Whatever it returns, the offsets,
    the configuration, the index and the store's size are as before; in
    the file system it can only flush, which adds the buffered bytes at
    the end of the store's file. *)
Theorem segment_Read_reads_only {proto : Proto} (s : segment.t) (off : Z)
    (w : World) (ret : option api.Record_ * option error)
    (s' : segment.t) (w' : World) :
  segment.Read s off w = (ret, s', w') ->
  segment.baseOffset s' = segment.baseOffset s
  /\ segment.nextOffset s' = segment.nextOffset s
  /\ segment.config s' = segment.config s
  /\ segment.index s' = segment.index s
  /\ store.size (segment.store s') = store.size (segment.store s)
  /\ (forall n, n <> os.Name (store.File (segment.store s)) ->
        files w' !! n = files w !! n)
  /\ (forall d, files w !! os.Name (store.File (segment.store s)) = Some d ->
        exists x,
          files w' !! os.Name (store.File (segment.store s)) = Some (d ++ x)).
Proof.
  unfold segment.Read.
  destruct (index.Read _ _) as [[o pos] e].
  destruct e as [e|].
  { intros [= <- <- <-]. split_and!; auto.
    intros d Hd. exists []. rewrite app_nil_r. exact Hd. }
  destruct (store.Read (segment.store s) pos w) as [[r st] w1] eqn:HR.
  pose proof (store_Read_shape _ _ _ _ _ _ HR) as [_ Hsz].
  assert (Hg : grows (os.Name (store.File (segment.store s))) w w1).
  { apply (store_do_grows (OpRead pos) (segment.store s) w st w1).
    simpl. rewrite HR. reflexivity. }
  destruct Hg as [[_ Hf] Hg].
  assert (forall e0 : option api.Record_ * option error,
    (e0, segment.mk st (segment.index s) (segment.baseOffset s)
           (segment.nextOffset s) (segment.config s), w1) = (ret, s', w') ->
    segment.baseOffset s' = segment.baseOffset s
    /\ segment.nextOffset s' = segment.nextOffset s
    /\ segment.config s' = segment.config s
    /\ segment.index s' = segment.index s
    /\ store.size (segment.store s') = store.size (segment.store s)
    /\ (forall n, n <> os.Name (store.File (segment.store s)) ->
          files w' !! n = files w !! n)
    /\ (forall d, files w !! os.Name (store.File (segment.store s)) = Some d ->
          exists x,
            files w' !! os.Name (store.File (segment.store s))
            = Some (d ++ x))) as Hfin.
  { intros e0 [= <- <- <-]. simpl. split_and!; auto.
    intros d Hd. rewrite Hd in Hg. exact Hg. }
  destruct r as [p|e]; [|apply Hfin].
  destruct (Unmarshal p) as [rec e]. apply Hfin.
Qed.

(** * Removing a segment *)

Lemma segment_Close_shape dir B c s w e s1 w1 :
  seg_inv dir B c s ->
  segment.Close s w = (e, s1, w1) ->
  index.Name (segment.index s1) = index_name dir B
  /\ os.Name (store.File (segment.store s1)) = store_name dir B
  /\ os.closed (index.file (segment.index s1)) = true
  /\ (forall n, n <> store_name dir B -> n <> index_name dir B ->
        files w1 !! n = files w !! n).
Proof.
  intros (Hb & Hc & Hsn & Hin & Hcl & _).
  unfold segment.Close, index.Close, os.Close. rewrite Hcl.
  unfold index.Name in Hin. rewrite Hin.
  destruct (store.Close (segment.store s) _) as [[e1 st] w2] eqn:HC.
  intros [= <- <- <-]. simpl.
  destruct (store_do_grows OpClose (segment.store s)
              (set_file (index_name dir B)
                 (index.encode (index.entries (segment.index s))) w) st w2)
    as [[[_ Hf] _] Hn].
  { simpl. rewrite HC. reflexivity. }
  split; [reflexivity|]. split; [congruence|]. split; [reflexivity|].
  intros n Hn1 Hn2. rewrite Hf by congruence.
  apply lookup_set_file_ne. congruence.
Qed.

(** X12: after a [Remove] that returns no error the segment's two
    files are gone and every other file is as it was; the segment is
    closed, so that a second [Remove] fails with [os.ErrClosed] and
    changes nothing. *)
Theorem segment_Remove_deletes {proto : Proto} (dir : string) (B : Z)
    (c : Config) (K : nat) (s : segment.t) (w : World)
    (s' : segment.t) (w' : World) :
  uint64 B -> reach dir B c K s w ->
  segment.Remove s w = (None, s', w') ->
  files w' !! store_name dir B = None
  /\ files w' !! index_name dir B = None
  /\ (forall n, n <> store_name dir B -> n <> index_name dir B ->
        files w' !! n = files w !! n)
  /\ segment.Remove s' w' = (Some ErrClosed, s', w').
Proof.
  intros HB Hr. destruct (reach_inv _ _ _ _ _ _ HB Hr) as [Hinv _].
  unfold segment.Remove at 1.
  destruct (segment.Close s w) as [[e s1] w1] eqn:HC.
  destruct (segment_Close_shape _ _ _ _ _ _ _ _ Hinv HC)
    as (Hin & Hsn & Hcl & Hf).
  pose proof (store_name_neq_index_name dir B) as Hne.
  destruct e as [e|]; [discriminate|].
  rewrite Hin, Hsn. unfold os.Remove.
  destruct (files w1 !! index_name dir B) as [di|] eqn:Hdi; [|discriminate].
  simpl files.
  rewrite (lookup_delete_ne (files w1) (index_name dir B) (store_name dir B))
    by congruence.
  destruct (files w1 !! store_name dir B) as [ds|] eqn:Hds; [|discriminate].
  intros [= <- <-]. simpl files. split_and!.
  - apply lookup_delete_eq.
  - rewrite lookup_delete_ne by congruence. apply lookup_delete_eq.
  - intros n Hn1 Hn2. rewrite !lookup_delete_ne by congruence.
    apply Hf; assumption.
  - unfold segment.Remove, segment.Close, index.Close. rewrite Hcl.
    destruct s1; reflexivity.
Qed.

Lemma segment_Remove_deletes_witness :
  let r := segment.Remove ex_segment (opened ex_world) in
  files (snd r) !! store_name "d" 16 = None
  /\ files (snd r) !! index_name "d" 16 = None
  /\ (forall n, n <> store_name "d" 16 -> n <> index_name "d" 16 ->
        files (snd r) !! n = files (opened ex_world) !! n)
  /\ segment.Remove (snd (fst r)) (snd r)
     = (Some ErrClosed, snd (fst r), snd r).
Proof.
  intros r.
  apply (@segment_Remove_deletes fixed_proto "d" 16 ex_config 0 ex_segment
           (opened ex_world)).
  - unfold uint64, two64. lia.
  - exact ex_reach_fresh.
  - reflexivity.
Defined.

(** * What a call of [Append] can change *)

Lemma segment_Append_sizes {proto : Proto} s r w ret s' r' w' :
  world_ok w -> store_ok w (segment.store s) ->
  segment.Append s r w = (ret, s', r', w') ->
  segment.config s' = segment.config s
  /\ store.size (segment.store s) <= store.size (segment.store s')
  /\ index.size (segment.index s) <= index.size (segment.index s')
  /\ (snd ret <> None ->
      segment.index s' = segment.index s
      /\ fst ret = 0
      /\ (store.size (segment.store s') = store.size (segment.store s)
          \/ exists p,
               Marshal (api.mkRecord (api.Value r) (segment.nextOffset s))
               = Ok p
               /\ store.size (segment.store s')
                  = store.size (segment.store s) + 8 + len p)).
Proof.
  intros Hw Hok. unfold segment.Append.
  destruct (Marshal _) as [p|e0] eqn:HM.
  2:{ intros [= <- <- <- <-]. simpl. split_and!; auto; lia. }
  destruct (store.Append (segment.store s) p w)
    as [[[[n0 pos] e1] st] w1] eqn:HA.
  destruct (store_Append_inv _ _ _ _ _ _ _ _ Hw Hok HA) as (_ & _ & _ & HI).
  assert (Hst : store.size st = store.size (segment.store s)
                \/ store.size st = store.size (segment.store s) + 8 + len p).
  { destruct e1 as [e1|].
    - destruct HI as (_ & _ & H & _). auto.
    - destruct HI as (_ & _ & H & _). unfold store.lenWidth in H. auto. }
  pose proof (len_nonneg p) as Hp.
  destruct (index.Write _ _ pos) as [e2 ix] eqn:HW.
  apply index_Write_inv in HW. destruct HW as (_ & _ & HW).
  destruct e2 as [e2|].
  - subst ix. intros [= <- <- <- <-]. simpl.
    split; [reflexivity|]. split; [lia|]. split; [lia|].
    intros _. split; [reflexivity|]. split; [reflexivity|].
    destruct Hst as [H|H]; [left; exact H|right; exists p; auto].
  - destruct HW as (_ & Hsz & _). intros [= <- <- <- <-]. simpl.
    rewrite Hsz, entWidth_12.
    split; [reflexivity|]. split; [lia|]. split; [lia|].
    intros H. contradiction.
Qed.

(** X13: a call of [segment.Append] that returns an error returns the
    offset 0 and never touches the index; the store either has its size
    unchanged or has grown by the 8 + len bytes of the serialized
    record, bytes that no index entry points at. *)
Theorem Append_error_effects {proto : Proto} (s : segment.t)
    (r : api.Record_) (w : World) (n : Z) (e : error)
    (s' : segment.t) (r' : api.Record_) (w' : World) :
  world_ok w -> store_ok w (segment.store s) ->
  segment.Append s r w = ((n, Some e), s', r', w') ->
  n = 0
  /\ segment.index s' = segment.index s
  /\ (store.size (segment.store s') = store.size (segment.store s)
      \/ exists p,
           Marshal (api.mkRecord (api.Value r) (segment.nextOffset s)) = Ok p
           /\ store.size (segment.store s')
              = store.size (segment.store s) + 8 + len p).
Proof.
  intros Hw Hok HA.
  destruct (segment_Append_sizes _ _ _ _ _ _ _ Hw Hok HA) as (_ & _ & _ & H).
  destruct H as (Hi & Hn & Hs); [discriminate|]. auto.
Qed.

Lemma full_store_ok : store_ok (opened ex_world) (segment.store full_segment).
Proof.
  intros _. exists []. split; [reflexivity|].
  unfold bufio.defaultBufSize, len. simpl. lia.
Qed.

Lemma Append_error_effects_witness :
  let a := @segment.Append fixed_proto full_segment ex_record1
             (opened ex_world) in
  let s' := snd (fst (fst a)) in
  0 = 0
  /\ segment.index s' = segment.index full_segment
  /\ (store.size (segment.store s') = store.size (segment.store full_segment)
      \/ exists p,
           @Marshal fixed_proto
             (api.mkRecord (api.Value ex_record1)
                (segment.nextOffset full_segment)) = Ok p
           /\ store.size (segment.store s')
              = store.size (segment.store full_segment) + 8 + len p).
Proof.
  intros a s'.
  apply (@Append_error_effects fixed_proto full_segment ex_record1
           (opened ex_world) 0 ErrCapacity s' (snd (fst a)) (snd a)).
  - exact ex_world_ok.
  - exact full_store_ok.
  - reflexivity.
Defined.

Lemma segment_Read_shape_sizes {proto : Proto} s off w ret s' w' :
  segment.Read s off w = (ret, s', w') ->
  segment.config s' = segment.config s
  /\ store.size (segment.store s') = store.size (segment.store s)
  /\ index.size (segment.index s') = index.size (segment.index s).
Proof.
  unfold segment.Read.
  destruct (index.Read _ _) as [[o pos] e].
  destruct e as [e|]; [intros [= <- <- <-]; auto|].
  destruct (store.Read (segment.store s) pos w) as [[r st] w1] eqn:HR.
  apply store_Read_shape in HR. destruct HR as [_ Hsz].
  destruct r as [p|e]; [|intros [= <- <- <-]; auto].
  destruct (Unmarshal p) as [rec e]. intros [= <- <- <-]; auto.
Qed.

(** X14: a segment that is maxed stays maxed: after any call of
    [Append] or [Read], whatever it returns, [IsMaxed] is still true. *)
Theorem IsMaxed_stays {proto : Proto} (s : segment.t) (w : World) :
  world_ok w -> store_ok w (segment.store s) ->
  segment.IsMaxed s = true ->
  (forall r ret s' r' w',
     segment.Append s r w = (ret, s', r', w') -> segment.IsMaxed s' = true)
  /\ (forall off ret s' w',
        segment.Read s off w = (ret, s', w') -> segment.IsMaxed s' = true).
Proof.
  intros Hw Hok Hmax. unfold segment.IsMaxed in *.
  apply orb_true_iff in Hmax. rewrite !Z.leb_le in Hmax. split.
  - intros r ret s' r' w' HA.
    destruct (segment_Append_sizes _ _ _ _ _ _ _ Hw Hok HA)
      as (Hc & Hs & Hi & _).
    rewrite Hc. apply orb_true_iff. rewrite !Z.leb_le. lia.
  - intros off ret s' w' HR.
    destruct (segment_Read_shape_sizes s off w ret s' w' HR)
      as (Hc & Hs & Hi).
    rewrite Hc, Hs, Hi. apply orb_true_iff. rewrite !Z.leb_le. lia.
Qed.

Lemma IsMaxed_stays_witness :
  (forall r ret s' r' w',
     @segment.Append fixed_proto full_segment r (opened ex_world)
     = (ret, s', r', w') -> segment.IsMaxed s' = true)
  /\ (forall off ret s' w',
        @segment.Read fixed_proto full_segment off (opened ex_world)
        = (ret, s', w') -> segment.IsMaxed s' = true).
Proof.
  apply (@IsMaxed_stays fixed_proto full_segment (opened ex_world)).
  - exact ex_world_ok.
  - exact full_store_ok.
  - reflexivity.
Defined.

(** * Records outlive a close *)

Lemma reopen_log {proto : Proto} dir B c s w log s1 w1 :
  uint64 B -> world_ok w -> seg_inv dir B c s -> log_inv w s log ->
  store.size (segment.store s) <= quota w ->
  Z.of_nat (length log) <= two32 ->
  segment.Close s w = (None, s1, w1) ->
  exists s2 w2,
    newSegment dir B c w1 = (Ok s2, w2)
    /\ seg_inv dir B c s2 /\ log_inv w2 s2 log /\ world_ok w2
    /\ store.size (segment.store s2) <= quota w2.
Proof.
  intros HB Hw Hinv (Hlive & cnt & Hst & Hlen & Hall) Hroom HK HC.
  pose proof (store_name_neq_index_name dir B) as Hne.
  pose proof (segment_Close_disk _ _ _ _ _ _ _ _ Hinv HC) as Hdisk.
  pose proof Hinv as (Hb & Hc & Hsn & Hin & Hcl & Hes & _).
  pose proof (stored_len _ _ _ Hlive Hst) as Hlc.
  (* the store after the index was written *)
  set (wa := set_file (index_name dir B)
               (index.encode (index.entries (segment.index s))) w).
  assert (Hsame : files wa !! os.Name (store.File (segment.store s))
                  = files w !! os.Name (store.File (segment.store s))).
  { unfold wa. apply lookup_set_file_ne. congruence. }
  assert (Hlive_a : store_live wa (segment.store s)).
  { destruct Hlive as (He & Hc0 & Hok). split; [exact He|].
    split; [exact Hc0|]. intros He'. destruct (Hok He') as (d & Hd & H).
    exists d. rewrite Hsame. auto. }
  assert (Hst_a : stored wa (segment.store s) = Some cnt).
  { unfold stored in *. rewrite Hsame. exact Hst. }
  assert (Hwa : world_ok wa) by exact Hw.
  assert (Hroom_a : len cnt <= quota wa) by (rewrite Hlc; exact Hroom).
  destruct (store_Close_live _ _ _ Hwa Hlive_a Hst_a Hroom_a)
    as (wb & HCs & Hdb & Hqb).
  assert (Hw1 : w1 = wb).
  { revert HC. unfold segment.Close, index.Close, os.Close. rewrite Hcl.
    unfold index.Name in Hin. rewrite Hin. fold wa. rewrite HCs.
    intros [= _ <-]. reflexivity. }
  subst wb. rewrite Hsn in Hdb.
  assert (Hdisk_ok : disk_ok dir B w1 (length log)).
  { unfold disk_ok. rewrite Hdisk.
    exists (index.entries (segment.index s)). auto. }
  destruct (newSegment_eq dir B c w1) as (w2 & d & Heq & Hsf & Hd & _ & Hq2).
  rewrite Hdb in Hd. simpl in Hd. subst d.
  match type of Heq with _ = (Ok ?x, _) => set (s2 := x) in * end.
  destruct (newSegment_inv _ _ _ _ _ _ _ HB Hdisk_ok Heq)
    as (Hinv2 & Hent2 & _).
  assert (Hde : index.entries (segment.index s2)
                = index.entries (segment.index s)).
  { rewrite Hent2. unfold disk_entries. rewrite Hdisk.
    apply decode_encode. apply entries_ok_ranges. exact Hes. }
  assert (Hw2 : world_ok w2).
  { unfold world_ok in *. rewrite Hq2, Hqb. exact Hw. }
  assert (Hq : quota w2 = quota w) by (rewrite Hq2, Hqb; reflexivity).
  assert (Hwr : wrap64 (len cnt) = len cnt).
  { apply wrap64_small. pose proof (len_nonneg cnt).
    unfold world_ok, uint64, two63, two64 in *. lia. }
  assert (Hsz2 : store.size (segment.store s2) = len cnt) by exact Hwr.
  exists s2, w2. split; [exact Heq|]. split; [exact Hinv2|].
  split; [|split; [exact Hw2|rewrite Hsz2, Hq, Hlc; exact Hroom]].
  split.
  - split; [reflexivity|]. split; [reflexivity|].
    intros _. exists cnt. unfold s2. simpl.
    rewrite Hsf, len_nil, Hwr.
    split; [reflexivity|]. split; [lia|].
    split; [unfold bufio.defaultBufSize; lia|].
    rewrite Hq, Hlc. exact Hroom.
  - exists cnt. split.
    + unfold stored, s2. simpl. rewrite Hsf, app_nil_r. reflexivity.
    + rewrite Hde. split; [exact Hlen|exact Hall].
Qed.

(** X15: records outlive a close.  Payloads are appended to a fresh
    segment without any failed write, at most [2^32] of them, and the
    segment is closed without error; the segment that [newSegment]
    opens on the same directory and base offset returns, for the offsets
    that the appends returned, the records that were appended. *)
Theorem reopen_reads_back {proto : Proto} (dir : string) (B : Z)
    (c : Config) (w0 : World) (s : segment.t) (w : World)
    (rs : list api.Record_) (out : list (Z * option error * api.Record_))
    (s' : segment.t) (w' : World) (s1 : segment.t) (w1 : World) :
  proto_lawful proto -> uint64 B -> world_ok w0 ->
  files w0 !! store_name dir B = None ->
  files w0 !! index_name dir B = None ->
  newSegment dir B c w0 = (Ok s, w) ->
  appends s rs w = (out, s', w') ->
  Forall (fun x => ret_error x = None) out ->
  bufio.err (store.buf (segment.store s')) = None ->
  store.size (segment.store s') <= quota w' ->
  Z.of_nat (length rs) <= two32 ->
  segment.Close s' w' = (None, s1, w1) ->
  exists s2 w2 s3 w3,
    newSegment dir B c w1 = (Ok s2, w2)
    /\ reads s2 (map ret_offset out) w2
       = (map (fun x => (Some (ret_record x), None)) out, s3, w3).
Proof.
  intros Hlaw HB Hw0 Hs0 Hi0 Hnew Happ Hall Herr Hroom HK HC.
  destruct (fresh_log_inv _ _ _ _ _ _ HB Hw0 Hs0 Hi0 Hnew)
    as (Hinv & Hlog & Hw & Hnext).
  assert (Hu : uint64 (segment.nextOffset s)) by (rewrite Hnext; exact HB).
  destruct (appends_seg_inv _ _ _ _ _ _ _ _ _ HB Hinv Happ) as [Hinv' Hlen].
  destruct (appends_log _ _ _ _ _ _ _ Hw Hu Hlog Happ Hall Herr)
    as (Hlog' & Hw' & _).
  destruct (appends_offsets _ _ _ _ _ _ Hu Happ Hall) as (Hoffs & _).
  simpl in Hlog'. rewrite Hnext in Hoffs.
  destruct (reopen_log dir B c s' w' (map ret_record out) s1 w1)
    as (s2 & w2 & Heq & Hinv2 & Hlog2 & Hw2 & Hroom2); auto.
  { rewrite length_map, Hlen. exact HK. }
  destruct (reads_log dir B c (map ret_record out) (seq 0 (length out)) s2 w2)
    as (s3 & w3 & HR); auto.
  { apply Forall_forall. intros i Hi. apply list_elem_of_In, in_seq in Hi.
    rewrite length_map. lia. }
  exists s2, w2, s3, w3. split; [exact Heq|].
  rewrite Hoffs, <- Hlen, HR. f_equal. f_equal.
  rewrite <- (length_map ret_record out).
  pose proof (map_lookup_seq (map ret_record out) []) as Hm. simpl in Hm.
  rewrite <- (map_map (fun i => map ret_record out !! i)
                      (fun o => (o, @None error))).
  rewrite Hm, !map_map. reflexivity.
Qed.

Lemma reopen_reads_back_witness :
  let cl := segment.Close ex_segment2 ex_world2 in
  exists s2 w2 s3 w3,
    newSegment "d" 16 ex_config (snd cl) = (Ok s2, w2)
    /\ @reads fixed_proto s2 (map ret_offset (fst (fst ex_run))) w2
       = (map (fun x => (Some (ret_record x), None)) (fst (fst ex_run)),
          s3, w3).
Proof.
  intros cl.
  apply (@reopen_reads_back fixed_proto "d" 16 ex_config ex_world
           ex_segment (opened ex_world) [ex_record1; ex_record2]
           (fst (fst ex_run)) ex_segment2 ex_world2 (snd (fst cl))).
  - exact fixed_proto_lawful.
  - unfold uint64, two64. lia.
  - unfold world_ok, two63. simpl. lia.
  - reflexivity.
  - reflexivity.
  - reflexivity.
  - reflexivity.
  - repeat constructor.
  - reflexivity.
  - vm_compute. discriminate.
  - vm_compute. discriminate.
  - reflexivity.
Defined.

(** * Appending to a closed store *)

Lemma Write_fits b f p w :
  bufio.err b = None ->
  len (bufio.buf b) + len p <= bufio.defaultBufSize ->
  bufio.Write b f p w
  = ((len p, None), bufio.mkWriter None (bufio.buf b ++ p), w).
Proof.
  intros He Hfit. unfold bufio.Write, bufio.Write_fuel. simpl.
  unfold bufio.Available.
  destruct (Z.ltb_spec (bufio.defaultBufSize - len (bufio.buf b)) (len p));
    [lia|].
  simpl. rewrite He. unfold bufio.Available.
  replace (Z.min (bufio.defaultBufSize - len (bufio.buf b)) (len p))
    with (len p) by lia.
  rewrite upto_all by lia. reflexivity.
Qed.

(** X16: [store.Append] does not look at the file.  On a store that was
    closed it still returns a nil error, the position and the byte count
    when the entry fits the write buffer, and advances [size]; the bytes
    stay in the buffer: the file is unchanged, and the [Close] or [Read]
    that tries to flush them fails with [os.ErrClosed]. *)
Theorem store_Append_on_closed (s : store.t) (p : list byte) (w : World) :
  os.closed (store.File s) = true ->
  bufio.err (store.buf s) = None -> bufio.buf (store.buf s) = [] ->
  8 + len p <= bufio.defaultBufSize ->
  0 <= store.size s -> store.size s + bufio.defaultBufSize < two64 ->
  exists s',
    store.Append s p w = ((8 + len p, store.size s, None), s', w)
    /\ store.size s' = store.size s + 8 + len p
    /\ (exists s'', store.Close s' w = (Some ErrClosed, s'', w))
    /\ (forall pos, exists s'',
          store.Read s' pos w = (Err ErrClosed, s'', w)).
Proof.
  intros Hcl He Hb Hfit Hs0 Hs1.
  pose proof (len_nonneg p) as Hp.
  unfold bufio.defaultBufSize in *.
  assert (Hw1 : wrap64 (len p + 8) = len p + 8).
  { apply wrap64_small. unfold uint64, two64 in *. lia. }
  assert (Hw2 : wrap64 (store.size s + (len p + 8))
                = store.size s + 8 + len p).
  { rewrite wrap64_small; [lia|]. unfold uint64, two64 in *. lia. }
  assert (HA : store.Append s p w
    = ((8 + len p, store.size s, None),
       store.mk (store.File s)
         (bufio.mkWriter None
            ((bufio.buf (store.buf s) ++ binary.PutUint64 (wrap64 (len p)))
             ++ p))
         (store.size s + 8 + len p), w)).
  { unfold store.Append, binary_Write.
    rewrite (Write_fits _ _ _ _ He)
      by (rewrite Hb; unfold bufio.defaultBufSize, len; simpl; lia).
    rewrite Write_fits; [|reflexivity|].
    - unfold store.lenWidth. rewrite Hw1, Hw2.
      replace (len p + 8) with (8 + len p) by lia. reflexivity.
    - simpl bufio.buf. rewrite Hb.
      change (len ([] ++ binary.PutUint64 (wrap64 (len p)))) with 8.
      unfold bufio.defaultBufSize. lia. }
  eexists. split; [exact HA|]. split; [reflexivity|].
  assert (HF : exists b1,
    bufio.Flush
      (bufio.mkWriter None
         ((bufio.buf (store.buf s) ++ binary.PutUint64 (wrap64 (len p)))
          ++ p)) (store.File s) w
    = (Some ErrClosed, b1, w)).
  { unfold bufio.Flush, bufio.Buffered. simpl bufio.err.
    simpl bufio.buf. rewrite Hb, len_app.
    change (len ([] ++ binary.PutUint64 (wrap64 (len p)))) with 8.
    destruct (Z.eqb_spec (8 + len p) 0); [lia|].
    unfold os.Write. rewrite Hcl. simpl.
    rewrite andb_false_r. eauto. }
  destruct HF as [b1 HF]. split.
  - unfold store.Close. simpl. rewrite HF. eauto.
  - intros pos. unfold store.Read. simpl. rewrite HF. eauto.
Qed.

Lemma store_Append_on_closed_witness :
  exists s',
    store.Append closed_store ex_payload2 ex_world1
    = ((8 + len ex_payload2, store.size closed_store, None), s', ex_world1)
    /\ store.size s' = store.size closed_store + 8 + len ex_payload2
    /\ (exists s'', store.Close s' ex_world1 = (Some ErrClosed, s'', ex_world1))
    /\ (forall pos, exists s'',
          store.Read s' pos ex_world1 = (Err ErrClosed, s'', ex_world1)).
Proof.
  apply (store_Append_on_closed closed_store ex_payload2 ex_world1).
  - reflexivity.
  - reflexivity.
  - reflexivity.
  - vm_compute. discriminate.
  - simpl. lia.
  - vm_compute. reflexivity.
Defined.

(** * Reading in any order *)

(** X17: the records of a segment can be read in any order and any
    number of times.  After appends to a fresh segment that all return
    a nil error, without a failed write and with room to flush, reading
    the offsets of the records number [i], for any list of [i], returns
    these records, each read with a nil error. *)
Theorem reads_any_order {proto : Proto} (dir : string) (B : Z) (c : Config)
    (w0 : World) (s : segment.t) (w : World) (rs : list api.Record_)
    (out : list (Z * option error * api.Record_))
    (s' : segment.t) (w' : World) (idxs : list nat) :
  proto_lawful proto -> uint64 B -> world_ok w0 ->
  files w0 !! store_name dir B = None ->
  files w0 !! index_name dir B = None ->
  newSegment dir B c w0 = (Ok s, w) ->
  appends s rs w = (out, s', w') ->
  Forall (fun x => ret_error x = None) out ->
  bufio.err (store.buf (segment.store s')) = None ->
  store.size (segment.store s') <= quota w' ->
  Forall (fun i => (i < length rs)%nat) idxs ->
  exists s'' w'',
    reads s' (map (fun i => wrap64 (B + Z.of_nat i)) idxs) w'
    = (map (fun i => (ret_record <$> out !! i, None)) idxs, s'', w'').
Proof.
  intros Hlaw HB Hw0 Hs0 Hi0 Hnew Happ Hall Herr Hroom Hidx.
  destruct (fresh_log_inv _ _ _ _ _ _ HB Hw0 Hs0 Hi0 Hnew)
    as (Hinv & Hlog & Hw & Hnext).
  assert (Hu : uint64 (segment.nextOffset s)) by (rewrite Hnext; exact HB).
  destruct (appends_seg_inv _ _ _ _ _ _ _ _ _ HB Hinv Happ) as [Hinv' Hlen].
  destruct (appends_log _ _ _ _ _ _ _ Hw Hu Hlog Happ Hall Herr)
    as (Hlog' & Hw' & _).
  simpl in Hlog'.
  destruct (reads_log dir B c (map ret_record out) idxs s' w')
    as (s'' & w'' & HR); auto.
  { rewrite length_map, Hlen. exact Hidx. }
  exists s'', w''. rewrite HR. f_equal. f_equal.
  apply map_ext. intros i. rewrite list_lookup_fmap. reflexivity.
Qed.

Lemma reads_any_order_witness :
  exists s'' w'',
    @reads fixed_proto ex_segment2
      (map (fun i => wrap64 (16 + Z.of_nat i)) [1; 0; 1]%nat) ex_world2
    = (map (fun i => (ret_record <$> fst (fst ex_run) !! i, None))
         [1; 0; 1]%nat, s'', w'').
Proof.
  apply (@reads_any_order fixed_proto "d" 16 ex_config ex_world
           ex_segment (opened ex_world) [ex_record1; ex_record2]
           (fst (fst ex_run)) ex_segment2 ex_world2 [1; 0; 1]%nat).
  - exact fixed_proto_lawful.
  - unfold uint64, two64. lia.
  - unfold world_ok, two63. simpl. lia.
  - reflexivity.
  - reflexivity.
  - reflexivity.
  - reflexivity.
  - repeat constructor.
  - reflexivity.
  - vm_compute. discriminate.
  - repeat constructor.
Defined.

(** * Offsets that are not in the segment *)

(** X18: a segment is opened by [newSegment] on its own files, a
    directory without an index file of this base offset or with the
    index file of at most [2^32] records as the segment writes them,
    and used by calls of [Append] and [Read]; its offsets have not
    wrapped, [baseOffset] plus the number of records is below [2^64].
    Then [Read] of an offset below [baseOffset] or at or beyond
    [nextOffset] returns the index's not-found error, no record, and
    leaves the segment and the files as they were -- for every such
    offset but the one just below the base, which the index reads as
    -1. *)
Theorem Read_not_found {proto : Proto} (dir : string) (B : Z) (c : Config)
    (K : nat) (s : segment.t) (w : World) (off : Z) :
  uint64 B -> reach dir B c K s w -> uint64 off ->
  B + Z.of_nat K < two64 ->
  off < segment.baseOffset s \/ segment.nextOffset s <= off ->
  wrap64 (off - B) <> two64 - 1 ->
  segment.Read s off w = ((None, Some ErrNotFound), s, w).
Proof.
  intros HB Hr Ho Hno Hout Hne.
  destruct (reach_inv _ _ _ _ _ _ HB Hr) as [Hinv HK].
  pose proof Hinv as (Hb & _ & _ & _ & _ & _ & _ & _ & _ & _ & Hnext).
  assert (HlenZ : len (index.entries (segment.index s)) = Z.of_nat K)
    by (unfold len; rewrite HK; reflexivity).
  apply (Read_out_of_range dir B c); auto.
  - rewrite HlenZ. lia.
  - rewrite Hb, Hnext, HlenZ in Hout. rewrite HlenZ.
    rewrite wrap64_small in Hout by (unfold uint64 in *; lia). exact Hout.
Qed.

Lemma Read_not_found_witness :
  @segment.Read fixed_proto ex_segment2 40 ex_world2
  = ((None, Some ErrNotFound), ex_segment2, ex_world2).
Proof.
  apply (@Read_not_found fixed_proto "d" 16 ex_config 2%nat).
  - unfold uint64, two64. lia.
  - exact ex_reach2.
  - unfold uint64, two64. lia.
  - unfold two64. lia.
  - right. vm_compute. discriminate.
  - vm_compute. discriminate.
Defined.

(** * The three file-system properties at the example *)

Lemma store_file_only_grows_witness :
  let ops := [OpAppend ex_payload1; OpRead 0; OpClose; OpAppend ex_payload2] in
  let r := store_run ops ex_store (opened ex_world) in
  (forall name, name <> os.Name (store.File ex_store) ->
     files (snd r) !! name = files (opened ex_world) !! name)
  /\ match files (opened ex_world) !! os.Name (store.File ex_store) with
     | Some d =>
         exists x, files (snd r) !! os.Name (store.File ex_store) = Some (d ++ x)
     | None => files (snd r) !! os.Name (store.File ex_store) = None
     end.
Proof.
  intros ops r.
  apply (store_file_only_grows ops ex_store (opened ex_world) (fst r) (snd r)).
  vm_compute. reflexivity.
Defined.

Lemma newSegment_keeps_files_witness :
  let r := newSegment "d" 16 ex_config ex_world2 in
  (forall n d, n <> index_name "d" 16 ->
     files ex_world2 !! n = Some d -> files (snd r) !! n = Some d)
  /\ (forall n, files ex_world2 !! n = None -> files (snd r) !! n <> None ->
        n = store_name "d" 16 \/ n = index_name "d" 16)
  /\ (files ex_world2 !! store_name "d" 16 = None ->
      files (snd r) !! store_name "d" 16 <> None ->
      files (snd r) !! store_name "d" 16 = Some []).
Proof.
  intros r.
  apply (newSegment_keeps_files "d" 16 ex_config ex_world2 (fst r) (snd r)).
  vm_compute. reflexivity.
Defined.

Lemma segment_Read_reads_only_witness :
  let r := @segment.Read fixed_proto ex_segment2 17 ex_world2 in
  segment.baseOffset (snd (fst r)) = segment.baseOffset ex_segment2
  /\ segment.nextOffset (snd (fst r)) = segment.nextOffset ex_segment2
  /\ segment.config (snd (fst r)) = segment.config ex_segment2
  /\ segment.index (snd (fst r)) = segment.index ex_segment2
  /\ store.size (segment.store (snd (fst r)))
     = store.size (segment.store ex_segment2)
  /\ (forall n, n <> os.Name (store.File (segment.store ex_segment2)) ->
        files (snd r) !! n = files ex_world2 !! n)
  /\ (forall d,
        files ex_world2 !! os.Name (store.File (segment.store ex_segment2))
        = Some d ->
        exists x,
          files (snd r) !! os.Name (store.File (segment.store ex_segment2))
          = Some (d ++ x)).
Proof.
  intros r.
  apply (@segment_Read_reads_only fixed_proto ex_segment2 17 ex_world2
           (fst (fst r)) (snd (fst r)) (snd r)).
  vm_compute. reflexivity.
Defined.
